(** * Showdown winrate checker: the data-acquisition pipeline

    A shallow embedding of the pipeline of [pages/api/eth.ts] (the serverless
    handler) and of the stand-alone React application
    [showdown_winrate_checker_react_web_app.jsx], with the aggregator of the
    two pages, followed by the properties their specification states.  The
    page [pages/index.tsx], which calls the handler, is embedded as far as
    its [run] goes, and further properties of the code follow those of the
    specification.

    Conventions of the embedding.
    - JavaScript numbers that hold block numbers, timestamps and counters are
      integers far below 2^53, where [+], [-], [Math.min], [Math.floor(x / 2)]
      and the comparisons are exact: they are modelled in [Z].
    - A hex quantity of the JSON-RPC wire format (["0x1f"]) is represented by
      the integer it denotes, so that [toHex] and [parseInt(_, 16)] are the
      identity on it.
    - The loosely shaped JSON of a response is read at the types the program
      expects of it: a reply object with its [error] and its [result].
    - [async] functions run sequentially; each [await] is an ordinary
      sequencing point of a state-and-exception monad over the record of
      what the run has done so far (requests sent, sleeps, progress
      reports).  The remote endpoint is a function from the number of
      requests sent so far and the request to the outcome of [fetch].
    - The length of a back-off sleep ([baseDelay * 1.6^i] plus a random
      jitter) is not modelled, only that the sleep takes place.
    - The environment variables [RPC_URL] and [CONTRACT_ADDRESS] are unset. *)

From Equations Require Import Equations.
From Stdlib Require Import ZArith NArith List String Ascii Bool Lia.
From Stdlib Require Import QArith DecimalString DecimalN HexadecimalString.
From Stdlib Require HexadecimalFacts HexadecimalPos HexadecimalN.
Import ListNotations.

Local Open Scope string_scope.
Local Open Scope list_scope.
Local Open Scope Z_scope.

Set Implicit Arguments.

(* ================================================================== *)
(** * Constants *)

Definition MAX_SPAN : Z := 100000.
Definition DEFAULT_RPC : string := "https://carrot.megaeth.com/rpc".
Definition DEFAULT_CONTRACT : string := "0xae2afe4d192127e6617cfa638a94384b53facec1".
Definition TOPIC0 : string :=
  "0xccc938abc01344413efee36b5d484cedd3bf4ce93b496e8021ba021fed9e2725".

(* ================================================================== *)
(** * Chunking a block range: [buildRanges] *)

(** [{ from: number; to: number }] *)
Record BlockSpan := { from : Z; to : Z }.

(** The [while (s <= toBlock)] loop of [buildRanges]; [ranges] is the array
    being filled by [ranges.push]. *)
Equations? buildRanges_loop (s toBlock : Z) (ranges : list BlockSpan)
  : list BlockSpan by wf (Z.to_nat (toBlock - s + 1)) lt :=
buildRanges_loop s toBlock ranges with Z_le_gt_dec s toBlock := {
  | left _ =>
      let e := Z.min (s + MAX_SPAN - 1) toBlock in
      buildRanges_loop (e + 1) toBlock (ranges ++ [ {| from := s; to := e |} ]);
  | right _ => ranges }.
Proof. subst e. unfold MAX_SPAN. lia. Qed.

Definition buildRanges (fromBlock toBlock : Z) : list BlockSpan :=
  buildRanges_loop fromBlock toBlock [].

(** Membership of a block number in a span, used to state coverage. *)
Definition in_span (n : Z) (sp : BlockSpan) : bool :=
  (from sp <=? n) && (n <=? to sp).

(* ================================================================== *)
(** * The JSON-RPC wire format, as far as the program inspects it *)

(** The [tag] parameter of [eth_getBlockByNumber]: ['earliest'], ['latest']
    or [toHex(n)]. *)
Inductive BlockTag := Earliest | Latest | BlockHex (n : Z).

Definition toHex (n : Z) : BlockTag := BlockHex n.

(** [{ fromBlock, toBlock, address, topics }] of [eth_getLogs]. *)
Record LogFilter := {
  filterFrom : Z;
  filterTo : Z;
  filterAddress : string;
  filterTopics : list string }.

Inductive RpcCall :=
| eth_getBlockByNumber (tag : BlockTag) (fullTransactions : bool)
| eth_getLogs (filter : LogFilter).

(** [{ jsonrpc: '2.0', id, method, params }] *)
Record RpcRequest := { id : Z; call : RpcCall }.

(** The body handed to [rpc]: one request object or an array of them. *)
Inductive RequestBody :=
| SingleRequest (r : RpcRequest)
| BatchRequest (rs : list RpcRequest).

Record HttpRequest := { url : string; body : RequestBody }.

(** A raw log entry of an [eth_getLogs] result. *)
Record RawLog := {
  transactionHash : string;
  logIndex : N;
  logBlockNumber : Z;
  topics : list string;
  data : string }.

(** The block object of an [eth_getBlockByNumber] result. *)
Record BlockPayload := { number : Z; timestamp : Z }.

(** A truthy [error] member; [errorMessage] is [""] when [error.message] is
    absent or empty, which [||] treats alike. *)
Record RpcError := { errorMessage : string }.

(** One JSON-RPC reply object whose [result], when present and truthy, has
    the shape [P] the caller expects ([None]: absent, [null], or, for a log
    query, not an array). *)
Record RpcReply (P : Type) := {
  error : option RpcError;
  result : option P }.

(** The parsed body: [Array.isArray(j)] tells the two apart. *)
Inductive ResponseBody (P : Type) :=
| SingleReply (r : RpcReply P)
| BatchReply (rs : list (RpcReply P)).

(** What one [fetch] gives: a rejected promise, or a response with its
    status and its body ([None] when [res.json()] rejects). *)
Inductive FetchOutcome (P : Type) :=
| NetworkError (reason : string)
| HttpResponse (status : Z) (json : option (ResponseBody P)).

Arguments NetworkError {P} reason.

(** The remote endpoint: what the [k]-th [fetch] of a run answers to a
    request.  Block lookups and log queries are typed separately. *)
Record Network := {
  answerBlock : nat -> HttpRequest -> FetchOutcome BlockPayload;
  answerLogs : nat -> HttpRequest -> FetchOutcome (list RawLog) }.

(* ================================================================== *)
(** * Exceptions and effects *)

(** The values thrown in the pipeline. *)
Inductive Error :=
| FetchFailed (reason : string)            (* fetch rejected *)
| InvalidJson                              (* res.json() rejected *)
| RpcHttp (status : Z)                     (* `RPC HTTP ${status}` *)
| RpcBatchError (message : string)         (* itemErr.error?.message || 'RPC batch error' *)
| RpcSingleError (message : string)        (* j.error?.message || 'RPC error' *)
| RpcFailedAfterRetries                    (* 'RPC failed after retries' *)
| BlockNotFound (tag : BlockTag)           (* 'Block not found' *)
| NotIterable.                             (* for (const item of resp), resp no array *)

(** How a piece of code completes: normally with a value, or abruptly. *)
Inductive completion (A : Type) :=
| Ok (a : A)
| Throw (e : Error).

Arguments Throw {A} e.

(** What a run does to the outside, in order. *)
Inductive Event :=
| Fetched (req : HttpRequest)
| Backoff (attempt : nat)                  (* the sleep after a failed attempt *)
| Slept (ms : Z)                           (* the pause between two batches *)
| Progress (done total : nat).             (* setProgress({ done, total }) *)

Definition Trace := list Event.

Definition isFetched (ev : Event) : bool :=
  match ev with Fetched _ => true | _ => false end.

(** Number of requests sent so far. *)
Definition fetchCount (tr : Trace) : nat := List.length (filter isFetched tr).

Definition M (A : Type) : Type := Trace -> completion A * Trace.

Definition ret {A} (a : A) : M A := fun tr => (Ok a, tr).
Definition throw {A} (e : Error) : M A := fun tr => (Throw e, tr).
Definition bind {A B} (m : M A) (k : A -> M B) : M B :=
  fun tr => match m tr with
            | (Ok a, tr') => k a tr'
            | (Throw e, tr') => (Throw e, tr')
            end.
Definition tryCatch {A} (m : M A) (handle : Error -> M A) : M A :=
  fun tr => match m tr with
            | (Ok a, tr') => (Ok a, tr')
            | (Throw e, tr') => handle e tr'
            end.
Definition emit (ev : Event) : M unit := fun tr => (Ok tt, tr ++ [ev]).

Notation "x <- m ;; k" := (bind m (fun x => k))
  (at level 61, m at next level, right associativity).
Notation "m ;;; k" := (bind m (fun _ => k))
  (at level 61, right associativity).

(* ================================================================== *)
(** * RPC client with retry: [rpc] / [rpcCallWithRetry] *)

Section Transport.

Variable P : Type.
(** The typed view of the endpoint used by the call site. *)
Variable answer : nat -> HttpRequest -> FetchOutcome P.

(** [await fetch(url, { method: 'POST', ..., body })] *)
Definition fetch (req : HttpRequest) : M (FetchOutcome P) :=
  fun tr => (Ok (answer (fetchCount tr) req), tr ++ [Fetched req]).

(** [res.ok] *)
Definition ok_status (status : Z) : bool := (200 <=? status) && (status <=? 299).

(** [x && x.error] *)
Definition has_error (x : RpcReply P) : bool :=
  match error x with Some _ => true | None => false end.

(** [e?.message || fallback] on the error of a reply that has one *)
Definition error_message (x : RpcReply P) (fallback : string) : string :=
  match error x with
  | Some e => if String.eqb (errorMessage e) "" then fallback else errorMessage e
  | None => fallback
  end.

(** The body of the [try] block: one attempt. *)
Definition rpc_attempt (url : string) (body : RequestBody) : M (ResponseBody P) :=
  res <- fetch {| url := url; body := body |} ;;
  match res with
  | NetworkError reason => throw (FetchFailed reason)
  | HttpResponse status json =>
      if negb (ok_status status) &&
         ((status =? 429) || ((500 <=? status) && (status <? 600)))
      then throw (RpcHttp status)
      else
        match json with
        | None => throw InvalidJson
        | Some (BatchReply items) =>
            match find has_error items with
            | Some itemErr => throw (RpcBatchError (error_message itemErr "RPC batch error"))
            | None => ret (BatchReply items)
            end
        | Some (SingleReply j) =>
            if has_error j
            then throw (RpcSingleError (error_message j "RPC error"))
            else ret (SingleReply j)
        end
  end.

(** The [for (let i = 0; i < attempts; i++)] loop with its [catch]; [i] is
    the index of the next attempt and [remaining = attempts - i]. *)
Fixpoint rpc_loop (url : string) (body : RequestBody) (remaining i : nat)
         (lastErr : option Error) : M (ResponseBody P) :=
  match remaining with
  | O => throw (match lastErr with Some e => e | None => RpcFailedAfterRetries end)
  | S remaining' =>
      tryCatch (rpc_attempt url body)
               (fun e => emit (Backoff i) ;;;
                         rpc_loop url body remaining' (S i) (Some e))
  end.

Definition rpc (url : string) (body : RequestBody) (attempts : nat)
  : M (ResponseBody P) :=
  rpc_loop url body attempts 0 None.

End Transport.

(** [attempts = 5] *)
Definition DEFAULT_ATTEMPTS : nat := 5.

(** The stand-alone application has the same function under the name
    [rpcCallWithRetry] (with a longer base delay). *)
Definition rpcCallWithRetry := rpc.

(* ================================================================== *)
(** * Block resolver *)

(** [{ num: number; ts: number }] *)
Record BlockRef := { num : Z; ts : Z }.

(** The variables [lo] and [hi] of a binary search. *)
Record Bounds := { lo : Z; hi : Z }.

(** [lo + Math.floor((hi - lo) / 2)] *)
Definition lower_mid (lo hi : Z) : Z := lo + (hi - lo) / 2.
(** [lo + Math.floor((hi - lo + 1) / 2)] *)
Definition upper_mid (lo hi : Z) : Z := lo + (hi - lo + 1) / 2.

(** The assignments of one turn of each search, given the timestamp [midTs]
    of block [mid]. *)
Definition narrow_after (targetTs midTs : Z) (b : Bounds) : Bounds :=
  let mid := lower_mid (lo b) (hi b) in
  if midTs >=? targetTs then {| lo := lo b; hi := mid |}
  else {| lo := mid + 1; hi := hi b |}.

Definition narrow_before (targetTs midTs : Z) (b : Bounds) : Bounds :=
  let mid := upper_mid (lo b) (hi b) in
  if midTs <=? targetTs then {| lo := mid; hi := hi b |}
  else {| lo := lo b; hi := mid - 1 |}.

(** Width of the interval still searched; it is the measure along which both
    loops are defined. *)
Definition width (b : Bounds) : nat := Z.to_nat (hi b - lo b).

Section Resolver.

Variable net : Network.

Definition getBlockByTag (url : string) (tag : BlockTag) : M BlockRef :=
  j <- rpc (answerBlock net) url
           (SingleRequest {| id := 1; call := eth_getBlockByNumber tag false |})
           DEFAULT_ATTEMPTS ;;
  match j with
  | SingleReply r =>
      match result r with
      | Some blk => ret {| num := number blk; ts := timestamp blk |}
      | None => throw (BlockNotFound tag)
      end
  | BatchReply _ => throw (BlockNotFound tag)
  end.

Definition getBlockByNumber (url : string) (n : Z) : M BlockRef :=
  getBlockByTag url (toHex n).
Definition getEarliest (url : string) : M BlockRef := getBlockByTag url Earliest.
Definition getLatest (url : string) : M BlockRef := getBlockByTag url Latest.

(** [while (lo < hi) { mid = ...; b = await getBlockByNumber(url, mid);
    if (b.ts >= targetTs) hi = mid; else lo = mid + 1; }] *)
Equations? findBlockAtOrAfter_loop (url : string) (targetTs : Z) (b : Bounds)
          (tr : Trace) : completion Bounds * Trace by wf (width b) lt :=
  findBlockAtOrAfter_loop url targetTs b tr with Z_lt_ge_dec (lo b) (hi b) := {
  | left _ =>
      match getBlockByNumber url (lower_mid (lo b) (hi b)) tr with
      | (Ok blk, tr') =>
          findBlockAtOrAfter_loop url targetTs (narrow_after targetTs (ts blk) b) tr'
      | (Throw e, tr') => (Throw e, tr')
      end;
  | right _ => (Ok b, tr) }.
Proof.
  unfold width, narrow_after, lower_mid.
  destruct (ts blk >=? targetTs); simpl; Z.div_mod_to_equations; lia.
Qed.

Definition findBlockAtOrAfter (url : string) (targetTs : Z) : M Z :=
  earliest <- getEarliest url ;;
  latest <- getLatest url ;;
  if targetTs <=? ts earliest then ret (num earliest)
  else if targetTs >? ts latest then ret (num latest)
  else
    b <- findBlockAtOrAfter_loop url targetTs {| lo := num earliest; hi := num latest |} ;;
    ret (lo b).

(** [while (lo < hi) { mid = ...; b = await getBlockByNumber(url, mid);
    if (b.ts <= targetTs) lo = mid; else hi = mid - 1; }] *)
Equations? findBlockAtOrBefore_loop (url : string) (targetTs : Z) (b : Bounds)
          (tr : Trace) : completion Bounds * Trace by wf (width b) lt :=
  findBlockAtOrBefore_loop url targetTs b tr with Z_lt_ge_dec (lo b) (hi b) := {
  | left _ =>
      match getBlockByNumber url (upper_mid (lo b) (hi b)) tr with
      | (Ok blk, tr') =>
          findBlockAtOrBefore_loop url targetTs (narrow_before targetTs (ts blk) b) tr'
      | (Throw e, tr') => (Throw e, tr')
      end;
  | right _ => (Ok b, tr) }.
Proof.
  unfold width, narrow_before, upper_mid.
  destruct (ts blk <=? targetTs); simpl; Z.div_mod_to_equations; lia.
Qed.

Definition findBlockAtOrBefore (url : string) (targetTs : Z) : M Z :=
  earliest <- getEarliest url ;;
  latest <- getLatest url ;;
  if targetTs <? ts earliest then ret (num earliest)
  else if targetTs >=? ts latest then ret (num latest)
  else
    b <- findBlockAtOrBefore_loop url targetTs {| lo := num earliest; hi := num latest |} ;;
    ret (lo b).

End Resolver.

(* ================================================================== *)
(** * Strings

    Strings are sequences of code units below 256, read as Latin-1.  On that
    range [trim] and [toLowerCase] are those of ECMAScript. *)

(** WhiteSpace and LineTerminator code points below 256: TAB, LF, VT, FF,
    CR, SP and NBSP. *)
Definition isWhiteSpace (c : ascii) : bool :=
  let n := N_of_ascii c in
  (((9 <=? n) && (n <=? 13)) || (n =? 32) || (n =? 160))%N.

(** A-Z and the upper-case letters of U+00C0..U+00DE (all but U+00D7). *)
Definition isUpper (c : ascii) : bool :=
  let n := N_of_ascii c in
  (((65 <=? n) && (n <=? 90)) || ((192 <=? n) && (n <=? 214)) ||
   ((216 <=? n) && (n <=? 222)))%N.

Definition lowerChar (c : ascii) : ascii :=
  if isUpper c then ascii_of_N (N_of_ascii c + 32) else c.

Fixpoint toLowerCase (s : string) : string :=
  match s with
  | EmptyString => EmptyString
  | String c s' => String (lowerChar c) (toLowerCase s')
  end.

Fixpoint trimStart (s : string) : string :=
  match s with
  | EmptyString => EmptyString
  | String c s' => if isWhiteSpace c then trimStart s' else s
  end.

Fixpoint trimEnd (s : string) : string :=
  match s with
  | EmptyString => EmptyString
  | String c s' =>
      match trimEnd s' with
      | EmptyString => if isWhiteSpace c then EmptyString else String c EmptyString
      | t => String c t
      end
  end.

Definition trim (s : string) : string := trimEnd (trimStart s).

(** The code unit [c] occurs in [s]. *)
Fixpoint occurs (c : ascii) (s : string) : Prop :=
  match s with
  | EmptyString => False
  | String c' s' => c = c' \/ occurs c s'
  end.

(** [String(n)] for a non-negative integer. *)
Definition decimal (n : N) : string :=
  DecimalString.NilEmpty.string_of_uint (N.to_uint n).

(** [n.toString(16)] for a non-negative integer. *)
Definition hexadecimal (n : N) : string :=
  HexadecimalString.NilEmpty.string_of_uint (N.to_hex_uint n).

(** [x || fallback] for an optional string. *)
Definition or_default (x : option string) (fallback : string) : string :=
  match x with
  | Some s => if String.eqb s "" then fallback else s
  | None => fallback
  end.

(* ================================================================== *)
(** * Hex quantities as strings

    The strings behind the convention that a hex quantity is represented by
    the integer it denotes: what [toHex] writes and what [parseInt(_, 16)]
    reads. *)

Module Wire.

(** [toHex]: ['0x' + n.toString(16)], for a non-negative integer. *)
Definition toHex (n : N) : string := "0x" ++ hexadecimal n.

(** The value of a hexadecimal digit, in either case. *)
Definition digitValue (c : ascii) : option N :=
  let n := N_of_ascii c in
  (if (48 <=? n) && (n <=? 57) then Some (n - 48)
   else if (97 <=? n) && (n <=? 102) then Some (n - 87)
   else if (65 <=? n) && (n <=? 70) then Some (n - 55)
   else None)%N.

(** The digits at the start of a string, read in base 16 after the digits
    read so far ([None]: none yet). *)
Fixpoint digits (s : string) (acc : option N) : option N :=
  match s with
  | EmptyString => acc
  | String c s' =>
      match digitValue c with
      | Some d => digits s' (Some (16 * match acc with Some a => a | None => 0 end + d)%N)
      | None => acc
      end
  end.

(** [parseInt(s, 16)]: leading white space is skipped, then a sign, then a
    prefix [0x] or [0X]; the value is that of the longest run of digits
    that follows, and [NaN] ([None]) when there is none. *)
Definition parseInt16 (s : string) : option Z :=
  let s1 := trimStart s in
  let negative := match s1 with String "-" _ => true | _ => false end in
  let s2 := match s1 with
            | String "-" rest => rest
            | String "+" rest => rest
            | _ => s1
            end in
  let s3 := match s2 with
            | String "0" (String "x" rest) => rest
            | String "0" (String "X" rest) => rest
            | _ => s2
            end in
  match digits s3 None with
  | Some v => Some (if negative then - Z.of_N v else Z.of_N v)
  | None => None
  end.

End Wire.

(* ================================================================== *)
(** * Arrays and maps *)

(** [arr.slice(start, end)] for [0 <= start <= end]. *)
Definition slice {A} (arr : list A) (start stop : nat) : list A :=
  firstn (stop - start) (skipn start arr).

(** [arr.map((x, idx) => f(x, idx))] *)
Fixpoint mapi_from {A B} (f : A -> nat -> B) (idx : nat) (arr : list A) : list B :=
  match arr with
  | [] => []
  | x :: rest => f x idx :: mapi_from f (S idx) rest
  end.
Definition mapi {A B} (f : A -> nat -> B) (arr : list A) : list B := mapi_from f 0 arr.

(** [arr.filter(Boolean)] on an array of objects and [null]s. *)
Fixpoint filterBoolean {A} (arr : list (option A)) : list A :=
  match arr with
  | [] => []
  | Some x :: rest => x :: filterBoolean rest
  | None :: rest => filterBoolean rest
  end.

(** A [Map<string, V>]: its entries in insertion order. *)
Definition JsMap (V : Type) := list (string * V).

(** [m.set(key, value)]: an existing key keeps its place and takes the new
    value, a new key goes last. *)
Fixpoint map_set {V} (key : string) (value : V) (m : JsMap V) : JsMap V :=
  match m with
  | [] => [(key, value)]
  | (k, v) :: rest =>
      if String.eqb k key then (k, value) :: rest
      else (k, v) :: map_set key value rest
  end.

(** [m.get(key)] *)
Fixpoint map_get {V} (key : string) (m : JsMap V) : option V :=
  match m with
  | [] => None
  | (k, v) :: rest => if String.eqb k key then Some v else map_get key rest
  end.

(** [Array.from(m.keys())] *)
Definition map_keys {V} (m : JsMap V) : list string := map fst m.

(** [Array.from(m.values())] *)
Definition map_values {V} (m : JsMap V) : list V := map snd m.

(** [arr.sort(cmp)]: the sort is stable, so for a comparator that is a
    total preorder the result is the one of insertion from the right. *)
Fixpoint sort_insert {A} (cmp : A -> A -> Z) (x : A) (sorted : list A) : list A :=
  match sorted with
  | [] => [x]
  | y :: rest => if cmp x y <=? 0 then x :: y :: rest
                 else y :: sort_insert cmp x rest
  end.
Definition Array_sort {A} (cmp : A -> A -> Z) (arr : list A) : list A :=
  fold_right (sort_insert cmp) [] arr.

(* ================================================================== *)
(** * Deduplication of raw logs *)

(** [`${log.transactionHash}-${parseInt(log.logIndex, 16)}`] *)
Definition logKey (log : RawLog) : string :=
  (transactionHash log ++ "-" ++ decimal (logIndex log))%string.

(** [for (const log of allLogs) uniq.set(key, log)] *)
Definition collectUnique (uniq : JsMap RawLog) (allLogs : list RawLog) : JsMap RawLog :=
  fold_left (fun uniq log => map_set (logKey log) log uniq) allLogs uniq.

(** [const uniq = new Map(); for (...) ...; Array.from(uniq.values())] *)
Definition dedupe (allLogs : list RawLog) : list RawLog :=
  map_values (collectUnique [] allLogs).

(** Every entry of the map is filed under its own key. *)
Definition filed (uniq : JsMap RawLog) : Prop :=
  forall k log, In (k, log) uniq -> k = logKey log.

(** The key string of an identity. *)
Definition keyOf (key : string * N) : string :=
  (fst key ++ "-" ++ decimal (snd key))%string.

(** The identity key of a raw log entry. *)
Definition logIdentity (log : RawLog) : string * N :=
  (transactionHash log, logIndex log).

(** Does a raw log entry carry the identity [key]? *)
Definition has_identity (key : string * N) (log : RawLog) : bool :=
  String.eqb (fst key) (transactionHash log) && N.eqb (snd key) (logIndex log).

(** The last element of a sequence that satisfies [p]. *)
Fixpoint last_where {A} (p : A -> bool) (l : list A) : option A :=
  match l with
  | [] => None
  | x :: rest =>
      match last_where p rest with
      | Some y => Some y
      | None => if p x then Some x else None
      end
  end.

(** The last entry of a sequence that carries a given identity. *)
Definition last_with (key : string * N) (logs : list RawLog) : option RawLog :=
  last_where (has_identity key) logs.

(* ================================================================== *)
(** * Event decoder *)

(** [{ blockNumber, txHash, gameNumber, gameId, ... }] *)
Record Row := {
  blockNumber : Z;
  txHash : string;
  gameNumber : Z;
  gameId : string;
  startedAt : string;
  winningPlayer : string;
  winningClasses : string;
  losingPlayer : string;
  losingClasses : string;
  gameLength : string;
  endReason : string }.

(** [(a, b) => a.blockNumber - b.blockNumber] *)
Definition byBlockNumber (a b : Row) : Z := blockNumber a - blockNumber b.

(** [parsed.args] of a [GameResultEvent]: one [uint256] and eight strings. *)
Record GameResultArgs := {
  arg_gameNumber : Z;
  arg_gameId : string;
  arg_startedAt : string;
  arg_winningPlayer : string;
  arg_winningClasses : string;
  arg_losingPlayer : string;
  arg_losingClasses : string;
  arg_gameLength : string;
  arg_endReason : string }.

(** What [iface.parseLog({ topics, data })] of the ethers library does: it
    throws, returns [null], or returns the decoded event. *)
Inductive ParseOutcome :=
| ParseThrows
| ParseNull
| Parsed (args : GameResultArgs).

Section Decoder.

Variable parseLog : list string -> string -> ParseOutcome.

(** [decodeGameResult], which is also the callback of [logs.map] in the
    handler.  On [null] the handler returns [null] itself, while in
    [decodeGameResult] the access [parsed.args] throws into the [catch]. *)
Definition decodeGameResult (log : RawLog) : option Row :=
  match parseLog (topics log) (data log) with
  | ParseThrows => None
  | ParseNull => None
  | Parsed args =>
      Some {| blockNumber := logBlockNumber log;
              txHash := transactionHash log;
              gameNumber := arg_gameNumber args;
              gameId := arg_gameId args;
              startedAt := arg_startedAt args;
              winningPlayer := arg_winningPlayer args;
              winningClasses := arg_winningClasses args;
              losingPlayer := arg_losingPlayer args;
              losingClasses := arg_losingClasses args;
              gameLength := arg_gameLength args;
              endReason := arg_endReason args |}
  end.

(** [logs.map(decodeGameResult).filter(Boolean)] *)
Definition decodeAll (logs : list RawLog) : list Row :=
  filterBoolean (map decodeGameResult logs).

End Decoder.

(* ================================================================== *)
(** * Fetching the logs of a block range *)

(** The request built for the span [r] at position [idx] of the chunk that
    starts at span [i]. *)
Definition logsRequest (address topic0 : string) (i : nat) (r : BlockSpan) (idx : nat)
  : RpcRequest :=
  {| id := Z.of_nat i + Z.of_nat idx + 100;
     call := eth_getLogs {| filterFrom := from r; filterTo := to r;
                            filterAddress := address; filterTopics := [topic0] |} |}.

(** [for (const item of resp) if (Array.isArray(item.result))
    allLogs.push(...item.result)], and likewise
    [allLogs = allLogs.concat(resp.result || [])]. *)
Definition collect (allLogs : list RawLog) (items : list (RpcReply (list RawLog)))
  : list RawLog :=
  fold_left (fun acc item => match result item with
                             | Some logs => acc ++ logs
                             | None => acc
                             end) items allLogs.

Definition isLogsRequest (req : RpcRequest) : bool :=
  match call req with eth_getLogs _ => true | _ => false end.

(** Does an event send an [eth_getLogs] query? *)
Definition fetchesLogs (ev : Event) : bool :=
  match ev with
  | Fetched {| body := SingleRequest r |} => isLogsRequest r
  | Fetched {| body := BatchRequest rs |} => existsb isLogsRequest rs
  | _ => false
  end.

(* ================================================================== *)
(** * The serverless handler of [pages/api/eth.ts] *)

Module Api.

(** [req.body]: [{ rpc, address, startTs, endTs }]; a [startTs] or [endTs]
    that is not a number is [None]. *)
Record Request := {
  rpcIn : option string;
  addrIn : option string;
  startTs : option Z;
  endTs : option Z }.

(** [{ ok: true, rows }] or [{ ok: false, error }], both sent with status
    200. *)
Inductive Response :=
| Rows (rows : list Row)
| Failure (error : string).

(** [e?.message || String(e)]; the text for a body that is no JSON is the
    engine's and stands for it here. *)
Definition message (e : Error) : string :=
  match e with
  | FetchFailed reason => if String.eqb reason "" then "Error" else reason
  | InvalidJson => "SyntaxError"
  | RpcHttp status => ("RPC HTTP " ++ decimal (Z.to_N status))%string
  | RpcBatchError m => m
  | RpcSingleError m => m
  | RpcFailedAfterRetries => "RPC failed after retries"
  | BlockNotFound _ => "Block not found"
  | NotIterable => "resp is not iterable"
  end.

Definition BATCH : nat := 8.

Section Handler.

Variable net : Network.
Variable parseLog : list string -> string -> ParseOutcome.

(** Lines 94-97: the block range of the request. *)
Definition resolveRange (rpcUrl : string) (req : Request) : M (Z * Z) :=
  earliest <- getEarliest net rpcUrl ;;
  latest <- getLatest net rpcUrl ;;
  fromBlock <- match startTs req with
               | Some t => if t >? 0 then findBlockAtOrAfter net rpcUrl t
                           else ret (num earliest)
               | None => ret (num earliest)
               end ;;
  toBlock <- match endTs req with
             | Some t => if t >? 0 then findBlockAtOrBefore net rpcUrl t
                         else ret (num latest)
             | None => ret (num latest)
             end ;;
  ret (fromBlock, toBlock).

(** [for (let i = 0; i < ranges.length; i += BATCH) { ... }] *)
Equations? fetchLogs_loop (rpcUrl address : string) (ranges : list BlockSpan)
        (i : nat) (allLogs : list RawLog) (tr : Trace)
  : completion (list RawLog) * Trace by wf (List.length ranges - i)%nat lt :=
  fetchLogs_loop rpcUrl address ranges i allLogs tr with lt_dec i (List.length ranges) := {
    | left _ =>
        let chunk := slice ranges i (i + BATCH) in
        let batch := mapi (logsRequest address TOPIC0 i) chunk in
        match rpc (answerLogs net) rpcUrl (BatchRequest batch) DEFAULT_ATTEMPTS tr with
        | (Ok (BatchReply resp), tr') =>
            fetchLogs_loop rpcUrl address ranges (i + BATCH)%nat (collect allLogs resp) tr'
        | (Ok (SingleReply _), tr') => (Throw NotIterable, tr')
        | (Throw e, tr') => (Throw e, tr')
        end;
    | right _ => (Ok allLogs, tr) }.
Proof. unfold BATCH. lia. Qed.

(** The body of the [try] block. *)
Definition run (req : Request) : M Response :=
  let rpcUrl := or_default (rpcIn req) DEFAULT_RPC in
  let address := toLowerCase (or_default (addrIn req) DEFAULT_CONTRACT) in
  range <- resolveRange rpcUrl req ;;
  let '(fromBlock, toBlock) := range in
  if toBlock <? fromBlock then ret (Rows [])
  else
    let ranges := buildRanges fromBlock toBlock in
    allLogs <- fetchLogs_loop rpcUrl address ranges 0 [] ;;
    let logs := dedupe allLogs in
    let rows := decodeAll parseLog logs in
    ret (Rows rows).

(** The raw log entries that a run hands to the decoder (none when the
    range is empty). *)
Definition acquire (req : Request) : M (list RawLog) :=
  let rpcUrl := or_default (rpcIn req) DEFAULT_RPC in
  let address := toLowerCase (or_default (addrIn req) DEFAULT_CONTRACT) in
  range <- resolveRange rpcUrl req ;;
  let '(fromBlock, toBlock) := range in
  if toBlock <? fromBlock then ret []
  else
    allLogs <- fetchLogs_loop rpcUrl address (buildRanges fromBlock toBlock) 0 [] ;;
    ret (dedupe allLogs).

(** [try { ... } catch (e) { res.status(200).json({ ok: false, error }) }] *)
Definition handler (req : Request) : M Response :=
  tryCatch (run req) (fun e => ret (Failure (message e))).

End Handler.

End Api.

(* ================================================================== *)
(** * The stand-alone application: [fetchLogsBatched] and [handleRun] *)

Module App.

(** The state read by [handleRun]: the form fields, with the two dates
    already turned into epoch seconds by [toStartOfDayEpoch] and
    [toEndOfDayEpoch] ([None] for [undefined]). *)
Record Inputs := {
  rpcUrl : string;
  address : string;
  startTs : option Z;
  endTs : option Z;
  batchSize : Z;
  delayMs : Z }.

(** The state written by [handleRun]. *)
Record State := {
  rows : list Row;
  error : option string;
  loading : bool }.

(** [e?.message || String(e)] *)
Definition message (e : Error) : string :=
  match e with
  | BlockNotFound Earliest => "Block not found for earliest"
  | BlockNotFound Latest => "Block not found for latest"
  | BlockNotFound (BlockHex n) => ("Block not found for 0x" ++ hexadecimal (Z.to_N n))%string
  | _ => Api.message e
  end.

(** [Math.max(1, Math.min(8, Number(batchSize) || 1))] *)
Definition clampBatch (batchSize : Z) : positive :=
  Z.to_pos (Z.max 1 (Z.min 8 (if batchSize =? 0 then 1 else batchSize))).

(** [Math.max(0, Number(delayMs) || 0)] *)
Definition clampDelay (delayMs : Z) : Z := Z.max 0 delayMs.

Section Run.

Variable net : Network.
Variable parseLog : list string -> string -> ParseOutcome.

(** The [for] loop of [fetchLogsBatched]; the batch size is at least 1. *)
Equations? fetchLogsBatched_loop (rpc address topic0 : string)
        (batchSize : positive) (delayMs : Z) (ranges : list BlockSpan)
        (i : nat) (allLogs : list RawLog) (tr : Trace)
  : completion (list RawLog) * Trace by wf (List.length ranges - i)%nat lt :=
  fetchLogsBatched_loop rpc address topic0 batchSize delayMs ranges i allLogs tr with
      lt_dec i (List.length ranges) := {
    | left _ =>
        let size := Pos.to_nat batchSize in
        let chunk := slice ranges i (i + size) in
        let batch := mapi (logsRequest address topic0 i) chunk in
        match rpcCallWithRetry (answerLogs net) rpc (BatchRequest batch)
                               DEFAULT_ATTEMPTS tr with
        | (Ok (BatchReply j), tr1) =>
            let tr2 := tr1 ++ [Progress (Nat.min (i + size) (List.length ranges))
                                        (List.length ranges)] in
            let tr3 := if ((i + size <? List.length ranges)%nat && (delayMs >? 0))%bool
                       then tr2 ++ [Slept delayMs] else tr2 in
            fetchLogsBatched_loop rpc address topic0 batchSize delayMs ranges
                                  (i + size)%nat (collect allLogs j) tr3
        | (Ok (SingleReply _), tr1) => (Throw NotIterable, tr1)
        | (Throw e, tr1) => (Throw e, tr1)
        end;
    | right _ => (Ok allLogs, tr) }.
Proof. subst size. lia. Qed.

Definition fetchLogsBatched (rpc address topic0 : string) (fromBlock toBlock : Z)
         (batchSize : positive) (delayMs : Z) : M (list RawLog) :=
  let ranges := buildRanges fromBlock toBlock in
  allLogs <- fetchLogsBatched_loop rpc address topic0 batchSize delayMs ranges 0 [] ;;
  ret (dedupe allLogs).

(** The block range of the run: [earliest], [latest], [fromBlock] and
    [toBlock] of [handleRun]. *)
Definition resolveRange (inp : Inputs) : M (Z * Z) :=
  earliest <- getEarliest net (rpcUrl inp) ;;
  latest <- getLatest net (rpcUrl inp) ;;
  fromBlock <- match startTs inp with
               | Some t => if t =? 0 then ret (num earliest)
                           else findBlockAtOrAfter net (rpcUrl inp) t
               | None => ret (num earliest)
               end ;;
  toBlock <- match endTs inp with
             | Some t => if t =? 0 then ret (num latest)
                         else findBlockAtOrBefore net (rpcUrl inp) t
             | None => ret (num latest)
             end ;;
  ret (fromBlock, toBlock).

(** The body of the [try] block; its value is the argument of the last
    [setRows]. *)
Definition run (inp : Inputs) : M (list Row) :=
  range <- resolveRange inp ;;
  let '(fromBlock, toBlock) := range in
  if toBlock <? fromBlock then
    emit (Progress 1 1) ;;;
    ret []
  else
    logs <- fetchLogsBatched (rpcUrl inp) (address inp) TOPIC0 fromBlock toBlock
                             (clampBatch (batchSize inp)) (clampDelay (delayMs inp)) ;;
    let decoded := decodeAll parseLog logs in
    ret (Array_sort byBlockNumber decoded).

(** [setError(null); setRows([]); setLoading(true); setProgress({0, 0});
    try { ... } catch (e) { setError(...) } finally { setLoading(false) }] *)
Definition handleRun (inp : Inputs) : M State :=
  emit (Progress 0 0) ;;;
  tryCatch
    (decoded <- run inp ;;
     ret {| rows := decoded; error := None; loading := false |})
    (fun e => ret {| rows := []; error := Some (message e); loading := false |}).

End Run.

End App.

(* ================================================================== *)
(** * The page of [pages/index.tsx]: [run] *)

Module Home.

(** The state read by [run]: the form fields, the two dates already turned
    into epoch seconds by [toStartOfDayEpoch] and [toEndOfDayEpoch] ([None]
    for [undefined], which [JSON.stringify] leaves out of the body). *)
Record Inputs := {
  rpc : string;
  address : string;
  startTs : option Z;
  endTs : option Z }.

(** [{ rpc, address, startTs, endTs }] as the handler reads it from
    [req.body]. *)
Definition request (inp : Inputs) : Api.Request :=
  {| Api.rpcIn := Some (rpc inp); Api.addrIn := Some (address inp);
     Api.startTs := startTs inp; Api.endTs := endTs inp |}.

(** [type ApiResponse = { ok: boolean; error?: string; rows?: Row[] }] *)
Record ApiResponse := {
  ok : bool;
  error : option string;
  rows : option (list Row) }.

(** What [await fetch('/api/eth', ...)] followed by [await res.json()]
    gives. *)
Inductive Reply :=
| Unreachable (reason : string)            (* fetch rejected *)
| NotJson                                  (* res.json() rejected *)
| Answer (j : ApiResponse).

(** [res.status(200).json({ ok: true, rows })] and
    [res.status(200).json({ ok: false, error })] as the page parses them. *)
Definition sent (resp : Api.Response) : ApiResponse :=
  match resp with
  | Api.Rows rows => {| ok := true; error := None; rows := Some rows |}
  | Api.Failure message => {| ok := false; error := Some message; rows := None |}
  end.

Section Run.

(** The route [/api/eth] as the page reaches it. *)
Variable api : Api.Request -> M Reply.

(** [setLoading(true); setError(null); setRows([]); try { ... }
    catch (e) { setError(e?.message || String(e)) } finally
    { setLoading(false) }].  The error thrown on [!j.ok] is caught at once
    by the [catch] around it, which stores its message: the state is
    computed in place. *)
Definition run (inp : Inputs) : M App.State :=
  reply <- api (request inp) ;;
  ret match reply with
      | Unreachable reason =>
          {| App.rows := []; App.error := Some (Api.message (FetchFailed reason));
             App.loading := false |}
      | NotJson =>
          {| App.rows := []; App.error := Some (Api.message InvalidJson);
             App.loading := false |}
      | Answer j =>
          if ok j
          then {| App.rows := match rows j with Some rows => rows | None => [] end;
                  App.error := None; App.loading := false |}
          else {| App.rows := []; App.error := Some (or_default (error j) "Unknown error");
                  App.loading := false |}
      end.

End Run.

(** The route when it is answered by the handler of [pages/api/eth.ts]. *)
Definition route (net : Network) (parseLog : list string -> string -> ParseOutcome)
  : Api.Request -> M Reply :=
  fun req => resp <- Api.handler net parseLog req ;; ret (Answer (sent resp)).

End Home.

(* ================================================================== *)
(** * Aggregator: [stats] and [filtered] *)

(** [s.trim().toLowerCase()] *)
Definition normalize (s : string) : string := toLowerCase (trim s).

(** [{ wins, losses, total, winrate }]; the quotient is kept exact. *)
Record Stats := {
  wins : nat;
  losses : nat;
  total : nat;
  winrate : Q }.

Definition stats (rows : list Row) (player : string) : Stats :=
  let p := normalize player in
  let wins := List.length (filter (fun r => String.eqb (normalize (winningPlayer r)) p) rows) in
  let losses := List.length (filter (fun r => String.eqb (normalize (losingPlayer r)) p) rows) in
  let total := (wins + losses)%nat in
  let winrate := if (total =? 0)%nat then 0%Q
                 else (inject_Z (Z.of_nat wins) / inject_Z (Z.of_nat total))%Q in
  {| wins := wins; losses := losses; total := total; winrate := winrate |}.

Inductive MatchResult := W | L.

(** [{ ...r, result, opponent }] *)
Module View.
Record t := {
  row : Row;
  result : MatchResult;
  opponent : string }.
End View.

Definition filtered (rows : list Row) (player : string) : list View.t :=
  let p := normalize player in
  map (fun r =>
         {| View.row := r;
            View.result := if String.eqb (normalize (winningPlayer r)) p then W else L;
            View.opponent := if String.eqb (normalize (winningPlayer r)) p
                             then losingPlayer r else winningPlayer r |})
      (filter (fun r => String.eqb (normalize (winningPlayer r)) p ||
                        String.eqb (normalize (losingPlayer r)) p) rows).

(** The counts as the specification words them. *)
Fixpoint count_where (holds : Row -> Prop) (dec : forall r, {holds r} + {~ holds r})
         (rows : list Row) : nat :=
  match rows with
  | [] => 0%nat
  | r :: rest => ((if dec r then 1 else 0) + count_where holds dec rest)%nat
  end.

(* ================================================================== *)
(** * Vocabulary of the properties *)

(** ** Traces *)

(** An action only ever adds events: the trace it returns extends the one
    it was given. *)
Definition extends (tr tr' : Trace) : Prop := exists evs, tr' = tr ++ evs.

(** Between [tr] and [tr'] no [eth_getLogs] query was sent. *)
Definition no_logs_fetched (tr tr' : Trace) : Prop :=
  exists evs, tr' = tr ++ evs /\ filter fetchesLogs evs = [].

(** An action that never sends an [eth_getLogs] query. *)
Definition quiet {A} (m : M A) : Prop :=
  forall tr c tr', m tr = (c, tr') -> no_logs_fetched tr tr'.

(** ** Outcomes of one attempt of the RPC client *)

(** No reply of the body carries an [error]. *)
Definition error_free {P} (j : ResponseBody P) : Prop :=
  match j with
  | SingleReply r => error r = None
  | BatchReply rs => Forall (fun r => error r = None) rs
  end.

(** The outcomes after which an attempt is given up and retried. *)
Inductive transient {P} : FetchOutcome P -> Prop :=
| transient_network reason : transient (NetworkError reason)
| transient_429 json : transient (HttpResponse 429 json)
| transient_5xx status json :
    500 <= status < 600 -> transient (HttpResponse status json)
| transient_body status : transient (HttpResponse status None)
| transient_error status j :
    ~ error_free j -> transient (HttpResponse status (Some j)).

(** The outcomes whose body [j] an attempt returns. *)
Definition accepted {P} (o : FetchOutcome P) (j : ResponseBody P) : Prop :=
  exists status,
    o = HttpResponse status (Some j) /\
    status <> 429 /\ ~ (500 <= status < 600) /\ error_free j.

(** ** Chains *)

(** A chain: the numbers of its first and last block and the timestamp of
    each block. *)
Record Chain := { earliest : Z; latest : Z; stamp : Z -> Z }.

(** Timestamps never decrease with the block number. *)
Definition monotonic (c : Chain) : Prop :=
  forall m n, earliest c <= m -> m <= n -> n <= latest c -> stamp c m <= stamp c n.

Definition blockOf (c : Chain) (n : Z) : BlockRef := {| num := n; ts := stamp c n |}.

(** The endpoint behind [url] serves the chain [c]: whenever the pipeline
    looks a block up, after its retries it gets that block of [c]. *)
Definition serves (net : Network) (url : string) (c : Chain) : Prop :=
  (forall tr, exists tr',
      getEarliest net url tr = (Ok (blockOf c (earliest c)), tr')) /\
  (forall tr, exists tr',
      getLatest net url tr = (Ok (blockOf c (latest c)), tr')) /\
  (forall n tr, earliest c <= n <= latest c -> exists tr',
      getBlockByNumber net url n tr = (Ok (blockOf c n), tr')).

(** The reply of an endpoint that holds [c] to a block lookup. *)
Definition blockAnswer (c : Chain) (req : HttpRequest) : FetchOutcome BlockPayload :=
  match body req with
  | SingleRequest {| call := eth_getBlockByNumber tag _ |} =>
      let n := match tag with
               | Earliest => earliest c
               | Latest => latest c
               | BlockHex n => n
               end in
      HttpResponse 200 (Some (SingleReply
        {| error := None;
           result := Some {| number := n; timestamp := stamp c n |} |}))
  | _ => HttpResponse 400 None
  end.

(** An endpoint that answers every block lookup at once, and log queries by
    [logs]. *)
Definition reliable (c : Chain) (logs : nat -> HttpRequest -> FetchOutcome (list RawLog))
  : Network :=
  {| answerBlock := fun _ => blockAnswer c; answerLogs := logs |}.

(** An endpoint that rate-limits every other request. *)
Definition throttled (c : Chain) (logs : nat -> HttpRequest -> FetchOutcome (list RawLog))
  : Network :=
  {| answerBlock := fun k req => if Nat.even k then HttpResponse 429 None
                                 else blockAnswer c req;
     answerLogs := logs |}.

(** ** Order of the rows *)

(** Ascending by [blockNumber]. *)
Fixpoint ascending (rows : list Row) : Prop :=
  match rows with
  | [] => True
  | r :: rest => Forall (fun r' => blockNumber r <= blockNumber r') rest /\ ascending rest
  end.

(** The rows of block [n], in order. *)
Definition at_block (n : Z) (rows : list Row) : list Row :=
  filter (fun r => blockNumber r =? n) rows.

(** ** Periods *)

(** A timestamp satisfies the optional start of a period. *)
Definition notBefore (start : option Z) (t : Z) : bool :=
  match start with Some s => s <=? t | None => true end.

(** A timestamp satisfies the optional end of a period. *)
Definition notAfter (stop : option Z) (t : Z) : bool :=
  match stop with Some e => t <=? e | None => true end.

(** The period is given in positive epoch seconds and meets the chain: its
    start is not after the latest block and its end not before the
    earliest. *)
Definition meets (c : Chain) (start stop : option Z) : Prop :=
  (forall s, start = Some s -> 0 < s <= stamp c (latest c)) /\
  (forall e, stop = Some e -> 0 < e /\ stamp c (earliest c) <= e).

(** Does the block of a raw log entry bear a timestamp of the period? *)
Definition inPeriod (c : Chain) (start stop : option Z) (log : RawLog) : bool :=
  notBefore start (stamp c (logBlockNumber log)) &&
  notAfter stop (stamp c (logBlockNumber log)).

(** ** An endpoint that holds the event log *)

(** Does the block of a raw log entry lie in [[fromBlock, toBlock]]? *)
Definition inRange (fromBlock toBlock : Z) (log : RawLog) : bool :=
  (fromBlock <=? logBlockNumber log) && (logBlockNumber log <=? toBlock).

(** The reply of a node to one query, where [events address topics] is the
    event log the node holds for a contract and a topic filter: the entries
    of the queried blocks, in the order of the log. *)
Definition archiveReply (events : string -> list string -> list RawLog) (r : RpcRequest)
  : RpcReply (list RawLog) :=
  match call r with
  | eth_getLogs flt =>
      {| error := None;
         result := Some (filter (inRange (filterFrom flt) (filterTo flt))
                                (events (filterAddress flt) (filterTopics flt))) |}
  | eth_getBlockByNumber _ _ => {| error := None; result := None |}
  end.

(** A node that answers every log request at once, a batch with one reply
    per query, in the order of the queries. *)
Definition archive (events : string -> list string -> list RawLog)
  : nat -> HttpRequest -> FetchOutcome (list RawLog) :=
  fun _ req =>
    HttpResponse 200 (Some match body req with
                           | SingleRequest r => SingleReply (archiveReply events r)
                           | BatchRequest rs => BatchReply (map (archiveReply events) rs)
                           end).

(** An endpoint that answers as [good] does once it answers: before that,
    at most four outcomes in a row are transient, so that every call of the
    RPC client gets through. *)
Definition getsThrough {P} (answer good : nat -> HttpRequest -> FetchOutcome P) : Prop :=
  forall k req, exists m,
    (m < DEFAULT_ATTEMPTS)%nat /\
    (forall j, (j < m)%nat -> transient (answer (k + j)%nat req)) /\
    answer (k + m)%nat req = good (k + m)%nat req.

(** Raw log entries in ascending order of block. *)
Fixpoint inBlockOrder (logs : list RawLog) : Prop :=
  match logs with
  | [] => True
  | x :: rest => Forall (fun y => logBlockNumber x <= logBlockNumber y) rest /\
                 inBlockOrder rest
  end.

(** An endpoint that leaves log queries unanswered: its reply to a request
    is well formed and free of errors, but carries no [result]. *)
Definition unanswering (logs : nat -> HttpRequest -> FetchOutcome (list RawLog)) : Prop :=
  forall k req, exists status items,
    logs k req = HttpResponse status (Some (BatchReply items)) /\
    status <> 429 /\ ~ (500 <= status < 600) /\
    Forall (fun r => error r = None /\ result r = None) items.

(** ** The requests of the log phase *)

(** A query for the events of [address] under [topic0] in at most
    [MAX_SPAN] blocks. *)
Definition boundedQuery (address topic0 : string) (r : RpcRequest) : Prop :=
  exists flt, call r = eth_getLogs flt /\
              filterAddress flt = address /\ filterTopics flt = [topic0] /\
              0 <= filterTo flt - filterFrom flt < MAX_SPAN.

(** A request to [rpcUrl] that carries between one and [limit] such
    queries, under distinct ids. *)
Definition logBatch (rpcUrl address topic0 : string) (limit : nat) (ev : Event) : Prop :=
  exists rs, ev = Fetched {| url := rpcUrl; body := BatchRequest rs |} /\
             (1 <= List.length rs <= limit)%nat /\
             Forall (boundedQuery address topic0) rs /\
             NoDup (map id rs).

(** Every request among [evs] that carries a log query is such a batch. *)
Definition onlyLogBatches (rpcUrl address topic0 : string) (limit : nat) (evs : list Event)
  : Prop :=
  forall ev, In ev evs -> fetchesLogs ev = true -> logBatch rpcUrl address topic0 limit ev.

(** ** Progress reports and pauses *)

Definition isProgress (ev : Event) : bool :=
  match ev with Progress _ _ => true | _ => false end.

Definition isSlept (ev : Event) : bool :=
  match ev with Slept _ => true | _ => false end.

(** The number of batches of [size] that [n] spans make. *)
Definition batchCount (n size : nat) : nat := ((n + size - 1) / size)%nat.

(** ** The match view *)

Definition isWin (v : View.t) : bool :=
  match View.result v with W => true | L => false end.

(** The player is recorded on both sides of the match. *)
Definition selfMatch (player : string) (r : Row) : bool :=
  String.eqb (normalize (winningPlayer r)) (normalize player) &&
  String.eqb (normalize (losingPlayer r)) (normalize player).

(** A string of white space only. *)
Fixpoint blank (s : string) : bool :=
  match s with
  | EmptyString => true
  | String c s' => isWhiteSpace c && blank s'
  end.

(** ** The order of keys *)

(** The distinct keys of a sequence, each at its first occurrence, leaving
    out those already [seen]. *)
Fixpoint firstOccurrences (seen keys : list string) : list string :=
  match keys with
  | [] => []
  | k :: rest =>
      if existsb (String.eqb k) seen then firstOccurrences seen rest
      else k :: firstOccurrences (k :: seen) rest
  end.

(** ** Errors *)

(** The errors with which a run can end: an HTTP error only for a status
    429 or 5xx, a JSON-RPC error with a message, never the fallback of a
    retry loop that made no attempt. *)
Definition raisable (e : Error) : Prop :=
  match e with
  | RpcHttp status => status = 429 \/ 500 <= status < 600
  | RpcBatchError m | RpcSingleError m => m <> ""
  | RpcFailedAfterRetries => False
  | _ => True
  end.

(** An action that throws raisable errors only. *)
Definition raises {A} (m : M A) : Prop :=
  forall tr e tr', m tr = (Throw e, tr') -> raisable e.

(** The request of a block lookup. *)
Definition lookup (endpoint : string) (tag : BlockTag) : HttpRequest :=
  {| url := endpoint;
     body := SingleRequest {| id := 1; call := eth_getBlockByNumber tag false |} |}.

(** A reply without a [result] and without an [error]. *)
Definition noResult : ResponseBody BlockPayload :=
  SingleReply {| error := None; result := None |}.

(** ** Lookups by tag *)

(** The tag ['earliest'] or ['latest'] that a request looks up, if it is a
    lookup by tag and not by number. *)
Definition namedLookup (ev : Event) : option BlockTag :=
  match ev with
  | Fetched {| body := SingleRequest {| call := eth_getBlockByNumber Earliest _ |} |} =>
      Some Earliest
  | Fetched {| body := SingleRequest {| call := eth_getBlockByNumber Latest _ |} |} =>
      Some Latest
  | _ => None
  end.

(** The lookups by tag among the events, in order. *)
Definition tagLookups (evs : list Event) : list BlockTag :=
  filterBoolean (map namedLookup evs).

(** Is a start or an end of a period given, as the handler sees it
    ([typeof t === 'number' && t > 0]) and as the application does ([t]
    truthy)? *)
Definition givenToApi (t : option Z) : bool :=
  match t with Some t => t >? 0 | None => false end.
Definition givenToApp (t : option Z) : bool :=
  match t with Some t => negb (t =? 0) | None => false end.

(** ** Concrete chains, endpoints and decoders *)

Module Example.

(** Four blocks, ten seconds apart. *)
Definition shortChain : Chain :=
  {| earliest := 0; latest := 3; stamp := fun n => 10 * n + 5 |}.

(** 150001 blocks, one second apart: two spans. *)
Definition longChain : Chain :=
  {| earliest := 0; latest := 150000; stamp := fun n => 1700000000 + n |}.

Definition logAt (hash : string) (block : Z) : RawLog :=
  {| transactionHash := hash; logIndex := 0; logBlockNumber := block;
     topics := [TOPIC0]; data := hash |}.

(** An endpoint that is down for log queries. *)
Definition noLogs : nat -> HttpRequest -> FetchOutcome (list RawLog) :=
  fun _ _ => NetworkError "connection refused".

(** An endpoint that answers a batch of two log queries with the reply to
    the second query first, as JSON-RPC 2.0 allows. *)
Definition swappedReplies : nat -> HttpRequest -> FetchOutcome (list RawLog) :=
  fun _ _ => HttpResponse 200 (Some (BatchReply
    [ {| error := None; result := Some [logAt "0xbb" 120000] |};
      {| error := None; result := Some [logAt "0xaa" 5] |} ])).

(** A decoder for which every log is a match won by Alice against Bob. *)
Definition aliceBeatsBob (topics : list string) (data : string) : ParseOutcome :=
  Parsed {| arg_gameNumber := 1; arg_gameId := data; arg_startedAt := "";
            arg_winningPlayer := "Alice"; arg_winningClasses := "";
            arg_losingPlayer := "Bob"; arg_losingClasses := "";
            arg_gameLength := ""; arg_endReason := "" |}.

(** A decoder that throws on the data ["0xbad"]. *)
Definition throwsOnBad (topics : list string) (data : string) : ParseOutcome :=
  if String.eqb data "0xbad" then ParseThrows else aliceBeatsBob topics data.

(** An endpoint that is rate-limited, then unreachable, then reports a
    JSON-RPC error, and at the fourth request answers a block lookup with
    status 404 and an error-free body. *)
Definition recovering : nat -> HttpRequest -> FetchOutcome BlockPayload :=
  fun k _ =>
    match k with
    | 0%nat => HttpResponse 429 None
    | 1%nat => NetworkError "socket hang up"
    | 2%nat => HttpResponse 200 (Some (SingleReply
                 {| error := Some {| errorMessage := "rate limited" |}; result := None |}))
    | _ => HttpResponse 404 (Some (SingleReply
                 {| error := None; result := Some {| number := 3; timestamp := 35 |} |}))
    end.

Definition rowAt (hash : string) (block : Z) : Row :=
  {| blockNumber := block; txHash := hash; gameNumber := 1; gameId := hash;
     startedAt := ""; winningPlayer := "Alice"; winningClasses := "";
     losingPlayer := "Bob"; losingClasses := ""; gameLength := ""; endReason := "" |}.

(** The event log of the default contract: three matches in blocks 1, 2
    and 3; no other contract has events. *)
Definition gameLog (address : string) (topics : list string) : list RawLog :=
  if String.eqb address DEFAULT_CONTRACT
  then [logAt "0xaa" 1; logAt "0xbb" 2; logAt "0xcc" 3]
  else [].

(** A node that holds that log and rate-limits every other request. *)
Definition flaky : nat -> HttpRequest -> FetchOutcome (list RawLog) :=
  fun k req => if Nat.even k then HttpResponse 429 None else archive gameLog k req.

(** An endpoint whose node has no block to show: every lookup is answered
    with [result: null]. *)
Definition pruned : nat -> HttpRequest -> FetchOutcome BlockPayload :=
  fun _ _ => HttpResponse 200 (Some (SingleReply {| error := None; result := None |})).

End Example.

(* ================================================================== *)
(* ================================================================== *)
(** * Properties *)

(** ** Range coverage of [buildRanges] *)

Lemma last_nth_pred (A : Type) (l : list A) (x d : A) :
  last (x :: l) d = nth (Nat.pred (List.length (x :: l))) (x :: l) d.
Proof.
  revert x. induction l as [| y l IH]; intros x; [reflexivity |].
  change (last (y :: l) d = nth (Nat.pred (List.length (y :: l))) (y :: l) d).
  apply IH.
Qed.

Section RangeCoverage.

(** One turn of the loop, in the form of the source's [while]. *)
Lemma buildRanges_loop_while s toBlock ranges :
  buildRanges_loop s toBlock ranges =
  if s <=? toBlock
  then let e := Z.min (s + MAX_SPAN - 1) toBlock in
       buildRanges_loop (e + 1) toBlock (ranges ++ [ {| from := s; to := e |} ])
  else ranges.
Proof.
  rewrite (buildRanges_loop_equation_1 s toBlock ranges).
  destruct (Z_le_gt_dec s toBlock) as [Hle | Hgt]; simpl;
    destruct (Z.leb_spec s toBlock); try lia; reflexivity.
Qed.

(** The spans pushed so far are never touched again. *)
Lemma buildRanges_loop_acc toBlock : forall (n : nat) s ranges,
    (Z.to_nat (toBlock - s + 1) <= n)%nat ->
    buildRanges_loop s toBlock ranges = ranges ++ buildRanges_loop s toBlock [].
Proof.
  induction n as [| n IH]; intros s ranges Hn;
    rewrite (buildRanges_loop_while s toBlock ranges),
            (buildRanges_loop_while s toBlock []);
    destruct (Z.leb_spec s toBlock) as [Hle | Hgt];
    try (rewrite app_nil_r; reflexivity); try lia.
  cbv zeta. unfold MAX_SPAN in *.
  rewrite IH by lia. rewrite (IH _ ([] ++ _)) by lia.
  rewrite <- app_assoc. reflexivity.
Qed.

Lemma buildRanges_step s toBlock :
  s <= toBlock ->
  buildRanges s toBlock =
  {| from := s; to := Z.min (s + MAX_SPAN - 1) toBlock |}
    :: buildRanges (Z.min (s + MAX_SPAN - 1) toBlock + 1) toBlock.
Proof.
  intros Hle. unfold buildRanges at 1.
  rewrite buildRanges_loop_while.
  destruct (Z.leb_spec s toBlock); [| lia]. cbv zeta.
  rewrite (@buildRanges_loop_acc toBlock (Z.to_nat (toBlock - s + 1))).
  - reflexivity.
  - unfold MAX_SPAN. lia.
Qed.

Lemma buildRanges_done s toBlock : toBlock < s -> buildRanges s toBlock = [].
Proof.
  intros Hlt. unfold buildRanges. rewrite buildRanges_loop_while.
  destruct (Z.leb_spec s toBlock); [lia | reflexivity].
Qed.

(** Induction over the spans in the order in which the loop emits them. *)
Lemma buildRanges_ind (toBlock : Z) (P : Z -> list BlockSpan -> Prop) :
  (forall s, toBlock < s -> P s []) ->
  (forall s, s <= toBlock ->
     let e := Z.min (s + MAX_SPAN - 1) toBlock in
     P (e + 1) (buildRanges (e + 1) toBlock) ->
     P s ({| from := s; to := e |} :: buildRanges (e + 1) toBlock)) ->
  forall s, P s (buildRanges s toBlock).
Proof.
  intros Hdone Hstep.
  assert (H : forall (n : nat) s, (Z.to_nat (toBlock - s + 1) <= n)%nat ->
                                  P s (buildRanges s toBlock)).
  { induction n as [| n IH]; intros s Hn.
    - rewrite buildRanges_done by lia. apply Hdone. lia.
    - destruct (Z_le_gt_dec s toBlock) as [Hle | Hgt].
      + rewrite buildRanges_step by assumption.
        apply Hstep; [assumption |]. apply IH. unfold MAX_SPAN. lia.
      + rewrite buildRanges_done by lia. apply Hdone. lia. }
  intros s. exact (H _ s (le_n _)).
Qed.

(** Every span is well formed, no longer than [MAX_SPAN], and lies between
    the start of the loop and [toBlock]. *)
Lemma buildRanges_spans_bounded toBlock s :
  Forall (fun sp => s <= from sp /\ from sp <= to sp /\ to sp <= toBlock /\
                    to sp - from sp < MAX_SPAN)
         (buildRanges s toBlock).
Proof.
  apply (@buildRanges_ind toBlock (fun s l =>
    Forall (fun sp => s <= from sp /\ from sp <= to sp /\ to sp <= toBlock /\
                      to sp - from sp < MAX_SPAN) l)).
  - intros; constructor.
  - intros s0 Hle e IH. constructor.
    + simpl. subst e. unfold MAX_SPAN. lia.
    + eapply Forall_impl; [| exact IH]. simpl.
      intros sp Hsp. subst e. unfold MAX_SPAN in *. lia.
Qed.

(** Consecutive spans are adjacent: each starts one past the end of the
    previous one. *)
Lemma buildRanges_adjacent toBlock s :
  forall i a b,
    nth_error (buildRanges s toBlock) i = Some a ->
    nth_error (buildRanges s toBlock) (S i) = Some b ->
    from b = to a + 1.
Proof.
  apply (@buildRanges_ind toBlock (fun s l =>
    forall i a b, nth_error l i = Some a -> nth_error l (S i) = Some b ->
                  from b = to a + 1)).
  - intros s0 _ i a b Ha. destruct i; discriminate.
  - intros s0 Hle e IH i a b Ha Hb. destruct i as [| i].
    + simpl in Ha. injection Ha as <-. simpl in Hb. simpl.
      destruct (Z_le_gt_dec (e + 1) toBlock) as [Hle' | Hgt'].
      * rewrite buildRanges_step in Hb by assumption. simpl in Hb.
        injection Hb as <-. reflexivity.
      * rewrite buildRanges_done in Hb by lia. discriminate.
    + simpl in Ha, Hb. eapply IH; eassumption.
Qed.

(** The spans are in ascending order and pairwise disjoint. *)
Lemma buildRanges_ascending toBlock s :
  forall i j a b,
    (i < j)%nat ->
    nth_error (buildRanges s toBlock) i = Some a ->
    nth_error (buildRanges s toBlock) j = Some b ->
    to a < from b.
Proof.
  apply (@buildRanges_ind toBlock (fun s l =>
    forall i j a b, (i < j)%nat -> nth_error l i = Some a -> nth_error l j = Some b ->
                    to a < from b)).
  - intros s0 _ i j a b _ Ha. destruct i; discriminate.
  - intros s0 Hle e IH i j a b Hij Ha Hb.
    destruct j as [| j]; [lia |]. destruct i as [| i]; simpl in Ha, Hb.
    + injection Ha as <-. simpl.
      apply nth_error_In in Hb.
      pose proof (buildRanges_spans_bounded toBlock (e + 1)) as Hall.
      rewrite Forall_forall in Hall. apply Hall in Hb. lia.
    + apply (IH i j); [lia | assumption | assumption].
Qed.

Lemma buildRanges_head fromBlock toBlock :
  fromBlock <= toBlock ->
  exists first, hd_error (buildRanges fromBlock toBlock) = Some first /\
                from first = fromBlock.
Proof.
  intros Hle. rewrite buildRanges_step by assumption.
  eexists; split; reflexivity.
Qed.

Lemma buildRanges_last toBlock s :
  s <= toBlock ->
  to (last (buildRanges s toBlock) {| from := s; to := s - 1 |}) = toBlock.
Proof.
  revert s.
  assert (H : forall s d, s <= toBlock ->
              to (last (buildRanges s toBlock) d) = toBlock).
  { intros s.
    apply (@buildRanges_ind toBlock (fun s l =>
      forall d, s <= toBlock -> to (last l d) = toBlock)).
    - intros; lia.
    - intros s0 Hle e IH d _.
      destruct (Z_le_gt_dec (e + 1) toBlock) as [Hle' | Hgt'].
      + specialize (IH d Hle').
        rewrite buildRanges_step in * by assumption. exact IH.
      + rewrite buildRanges_done by lia. simpl. subst e. lia. }
  intros s Hle. apply H. assumption.
Qed.

(** A block of [[s, toBlock]] lies in exactly one span, a block outside in
    none. *)
Lemma buildRanges_covers_once toBlock s n :
  List.length (filter (in_span n) (buildRanges s toBlock)) =
  if (s <=? n) && (n <=? toBlock) then 1%nat else 0%nat.
Proof.
  apply (@buildRanges_ind toBlock (fun s l =>
    List.length (filter (in_span n) l) =
    if (s <=? n) && (n <=? toBlock) then 1%nat else 0%nat)).
  - intros s0 Hlt.
    destruct (Z.leb_spec s0 n), (Z.leb_spec n toBlock); simpl; try reflexivity; lia.
  - intros s0 Hle e IH. simpl filter. unfold in_span at 1. simpl from; simpl to.
    subst e. unfold MAX_SPAN in *.
    destruct (Z.leb_spec s0 n), (Z.leb_spec n toBlock),
             (Z.leb_spec n (Z.min (s0 + 100000 - 1) toBlock)),
             (Z.leb_spec (Z.min (s0 + 100000 - 1) toBlock + 1) n);
      simpl in *; try lia; rewrite IH; reflexivity.
Qed.

End RangeCoverage.



(** ** The effect monad and the record of events *)

Lemma fetchCount_app tr1 tr2 : fetchCount (tr1 ++ tr2) = (fetchCount tr1 + fetchCount tr2)%nat.
Proof. unfold fetchCount. rewrite filter_app, length_app. reflexivity. Qed.

Lemma fetchCount_fetched tr req : fetchCount (tr ++ [Fetched req]) = S (fetchCount tr).
Proof. rewrite fetchCount_app. cbn [fetchCount filter isFetched List.length]. lia. Qed.

Lemma fetchCount_backoff tr i : fetchCount (tr ++ [Backoff i]) = fetchCount tr.
Proof. rewrite fetchCount_app. cbn [fetchCount filter isFetched List.length]. lia. Qed.


Lemma extends_refl tr : extends tr tr.
Proof. exists []. rewrite app_nil_r. reflexivity. Qed.

Lemma extends_trans tr1 tr2 tr3 : extends tr1 tr2 -> extends tr2 tr3 -> extends tr1 tr3.
Proof.
  intros [e1 ->] [e2 ->]. exists (e1 ++ e2). rewrite app_assoc. reflexivity.
Qed.

Lemma extends_snoc tr ev : extends tr (tr ++ [ev]).
Proof. exists [ev]. reflexivity. Qed.

Create HintDb trace.
#[local] Hint Resolve extends_refl extends_snoc : trace.

Lemma fetchCount_retry tr req i :
  fetchCount (tr ++ [Fetched req; Backoff i]) = S (fetchCount tr).
Proof. rewrite fetchCount_app. cbn [fetchCount filter isFetched List.length]. lia. Qed.

(** ** RPC client: which outcomes return and which are retried *)

Section RpcClient.

Variable P : Type.
Variable answer : nat -> HttpRequest -> FetchOutcome P.
Variables (endpoint : string) (payload : RequestBody).

Local Abbreviation req := {| url := endpoint; body := payload |}.

Lemma find_has_error_none (items : list (RpcReply P)) :
  find (@has_error P) items = None <-> Forall (fun r => error r = None) items.
Proof.
  induction items as [| r items IH]; simpl.
  - split; [constructor | reflexivity].
  - unfold has_error at 1. destruct (error r) eqn:E.
    + split; [discriminate |]. intros H. inversion H; congruence.
    + rewrite IH. split; intros H.
      * constructor; assumption.
      * inversion H; assumption.
Qed.

(** An outcome is either accepted or transient, never both. *)
Lemma transient_not_accepted (o : FetchOutcome P) j : transient o -> ~ accepted o j.
Proof.
  intros Ht (status & -> & H429 & H5xx & Hfree).
  inversion Ht; subst; try congruence; try lia.
Qed.

(** One attempt sends one request; it returns the body of an accepted
    outcome and throws on a transient one. *)
Lemma rpc_attempt_outcome tr :
  exists c,
    rpc_attempt answer endpoint payload tr = (c, tr ++ [Fetched req]) /\
    ((exists j, c = Ok j /\ accepted (answer (fetchCount tr) req) j) \/
     (exists e, c = Throw e /\ transient (answer (fetchCount tr) req))).
Proof.
  unfold rpc_attempt, bind, fetch.
  destruct (answer (fetchCount tr) req) as [reason | status json] eqn:Eo.
  - eexists; split; [reflexivity |]. right. eexists; split; [reflexivity | constructor].
  - destruct (negb (ok_status status) &&
              ((status =? 429) || ((500 <=? status) && (status <? 600)))) eqn:Est.
    + eexists; split; [reflexivity |]. right. eexists; split; [reflexivity |].
      apply andb_prop in Est as [_ Est]. apply orb_prop in Est as [E | E].
      * apply Z.eqb_eq in E. subst. apply transient_429.
      * apply andb_prop in E as [E1 E2]. apply transient_5xx. lia.
    + assert (Hst : status <> 429 /\ ~ (500 <= status < 600)).
      { unfold ok_status in Est.
        destruct (Z.eqb_spec status 429), (Z.leb_spec 500 status),
                 (Z.ltb_spec status 600), (Z.leb_spec 200 status),
                 (Z.leb_spec status 299); simpl in Est; try discriminate; lia. }
      destruct json as [[j | items] |].
      * unfold has_error. destruct (error j) eqn:Ej.
        -- eexists; split; [reflexivity |]. right. eexists; split; [reflexivity |].
           apply transient_error. simpl. congruence.
        -- eexists; split; [reflexivity |]. left. eexists; split; [reflexivity |].
           exists status. simpl. tauto.
      * destruct (find (@has_error P) items) as [itemErr |] eqn:Ef.
        -- eexists; split; [reflexivity |]. right. eexists; split; [reflexivity |].
           apply transient_error. simpl. rewrite <- find_has_error_none. congruence.
        -- eexists; split; [reflexivity |]. left. eexists; split; [reflexivity |].
           exists status. simpl. rewrite <- find_has_error_none. tauto.
      * eexists; split; [reflexivity |]. right. eexists; split; [reflexivity |].
        apply transient_body.
Qed.

(** The loop, one turn unfolded. *)
Lemma rpc_loop_step remaining i lastErr tr :
  rpc_loop answer endpoint payload (S remaining) i lastErr tr =
  match rpc_attempt answer endpoint payload tr with
  | (Ok j, tr') => (Ok j, tr')
  | (Throw e, tr') =>
      rpc_loop answer endpoint payload remaining (S i) (Some e) (tr' ++ [Backoff i])
  end.
Proof.
  simpl. unfold tryCatch, bind, emit.
  destruct (rpc_attempt answer endpoint payload tr) as [[j | e] tr']; reflexivity.
Qed.

(** A transient outcome is followed by the back-off and the next attempt. *)
Lemma rpc_loop_retries remaining i lastErr tr :
  transient (answer (fetchCount tr) req) ->
  exists e,
    rpc_loop answer endpoint payload (S remaining) i lastErr tr =
    rpc_loop answer endpoint payload remaining (S i) (Some e)
             (tr ++ [Fetched req; Backoff i]).
Proof.
  intros Ht. rewrite rpc_loop_step.
  destruct (rpc_attempt_outcome tr) as (c & -> & [(j & -> & Hacc) | (e & -> & _)]).
  - exfalso. eapply transient_not_accepted; eassumption.
  - exists e. rewrite <- app_assoc. reflexivity.
Qed.

(** An accepted outcome ends the call with its body. *)
Lemma rpc_loop_returns remaining i lastErr tr j :
  accepted (answer (fetchCount tr) req) j ->
  rpc_loop answer endpoint payload (S remaining) i lastErr tr = (Ok j, tr ++ [Fetched req]).
Proof.
  intros Hacc. rewrite rpc_loop_step.
  destruct (rpc_attempt_outcome tr) as (c & -> & [(j' & -> & Hacc') | (e & -> & Ht)]).
  - destruct Hacc as (s1 & E1 & _), Hacc' as (s2 & E2 & _).
    rewrite E1 in E2. injection E2 as _ <-. reflexivity.
  - exfalso. eapply transient_not_accepted; eassumption.
Qed.

Lemma rpc_loop_success remaining : forall i lastErr tr j tr',
  rpc_loop answer endpoint payload remaining i lastErr tr = (Ok j, tr') ->
  exists k, (k < remaining)%nat /\
    accepted (answer (fetchCount tr + k) req) j /\
    (forall m, (m < k)%nat -> transient (answer (fetchCount tr + m) req)) /\
    fetchCount tr' = (fetchCount tr + k + 1)%nat /\ extends tr tr'.
Proof.
  induction remaining as [| remaining IH]; intros i lastErr tr j tr' Hrun.
  - simpl in Hrun. unfold throw in Hrun. discriminate.
  - rewrite rpc_loop_step in Hrun.
    destruct (rpc_attempt_outcome tr) as (c & E & [(j' & -> & Hacc) | (e & -> & Ht)]);
      rewrite E in Hrun.
    + injection Hrun as <- <-. exists 0%nat. rewrite Nat.add_0_r.
      repeat split; [lia | assumption | intros; lia | | auto with trace].
      rewrite fetchCount_fetched. lia.
    + apply IH in Hrun as (k & Hk & Hacc & Hbefore & Hcount & Hext).
      rewrite fetchCount_backoff, fetchCount_fetched in *.
      exists (S k). repeat split.
      * lia.
      * replace (fetchCount tr + S k)%nat with (S (fetchCount tr) + k)%nat by lia.
        assumption.
      * intros [| m] Hm; [rewrite Nat.add_0_r; assumption |].
        replace (fetchCount tr + S m)%nat with (S (fetchCount tr) + m)%nat by lia.
        apply Hbefore. lia.
      * lia.
      * eapply extends_trans; [| exact Hext].
        rewrite <- app_assoc. eexists; reflexivity.
Qed.

Lemma rpc_loop_exhausted remaining : forall i lastErr tr,
  (forall m, (m < remaining)%nat -> transient (answer (fetchCount tr + m) req)) ->
  exists e tr',
    rpc_loop answer endpoint payload remaining i lastErr tr = (Throw e, tr') /\
    fetchCount tr' = (fetchCount tr + remaining)%nat /\ extends tr tr'.
Proof.
  induction remaining as [| remaining IH]; intros i lastErr tr Hall.
  - simpl. unfold throw. do 2 eexists. split; [reflexivity |].
    split; [lia | auto with trace].
  - destruct (@rpc_loop_retries remaining i lastErr tr) as (e & ->).
    { specialize (Hall 0%nat). rewrite Nat.add_0_r in Hall. apply Hall. lia. }
    destruct (IH (S i) (Some e) (tr ++ [Fetched req; Backoff i]))
      as (e' & tr' & -> & Hcount & Hext).
    { intros m Hm. rewrite fetchCount_retry.
      replace (S (fetchCount tr) + m)%nat with (fetchCount tr + S m)%nat by lia.
      apply Hall. lia. }
    exists e', tr'. split; [reflexivity |]. split.
    + rewrite Hcount, fetchCount_retry. lia.
    + eapply extends_trans; [| exact Hext]. eexists; reflexivity.
Qed.

Lemma rpc_loop_accepts remaining : forall k i lastErr tr j,
  (k < remaining)%nat ->
  (forall m, (m < k)%nat -> transient (answer (fetchCount tr + m) req)) ->
  accepted (answer (fetchCount tr + k) req) j ->
  exists tr', rpc_loop answer endpoint payload remaining i lastErr tr = (Ok j, tr').
Proof.
  induction remaining as [| remaining IH]; intros k i lastErr tr j Hk Hbefore Hacc;
    [lia |].
  destruct k as [| k].
  - rewrite Nat.add_0_r in Hacc. rewrite (rpc_loop_returns _ _ _ _ Hacc).
    eexists; reflexivity.
  - destruct (@rpc_loop_retries remaining i lastErr tr) as (e & ->).
    { specialize (Hbefore 0%nat). rewrite Nat.add_0_r in Hbefore. apply Hbefore. lia. }
    apply (IH k); [lia | |].
    + intros m Hm. rewrite fetchCount_retry.
      replace (S (fetchCount tr) + m)%nat with (fetchCount tr + S m)%nat by lia.
      apply Hbefore. lia.
    + rewrite fetchCount_retry.
      replace (S (fetchCount tr) + k)%nat with (fetchCount tr + S k)%nat by lia.
      assumption.
Qed.

(** Whatever happens, a call sends at most [attempts] requests. *)
Lemma rpc_fetches_bounded attempts tr c tr' :
  rpc answer endpoint payload attempts tr = (c, tr') ->
  (fetchCount tr' <= fetchCount tr + attempts)%nat /\ extends tr tr'.
Proof.
  unfold rpc. generalize 0%nat as i, (@None Error) as lastErr.
  revert tr. induction attempts as [| n IH]; intros tr i lastErr Hrun.
  - simpl in Hrun. unfold throw in Hrun. injection Hrun as <- <-.
    split; [lia | auto with trace].
  - rewrite rpc_loop_step in Hrun.
    destruct (rpc_attempt_outcome tr) as (c0 & E & _). rewrite E in Hrun.
    destruct c0 as [j | e].
    + injection Hrun as <- <-. rewrite fetchCount_fetched.
      split; [lia | auto with trace].
    + apply IH in Hrun as [Hcount Hext].
      rewrite fetchCount_backoff, fetchCount_fetched in Hcount. split; [lia |].
      eapply extends_trans; [| exact Hext].
      rewrite <- app_assoc. eexists; reflexivity.
Qed.

End RpcClient.

(** Every outcome of a request is of one of the two kinds. *)
Lemma outcome_kinds (P : Type) (o : FetchOutcome P) :
  transient o \/ exists j, accepted o j.
Proof.
  destruct o as [reason | status [j |]].
  - left. constructor.
  - destruct (Z.eq_dec status 429) as [-> | H429]; [left; apply transient_429 |].
    destruct (Z_le_dec 500 status) as [Hlo | Hlo];
      [destruct (Z_lt_dec status 600) as [Hhi | Hhi];
       [left; apply transient_5xx; lia |] |].
    all: assert (Hfree : error_free j \/ ~ error_free j)
      by (destruct j as [r | rs]; simpl;
          [ destruct (error r); [right; discriminate | left; reflexivity]
          | rewrite <- find_has_error_none;
            destruct (find (@has_error P) rs); [right; discriminate | left; reflexivity] ]).
    all: destruct Hfree as [Hfree | Hfree];
      [ right; exists j, status; repeat split; try assumption; lia
      | left; apply transient_error; assumption ].
  - left. apply transient_body.
Qed.




(** ** Retry exhaustion *)

Lemma rpc_loop_http_500 (P : Type) (answer : nat -> HttpRequest -> FetchOutcome P)
      (endpoint : string) (payload : RequestBody) (json : option (ResponseBody P)) :
  (forall k, answer k {| url := endpoint; body := payload |} = HttpResponse 500 json) ->
  forall remaining i lastErr tr,
    rpc_loop answer endpoint payload remaining i lastErr tr =
    (Throw match remaining with
           | O => match lastErr with Some e => e | None => RpcFailedAfterRetries end
           | S _ => RpcHttp 500
           end,
     tr ++ flat_map (fun a => [Fetched {| url := endpoint; body := payload |}; Backoff a])
                    (seq i remaining)).
Proof.
  intros Hdown. induction remaining as [| n IH]; intros i lastErr tr.
  - simpl. rewrite app_nil_r. reflexivity.
  - rewrite rpc_loop_step. unfold rpc_attempt, bind, fetch. rewrite Hdown.
    cbn [ok_status negb andb orb Z.leb Z.ltb Z.eqb Z.compare Pos.compare
         Pos.compare_cont Pos.eqb throw].
    rewrite IH. simpl seq. simpl flat_map. rewrite <- !app_assoc. simpl.
    destruct n; reflexivity.
Qed.

(** An endpoint that always answers with status 500 makes the call fail
    after exactly [attempts] requests, each followed by its back-off, with
    the error of the last response. *)
Theorem rpc_exhausts_attempts (P : Type) (answer : nat -> HttpRequest -> FetchOutcome P)
        (endpoint : string) (payload : RequestBody) (json : option (ResponseBody P))
        (attempts : nat) (tr : Trace) :
  (forall k, answer k {| url := endpoint; body := payload |} = HttpResponse 500 json) ->
  (0 < attempts)%nat ->
  rpc answer endpoint payload attempts tr =
  (Throw (RpcHttp 500),
   tr ++ flat_map (fun a => [Fetched {| url := endpoint; body := payload |}; Backoff a])
                  (seq 0 attempts)).
Proof.
  intros Hdown Hpos. unfold rpc. rewrite (rpc_loop_http_500 _ _ _ Hdown).
  destruct attempts; [lia | reflexivity].
Qed.

Lemma rpc_exhausts_attempts_witness :
  let lookup := SingleRequest {| id := 1; call := eth_getBlockByNumber Latest false |} in
  let req := {| url := DEFAULT_RPC; body := lookup |} in
  rpc (fun _ _ => @HttpResponse BlockPayload 500 None) DEFAULT_RPC lookup 5 [] =
  (Throw (RpcHttp 500),
   [Fetched req; Backoff 0; Fetched req; Backoff 1; Fetched req; Backoff 2;
    Fetched req; Backoff 3; Fetched req; Backoff 4]).
Proof.
  intros lookup req.
  apply (@rpc_exhausts_attempts BlockPayload (fun _ _ => HttpResponse 500 None)
                                DEFAULT_RPC lookup None 5 []).
  - reflexivity.
  - lia.
Defined.

(** ** Block resolver *)

Section ResolverFacts.

Variable net : Network.
Variable endpoint : string.

(** A block lookup sends at most [DEFAULT_ATTEMPTS] requests. *)
Lemma getBlockByTag_fetches tag tr c tr' :
  getBlockByTag net endpoint tag tr = (c, tr') ->
  (fetchCount tr' <= fetchCount tr + DEFAULT_ATTEMPTS)%nat /\ extends tr tr'.
Proof.
  unfold getBlockByTag, bind. intros Hrun.
  destruct (rpc (answerBlock net) endpoint _ DEFAULT_ATTEMPTS tr) as [[j | e] tr1] eqn:E;
    apply rpc_fetches_bounded in E.
  - destruct j as [r | rs]; [destruct (result r) |];
      unfold ret, throw in Hrun; injection Hrun as <- <-; exact E.
  - injection Hrun as <- <-. exact E.
Qed.

(** The two loops in the form of the source's [while]. *)
Lemma findBlockAtOrAfter_loop_while targetTs b tr :
  findBlockAtOrAfter_loop net endpoint targetTs b tr =
  if lo b <? hi b then
    match getBlockByNumber net endpoint (lower_mid (lo b) (hi b)) tr with
    | (Ok blk, tr') =>
        findBlockAtOrAfter_loop net endpoint targetTs (narrow_after targetTs (ts blk) b) tr'
    | (Throw e, tr') => (Throw e, tr')
    end
  else (Ok b, tr).
Proof.
  rewrite findBlockAtOrAfter_loop_equation_1.
  destruct (Z_lt_ge_dec (lo b) (hi b)); simpl;
    destruct (Z.ltb_spec (lo b) (hi b)); try lia; reflexivity.
Qed.

Lemma findBlockAtOrBefore_loop_while targetTs b tr :
  findBlockAtOrBefore_loop net endpoint targetTs b tr =
  if lo b <? hi b then
    match getBlockByNumber net endpoint (upper_mid (lo b) (hi b)) tr with
    | (Ok blk, tr') =>
        findBlockAtOrBefore_loop net endpoint targetTs (narrow_before targetTs (ts blk) b) tr'
    | (Throw e, tr') => (Throw e, tr')
    end
  else (Ok b, tr).
Proof.
  rewrite findBlockAtOrBefore_loop_equation_1.
  destruct (Z_lt_ge_dec (lo b) (hi b)); simpl;
    destruct (Z.ltb_spec (lo b) (hi b)); try lia; reflexivity.
Qed.

(** The midpoints stay inside the interval. *)
Lemma lower_mid_bounds l h : l < h -> l <= lower_mid l h < h.
Proof. unfold lower_mid. intros. Z.div_mod_to_equations. lia. Qed.

Lemma upper_mid_bounds l h : l < h -> l < upper_mid l h <= h.
Proof. unfold upper_mid. intros. Z.div_mod_to_equations. lia. Qed.

(** Both assignments of a turn narrow the interval and keep it non-empty. *)
Lemma narrow_after_shrinks targetTs midTs b :
  lo b < hi b ->
  let b' := narrow_after targetTs midTs b in
  (width b' < width b)%nat /\ lo b <= lo b' /\ lo b' <= hi b' /\ hi b' <= hi b.
Proof.
  intros Hlt. pose proof (lower_mid_bounds Hlt) as Hmid.
  unfold narrow_after, width. destruct (midTs >=? targetTs); simpl; lia.
Qed.

Lemma narrow_before_shrinks targetTs midTs b :
  lo b < hi b ->
  let b' := narrow_before targetTs midTs b in
  (width b' < width b)%nat /\ lo b <= lo b' /\ lo b' <= hi b' /\ hi b' <= hi b.
Proof.
  intros Hlt. pose proof (upper_mid_bounds Hlt) as Hmid.
  unfold narrow_before, width. destruct (midTs <=? targetTs); simpl; lia.
Qed.

(** The search for the last block at or before a timestamp stops: whatever
    the lookups answer, it makes at most [width b] turns, each with one
    lookup, and from a non-empty interval it ends with [lo = hi] inside the
    interval it started from. *)
Lemma findBlockAtOrBefore_loop_stops targetTs : forall (n : nat) b tr,
  (width b <= n)%nat ->
  exists c tr',
    findBlockAtOrBefore_loop net endpoint targetTs b tr = (c, tr') /\
    (fetchCount tr' <= fetchCount tr + DEFAULT_ATTEMPTS * width b)%nat /\
    extends tr tr' /\
    forall b', c = Ok b' -> lo b <= hi b ->
               lo b' = hi b' /\ lo b <= lo b' <= hi b.
Proof.
  induction n as [| n IH]; intros b tr Hn;
    rewrite findBlockAtOrBefore_loop_while;
    destruct (Z.ltb_spec (lo b) (hi b)) as [Hlt | Hge].
  - unfold width in Hn. lia.
  - do 2 eexists. split; [reflexivity |]. split; [lia |].
    split; [auto with trace |]. intros b' [= <-] Hle. lia.
  - destruct (getBlockByNumber net endpoint (upper_mid (lo b) (hi b)) tr)
      as [[blk | e] tr1] eqn:Elook;
      apply getBlockByTag_fetches in Elook as [Hcount1 Hext1].
    + destruct (@narrow_before_shrinks targetTs (ts blk) b Hlt) as (Hw & Hlo & Hne & Hhi).
      destruct (IH (narrow_before targetTs (ts blk) b) tr1)
        as (c & tr' & -> & Hcount & Hext & Hend); [lia |].
      exists c, tr'. split; [reflexivity |]. split; [nia |].
      split; [eapply extends_trans; eassumption |].
      intros b' Hc _. destruct (Hend b' Hc Hne) as [Heq Hin]. lia.
    + do 2 eexists. split; [reflexivity |].
      assert (0 < width b)%nat by (unfold width; lia).
      split; [nia |]. split; [assumption |]. discriminate.
  - do 2 eexists. split; [reflexivity |]. split; [lia |].
    split; [auto with trace |]. intros b' [= <-] Hle. lia.
Qed.

End ResolverFacts.



(** ** The first block at or after a timestamp *)

Section AtOrAfter.

Variable net : Network.
Variable endpoint : string.
Variable c : Chain.
Hypothesis Hserves : serves net endpoint c.
Hypothesis Hmono : monotonic c.
Variable targetTs : Z.

(** The loop keeps: every block before [lo] is too early, block [hi] is
    not. *)
Lemma findBlockAtOrAfter_loop_least : forall (n : nat) b tr,
  (width b <= n)%nat ->
  earliest c <= lo b -> lo b <= hi b -> hi b <= latest c ->
  (forall m, earliest c <= m < lo b -> stamp c m < targetTs) ->
  targetTs <= stamp c (hi b) ->
  exists b' tr',
    findBlockAtOrAfter_loop net endpoint targetTs b tr = (Ok b', tr') /\
    lo b' = hi b' /\ lo b <= lo b' <= hi b /\
    targetTs <= stamp c (lo b') /\
    (forall m, earliest c <= m < lo b' -> stamp c m < targetTs).
Proof.
  destruct Hserves as (_ & _ & Hlookup).
  induction n as [| n IH]; intros b tr Hn Hlo Hne Hhi Hbefore Hat;
    rewrite findBlockAtOrAfter_loop_while;
    destruct (Z.ltb_spec (lo b) (hi b)) as [Hlt | Hge].
  - unfold width in Hn. lia.
  - assert (lo b = hi b) as Heq by lia.
    exists b, tr. repeat split; try assumption; try lia.
    rewrite Heq. assumption.
  - pose proof (lower_mid_bounds Hlt) as Hmid.
    destruct (Hlookup (lower_mid (lo b) (hi b)) tr) as (tr1 & ->); [lia |].
    destruct (@narrow_after_shrinks targetTs (ts (blockOf c (lower_mid (lo b) (hi b)))) b Hlt)
      as (Hw & Hlo' & Hne' & Hhi').
    destruct (IH (narrow_after targetTs (ts (blockOf c (lower_mid (lo b) (hi b)))) b) tr1)
      as (b' & tr' & -> & Heq & Hin & Hat' & Hbefore'); try lia.
    + unfold narrow_after. simpl ts.
      destruct (Z.geb_spec (stamp c (lower_mid (lo b) (hi b))) targetTs) as [Hts | Hts];
        simpl; intros m Hm.
      * apply Hbefore. lia.
      * destruct (Z_lt_dec m (lo b)) as [Hm' | Hm']; [apply Hbefore; lia |].
        assert (stamp c m <= stamp c (lower_mid (lo b) (hi b)))
          by (apply Hmono; lia).
        lia.
    + unfold narrow_after. simpl ts.
      destruct (Z.geb_spec (stamp c (lower_mid (lo b) (hi b))) targetTs) as [Hts | Hts];
        simpl; lia.
    + exists b', tr'. repeat split; try assumption; lia.
  - assert (lo b = hi b) as Heq by lia.
    exists b, tr. repeat split; try assumption; try lia.
    rewrite Heq. assumption.
Qed.

End AtOrAfter.


(** An endpoint that answers at once serves its chain, and so does one that
    rate-limits every other request, thanks to the retries. *)
Lemma reliable_serves (c : Chain) logs (endpoint : string) :
  serves (reliable c logs) endpoint c.
Proof.
  repeat split; intros; eexists; reflexivity.
Qed.

Lemma throttled_lookup (c : Chain) logs (endpoint : string) (tag : BlockTag) tr :
  exists tr',
    getBlockByTag (throttled c logs) endpoint tag tr =
    (Ok (blockOf c match tag with
                   | Earliest => earliest c
                   | Latest => latest c
                   | BlockHex n => n
                   end), tr').
Proof.
  unfold getBlockByTag, bind, rpc, DEFAULT_ATTEMPTS.
  set (payload := SingleRequest {| id := 1; call := eth_getBlockByNumber tag false |}).
  set (req := {| url := endpoint; body := payload |}).
  assert (Hgood : forall k : nat, Nat.even k = false ->
            accepted (answerBlock (throttled c logs) k req)
                     (SingleReply {| error := None;
                                     result := Some {| number := match tag with
                                                                 | Earliest => earliest c
                                                                 | Latest => latest c
                                                                 | BlockHex n => n
                                                                 end;
                                                       timestamp := stamp c match tag with
                                                                 | Earliest => earliest c
                                                                 | Latest => latest c
                                                                 | BlockHex n => n
                                                                 end |} |})).
  { intros k Hk. simpl. rewrite Hk. exists 200. repeat split; try lia. }
  assert (Hbad : forall k : nat, Nat.even k = true ->
            transient (answerBlock (throttled c logs) k req)).
  { intros k Hk. simpl. rewrite Hk. apply transient_429. }
  destruct (Nat.even (fetchCount tr)) eqn:Hpar.
  - destruct (@rpc_loop_retries _ (answerBlock (throttled c logs)) endpoint
                payload 4 0 None tr (Hbad _ Hpar)) as (e & ->).
    assert (Hnext : Nat.even (fetchCount (tr ++ [Fetched req; Backoff 0])) = false)
      by (rewrite fetchCount_retry, Nat.even_succ, <- Nat.negb_even, Hpar; reflexivity).
    rewrite (@rpc_loop_returns _ _ _ _ _ _ _ _ _ (Hgood _ Hnext)).
    eexists; reflexivity.
  - rewrite (@rpc_loop_returns _ _ _ _ _ _ _ _ _ (Hgood _ Hpar)).
    eexists; reflexivity.
Qed.

Lemma throttled_serves (c : Chain) logs (endpoint : string) :
  serves (throttled c logs) endpoint c.
Proof.
  repeat split; intros.
  - apply (throttled_lookup c logs endpoint Earliest).
  - apply (throttled_lookup c logs endpoint Latest).
  - apply (throttled_lookup c logs endpoint (BlockHex n)).
Qed.


(** ** The last block at or before a timestamp *)

Section AtOrBefore.

Variable net : Network.
Variable endpoint : string.
Variable c : Chain.
Hypothesis Hserves : serves net endpoint c.
Hypothesis Hmono : monotonic c.
Variable targetTs : Z.

(** The loop keeps: block [lo] is not too late, every block after [hi] is. *)
Lemma findBlockAtOrBefore_loop_greatest : forall (n : nat) b tr,
  (width b <= n)%nat ->
  earliest c <= lo b -> lo b <= hi b -> hi b <= latest c ->
  stamp c (lo b) <= targetTs ->
  (forall m, hi b < m <= latest c -> targetTs < stamp c m) ->
  exists b' tr',
    findBlockAtOrBefore_loop net endpoint targetTs b tr = (Ok b', tr') /\
    lo b' = hi b' /\ lo b <= lo b' <= hi b /\
    stamp c (lo b') <= targetTs /\
    (forall m, lo b' < m <= latest c -> targetTs < stamp c m).
Proof.
  destruct Hserves as (_ & _ & Hlookup).
  induction n as [| n IH]; intros b tr Hn Hlo Hne Hhi Hat Hafter;
    rewrite findBlockAtOrBefore_loop_while;
    destruct (Z.ltb_spec (lo b) (hi b)) as [Hlt | Hge].
  - unfold width in Hn. lia.
  - assert (lo b = hi b) as Heq by lia.
    exists b, tr. repeat split; try assumption; try lia.
    intros m Hm. apply Hafter. lia.
  - pose proof (upper_mid_bounds Hlt) as Hmid.
    destruct (Hlookup (upper_mid (lo b) (hi b)) tr) as (tr1 & ->); [lia |].
    destruct (@narrow_before_shrinks targetTs (ts (blockOf c (upper_mid (lo b) (hi b)))) b Hlt)
      as (Hw & Hlo' & Hne' & Hhi').
    destruct (IH (narrow_before targetTs (ts (blockOf c (upper_mid (lo b) (hi b)))) b) tr1)
      as (b' & tr' & -> & Heq & Hin & Hat' & Hafter'); try lia.
    + unfold narrow_before. simpl ts.
      destruct (Z.leb_spec (stamp c (upper_mid (lo b) (hi b))) targetTs); simpl; lia.
    + unfold narrow_before. simpl ts.
      destruct (Z.leb_spec (stamp c (upper_mid (lo b) (hi b))) targetTs) as [Hts | Hts];
        simpl; intros m Hm.
      * apply Hafter. lia.
      * destruct (Z_lt_dec (hi b) m) as [Hm' | Hm']; [apply Hafter; lia |].
        assert (stamp c (upper_mid (lo b) (hi b)) <= stamp c m)
          by (apply Hmono; lia).
        lia.
    + exists b', tr'. repeat split; try assumption; lia.
  - assert (lo b = hi b) as Heq by lia.
    exists b, tr. repeat split; try assumption; try lia.
    intros m Hm. apply Hafter. lia.
Qed.

End AtOrBefore.



(** ** Maps in insertion order *)

Section JsMapFacts.

Variable V : Type.
Implicit Types (m : JsMap V) (k key : string) (v : V).

Lemma map_get_set key k v m :
  map_get k (map_set key v m) = if String.eqb key k then Some v else map_get k m.
Proof.
  induction m as [| [k0 v0] m IH]; simpl.
  - reflexivity.
  - destruct (String.eqb_spec k0 key) as [-> | Hne]; simpl.
    + destruct (String.eqb_spec key k); reflexivity.
    + rewrite IH. destruct (String.eqb_spec k0 k) as [-> | Hne'].
      * destruct (String.eqb_spec key k); [congruence | reflexivity].
      * reflexivity.
Qed.

Lemma map_get_in_keys k m : map_get k m <> None <-> In k (map_keys m).
Proof.
  induction m as [| [k0 v0] m IH]; simpl.
  - split; [congruence | tauto].
  - destruct (String.eqb_spec k0 k) as [-> | Hne].
    + split; [auto | discriminate].
    + rewrite IH. split; [auto | intros [H | H]; [congruence | assumption]].
Qed.

(** Setting a key that is present keeps the order of the keys. *)
Lemma map_set_keys_present key v m :
  In key (map_keys m) -> map_keys (map_set key v m) = map_keys m.
Proof.
  induction m as [| [k0 v0] m IH]; simpl; [tauto |].
  intros Hin. destruct (String.eqb_spec k0 key) as [-> | Hne]; simpl.
  - reflexivity.
  - f_equal. apply IH. destruct Hin; [congruence | assumption].
Qed.

(** Setting a new key appends it. *)
Lemma map_set_new key v m :
  ~ In key (map_keys m) -> map_set key v m = m ++ [(key, v)].
Proof.
  induction m as [| [k0 v0] m IH]; simpl; [reflexivity |].
  intros Hnot. destruct (String.eqb_spec k0 key) as [-> | Hne].
  - tauto.
  - f_equal. apply IH. tauto.
Qed.

Lemma map_keys_app m1 m2 : map_keys (m1 ++ m2) = map_keys m1 ++ map_keys m2.
Proof. apply map_app. Qed.

Lemma map_set_keys_NoDup key v m :
  NoDup (map_keys m) -> NoDup (map_keys (map_set key v m)).
Proof.
  intros Hnd. destruct (in_dec string_dec key (map_keys m)) as [Hin | Hnot].
  - rewrite map_set_keys_present; assumption.
  - rewrite map_set_new, map_keys_app by assumption. simpl.
    apply NoDup_app; [assumption | repeat constructor; tauto |].
    intros x Hx [<- | []]. tauto.
Qed.

(** Two maps with the same keys in the same order and the same value at
    each key are the same map. *)
Lemma JsMap_ext m1 : forall m2,
  map_keys m1 = map_keys m2 ->
  NoDup (map_keys m1) ->
  (forall k, map_get k m1 = map_get k m2) ->
  m1 = m2.
Proof.
  induction m1 as [| [k1 v1] m1 IH]; intros [| [k2 v2] m2] Hkeys Hnd Hget;
    try discriminate; [reflexivity |].
  simpl in Hkeys. injection Hkeys as <- Hkeys.
  inversion Hnd as [| ? ? Hnot Hnd']; subst.
  pose proof (Hget k1) as Hk. simpl in Hk. rewrite String.eqb_refl in Hk.
  injection Hk as <-. f_equal. apply IH; [assumption | assumption |].
  intros k. specialize (Hget k). simpl in Hget.
  destruct (String.eqb_spec k1 k) as [Heq | Hne]; [subst k | assumption].
  assert (H1 : map_get k1 m1 = None).
  { destruct (map_get k1 m1) eqn:E; [| reflexivity].
    exfalso. apply Hnot. apply map_get_in_keys. congruence. }
  assert (H2 : map_get k1 m2 = None).
  { destruct (map_get k1 m2) eqn:E; [| reflexivity].
    exfalso. apply Hnot. rewrite Hkeys. apply map_get_in_keys. congruence. }
  congruence.
Qed.

Lemma map_get_values k v m : map_get k m = Some v -> In v (map_values m).
Proof.
  induction m as [| [k0 v0] m IH]; simpl; [discriminate |].
  destruct (String.eqb k0 k); [intros [= ->]; auto | auto].
Qed.

Lemma map_values_get v m :
  In v (map_values m) -> exists k, In (k, v) m.
Proof.
  unfold map_values. rewrite in_map_iff. intros [[k v'] [Hv Hin]].
  simpl in Hv. subst. exists k. assumption.
Qed.

Lemma map_in_get k v m : NoDup (map_keys m) -> In (k, v) m -> map_get k m = Some v.
Proof.
  induction m as [| [k0 v0] m IH]; simpl; [tauto |].
  intros Hnd [[= -> ->] | Hin].
  - rewrite String.eqb_refl. reflexivity.
  - inversion Hnd as [| ? ? Hnot Hnd']; subst.
    destruct (String.eqb_spec k0 k) as [-> | Hne].
    + exfalso. apply Hnot. apply (in_map fst) in Hin. exact Hin.
    + apply IH; assumption.
Qed.

End JsMapFacts.

(** ** Deduplication of raw logs *)

Lemma decimal_digits (d : Decimal.uint) :
  ~ occurs "-" (DecimalString.NilEmpty.string_of_uint d).
Proof.
  induction d; simpl; intros H; try (destruct H as [H | H]; [discriminate | auto]); auto.
Qed.

Lemma decimal_inj (n1 n2 : N) : decimal n1 = decimal n2 -> n1 = n2.
Proof.
  unfold decimal. intros H. apply DecimalN.Unsigned.to_uint_inj.
  pose proof (DecimalString.NilEmpty.usu (N.to_uint n1)) as H1.
  pose proof (DecimalString.NilEmpty.usu (N.to_uint n2)) as H2.
  rewrite H in H1. congruence.
Qed.

Lemma occurs_append c (s1 s2 : string) :
  occurs c (s1 ++ String c s2)%string.
Proof. induction s1; simpl; auto. Qed.

(** The last ["-"] of a key separates the hash from the index. *)
Lemma key_split (h1 : string) : forall (h2 d1 d2 : string),
  ~ occurs "-" d1 -> ~ occurs "-" d2 ->
  (h1 ++ "-" ++ d1 = h2 ++ "-" ++ d2)%string ->
  h1 = h2 /\ d1 = d2.
Proof.
  induction h1 as [| c h1 IH]; intros [| c2 h2] d1 d2 Hd1 Hd2 Heq; simpl in Heq.
  - injection Heq as ->. auto.
  - injection Heq as <- ->. exfalso. apply Hd1. apply occurs_append.
  - injection Heq as -> <-. exfalso. apply Hd2. apply occurs_append.
  - injection Heq as -> Heq. apply IH in Heq as [-> ->]; auto.
Qed.

Lemma keyOf_inj (k1 k2 : string * N) : keyOf k1 = keyOf k2 -> k1 = k2.
Proof.
  destruct k1 as [h1 n1], k2 as [h2 n2]. unfold keyOf. simpl fst; simpl snd.
  intros H. apply key_split in H as [-> H]; try apply decimal_digits.
  apply decimal_inj in H. congruence.
Qed.

Lemma logKey_keyOf (log : RawLog) : logKey log = keyOf (logIdentity log).
Proof. reflexivity. Qed.

(** Two entries have the same key string exactly when they have the same
    transaction hash and log index. *)
Lemma logKey_inj (a b : RawLog) : logKey a = logKey b <-> logIdentity a = logIdentity b.
Proof.
  rewrite !logKey_keyOf. split; [apply keyOf_inj | congruence].
Qed.

Lemma has_identity_key (a b : RawLog) :
  has_identity (logIdentity a) b = String.eqb (logKey b) (logKey a).
Proof.
  unfold has_identity, logIdentity. simpl.
  destruct (String.eqb_spec (logKey b) (logKey a)) as [Heq | Hne].
  - apply logKey_inj in Heq. injection Heq as -> ->.
    rewrite String.eqb_refl, N.eqb_refl. reflexivity.
  - destruct (String.eqb_spec (transactionHash a) (transactionHash b)) as [E1 | E1];
      [| reflexivity].
    destruct (N.eqb_spec (logIndex a) (logIndex b)) as [E2 | E2]; [| reflexivity].
    exfalso. apply Hne. apply logKey_inj. unfold logIdentity. congruence.
Qed.

Lemma last_where_ext (A : Type) (p q : A -> bool) (l : list A) :
  (forall x, In x l -> p x = q x) -> last_where p l = last_where q l.
Proof.
  induction l as [| x l IH]; simpl; intros H; [reflexivity |].
  rewrite IH by auto. rewrite (H x) by auto. reflexivity.
Qed.

Lemma last_where_some (A : Type) (p : A -> bool) (l : list A) y :
  last_where p l = Some y -> In y l /\ p y = true.
Proof.
  induction l as [| x l IH]; simpl; [discriminate |].
  destruct (last_where p l) as [z |].
  - intros [= ->]. destruct IH as [Hin Hp]; auto.
  - destruct (p x) eqn:E; [intros [= <-]; auto | discriminate].
Qed.

Lemma last_where_none (A : Type) (p : A -> bool) (l : list A) :
  last_where p l = None -> forall x, In x l -> p x = false.
Proof.
  induction l as [| x l IH]; simpl; [tauto |].
  destruct (last_where p l) as [z |]; [discriminate |].
  destruct (p x) eqn:E; [discriminate |].
  intros _ y [<- | Hin]; auto.
Qed.

Section Dedupe.

Implicit Types (uniq : JsMap RawLog) (logs : list RawLog).

(** What the map holds at a key after the loop: the last entry of the
    sequence with that key, or what it held before. *)
Lemma collectUnique_get logs : forall uniq k,
  map_get k (collectUnique uniq logs) =
  match last_where (fun log => String.eqb (logKey log) k) logs with
  | Some log => Some log
  | None => map_get k uniq
  end.
Proof.
  induction logs as [| x logs IH]; intros uniq k; simpl; [reflexivity |].
  unfold collectUnique in *. simpl. rewrite IH.
  destruct (last_where _ logs); [reflexivity |].
  rewrite map_get_set. destruct (String.eqb (logKey x) k); reflexivity.
Qed.

Lemma collectUnique_NoDup logs : forall uniq,
  NoDup (map_keys uniq) -> NoDup (map_keys (collectUnique uniq logs)).
Proof.
  induction logs as [| x logs IH]; intros uniq Hnd; [assumption |].
  apply IH. apply map_set_keys_NoDup. assumption.
Qed.

Lemma map_set_filed uniq log : filed uniq -> filed (map_set (logKey log) log uniq).
Proof.
  induction uniq as [| [k0 v0] uniq IH]; simpl; intros Hf k v.
  - intros [[= <- <-] | []]. reflexivity.
  - destruct (String.eqb_spec k0 (logKey log)) as [-> | Hne]; simpl.
    + intros [[= <- <-] | Hin]; [reflexivity | apply Hf; simpl; auto].
    + intros [[= <- <-] | Hin]; [apply Hf; simpl; auto |].
      apply IH; [| assumption]. intros k' v' Hin'. apply Hf. simpl. auto.
Qed.

Lemma collectUnique_filed logs : forall uniq, filed uniq -> filed (collectUnique uniq logs).
Proof.
  induction logs as [| x logs IH]; intros uniq Hf; [assumption |].
  apply IH. apply map_set_filed. assumption.
Qed.

(** Entries whose keys are all present leave the order of the keys alone. *)
Lemma collectUnique_keys_present logs : forall uniq,
  (forall log, In log logs -> In (logKey log) (map_keys uniq)) ->
  map_keys (collectUnique uniq logs) = map_keys uniq.
Proof.
  induction logs as [| x logs IH]; intros uniq Hin; [reflexivity |].
  unfold collectUnique in *. simpl. rewrite IH.
  - apply map_set_keys_present. apply Hin. simpl. auto.
  - intros log Hlog. rewrite map_set_keys_present by (apply Hin; simpl; auto).
    apply Hin. simpl. auto.
Qed.

(** Entries with fresh, pairwise distinct keys are appended in order. *)
Lemma collectUnique_fresh logs : forall uniq,
  NoDup (map logKey logs) ->
  (forall log, In log logs -> ~ In (logKey log) (map_keys uniq)) ->
  collectUnique uniq logs = uniq ++ map (fun log => (logKey log, log)) logs.
Proof.
  induction logs as [| x logs IH]; intros uniq Hnd Hfresh; simpl.
  - rewrite app_nil_r. reflexivity.
  - inversion Hnd as [| ? ? Hnot Hnd']; subst.
    unfold collectUnique in *. simpl.
    rewrite map_set_new by (apply Hfresh; simpl; auto).
    rewrite IH; [rewrite <- app_assoc; reflexivity | assumption |].
    intros log Hlog. rewrite map_keys_app. simpl. intros Hin.
    apply in_app_or in Hin as [Hin | [Hin | []]].
    + apply (Hfresh log); simpl; auto.
    + apply Hnot. rewrite Hin. apply in_map. assumption.
Qed.

Lemma dedupe_keys logs : map logKey (dedupe logs) = map_keys (collectUnique [] logs).
Proof.
  unfold dedupe, map_values, map_keys. rewrite map_map.
  apply map_ext_in. intros [k log] Hin. simpl.
  symmetry. eapply collectUnique_filed; [| exact Hin]. intros ? ? [].
Qed.

Lemma dedupe_NoDup logs : NoDup (map logKey (dedupe logs)).
Proof. rewrite dedupe_keys. apply collectUnique_NoDup. constructor. Qed.

Lemma dedupe_In logs kept :
  In kept (dedupe logs) <-> last_with (logIdentity kept) logs = Some kept.
Proof.
  unfold last_with.
  rewrite (last_where_ext _ (fun log => String.eqb (logKey log) (logKey kept)))
    by (intros; apply has_identity_key).
  pose proof (collectUnique_get logs [] (logKey kept)) as Hget. simpl in Hget.
  split.
  - intros Hin. apply map_values_get in Hin as [k Hin].
    assert (k = logKey kept) as ->
      by (eapply collectUnique_filed; [| exact Hin]; intros ? ? []).
    apply map_in_get in Hin; [| apply collectUnique_NoDup; constructor].
    rewrite Hin in Hget. destruct (last_where _ logs); congruence.
  - intros Hlast. rewrite Hlast in Hget. eapply map_get_values. exact Hget.
Qed.

Lemma dedupe_fixpoint logs : NoDup (map logKey logs) -> dedupe logs = logs.
Proof.
  intros Hnd. unfold dedupe. rewrite collectUnique_fresh; [| assumption | auto].
  simpl. unfold map_values. rewrite map_map. simpl. apply map_id.
Qed.

Lemma dedupe_twice logs : dedupe (logs ++ logs) = dedupe logs.
Proof.
  unfold dedupe. f_equal. unfold collectUnique at 1. rewrite fold_left_app.
  fold (collectUnique [] logs). fold (collectUnique (collectUnique [] logs) logs).
  assert (Hkeys : map_keys (collectUnique (collectUnique [] logs) logs) =
                  map_keys (collectUnique [] logs)).
  { apply collectUnique_keys_present. intros log Hlog.
    apply map_get_in_keys. rewrite collectUnique_get.
    destruct (last_where _ logs) eqn:E; [discriminate |].
    apply last_where_none with (x := log) in E; [| assumption].
    rewrite String.eqb_refl in E. discriminate. }
  apply JsMap_ext.
  - assumption.
  - rewrite Hkeys. apply collectUnique_NoDup. constructor.
  - intros k. rewrite !collectUnique_get.
    destruct (last_where _ logs); reflexivity.
Qed.

End Dedupe.


(** ** Event decoder *)

Section DecoderFacts.

Variable parseLog : list string -> string -> ParseOutcome.

Lemma filterBoolean_app (A : Type) (l1 l2 : list (option A)) :
  filterBoolean (l1 ++ l2) = filterBoolean l1 ++ filterBoolean l2.
Proof.
  induction l1 as [| [x |] l1 IH]; simpl; [reflexivity | rewrite IH; reflexivity | exact IH].
Qed.

Lemma decodeAll_app (l1 l2 : list RawLog) :
  decodeAll parseLog (l1 ++ l2) = decodeAll parseLog l1 ++ decodeAll parseLog l2.
Proof. unfold decodeAll. rewrite map_app. apply filterBoolean_app. Qed.

Lemma decodeAll_cons (entry : RawLog) (rest : list RawLog) :
  decodeAll parseLog (entry :: rest) =
  match decodeGameResult parseLog entry with
  | Some row => row :: decodeAll parseLog rest
  | None => decodeAll parseLog rest
  end.
Proof. unfold decodeAll. simpl. destruct (decodeGameResult parseLog entry); reflexivity. Qed.

(** An entry is decoded exactly when [parseLog] returns an event for it. *)
Lemma decodeGameResult_absent (entry : RawLog) :
  decodeGameResult parseLog entry = None <->
  parseLog (topics entry) (data entry) = ParseThrows \/
  parseLog (topics entry) (data entry) = ParseNull.
Proof.
  unfold decodeGameResult.
  destruct (parseLog (topics entry) (data entry)); split; intros H;
    try discriminate; auto; destruct H; discriminate.
Qed.

(** The rows are in the order of the entries they come from. *)
Lemma decodeAll_In (logs : list RawLog) (row : Row) :
  In row (decodeAll parseLog logs) <->
  exists entry, In entry logs /\ decodeGameResult parseLog entry = Some row.
Proof.
  induction logs as [| entry logs IH]; [simpl; split; [tauto | intros (e & [] & _)] |].
  rewrite decodeAll_cons. destruct (decodeGameResult parseLog entry) as [r |] eqn:E.
  - simpl. rewrite IH. split.
    + intros [<- | (e & Hin & He)]; [exists entry; auto | exists e; auto].
    + intros (e & [<- | Hin] & He); [left; congruence | right; exists e; auto].
  - rewrite IH. split.
    + intros (e & Hin & He). exists e. simpl. auto.
    + intros (e & [<- | Hin] & He); [congruence | exists e; auto].
Qed.

(** The handler decodes whatever it has acquired: its rows are those of
    [decodeAll], and whether it answers with rows or with a failure does not
    depend on the decoder. *)
Lemma run_decodes (net : Network) (req : Api.Request) (tr : Trace) :
  Api.run net parseLog req tr =
  match Api.acquire net req tr with
  | (Ok logs, tr') => (Ok (Api.Rows (decodeAll parseLog logs)), tr')
  | (Throw e, tr') => (Throw e, tr')
  end.
Proof.
  unfold Api.run, Api.acquire, bind.
  destruct (Api.resolveRange net _ req tr) as [[[fromBlock toBlock] | e] tr1];
    [| reflexivity].
  destruct (toBlock <? fromBlock); [reflexivity |].
  destruct (Api.fetchLogs_loop net _ _ _ 0 [] tr1) as [[allLogs | e] tr2]; reflexivity.
Qed.

End DecoderFacts.



(** ** Aggregator *)

Section AggregatorFacts.

Variable player : string.

Lemma count_where_filter (p : Row -> bool) (holds : Row -> Prop)
      (dec : forall r, {holds r} + {~ holds r}) (rows : list Row) :
  (forall r, p r = true <-> holds r) ->
  List.length (filter p rows) = count_where holds dec rows.
Proof.
  intros Hp. induction rows as [| r rows IH]; simpl; [reflexivity |].
  destruct (dec r) as [Hr | Hr]; destruct (p r) eqn:E; simpl.
  - rewrite IH. reflexivity.
  - apply Hp in Hr. congruence.
  - apply Hp in E. contradiction.
  - exact IH.
Qed.

Lemma wins_app (l1 l2 : list Row) :
  wins (stats (l1 ++ l2) player) = (wins (stats l1 player) + wins (stats l2 player))%nat.
Proof. unfold stats. simpl. rewrite filter_app, length_app. reflexivity. Qed.

Lemma losses_app (l1 l2 : list Row) :
  losses (stats (l1 ++ l2) player) =
  (losses (stats l1 player) + losses (stats l2 player))%nat.
Proof. unfold stats. simpl. rewrite filter_app, length_app. reflexivity. Qed.

Lemma total_wins_losses (rows : list Row) :
  total (stats rows player) = (wins (stats rows player) + losses (stats rows player))%nat.
Proof. reflexivity. Qed.

Lemma filtered_app (l1 l2 : list Row) :
  filtered (l1 ++ l2) player = filtered l1 player ++ filtered l2 player.
Proof. unfold filtered. rewrite filter_app, map_app. reflexivity. Qed.

End AggregatorFacts.


(** The example of the specification: three matches, player ["alice"]. *)
Lemma stats_example :
  let match_ (w l : string) :=
    {| blockNumber := 0; txHash := ""; gameNumber := 0; gameId := ""; startedAt := "";
       winningPlayer := w; winningClasses := ""; losingPlayer := l; losingClasses := "";
       gameLength := ""; endReason := "" |} in
  let rows := [match_ "Alice" "Bob"; match_ "Bob" " ALICE "; match_ "Alice" "Carol"] in
  stats rows "alice" = {| wins := 2; losses := 1; total := 3; winrate := (2 # 3)%Q |} /\
  stats rows "Dave" = {| wins := 0; losses := 0; total := 0; winrate := 0%Q |}.
Proof. split; reflexivity. Qed.

(** C10.  A record whose normalized winner and normalized loser both equal
    the normalized player name counts once in [wins] and once in [losses],
    hence twice in [total], while the player's match view holds it exactly
    once, with result [W] and the record's loser, the player themself, as
    opponent. *)
Theorem self_match_counted_twice (before after : list Row) (r : Row) (player : string) :
  normalize (winningPlayer r) = normalize player ->
  normalize (losingPlayer r) = normalize player ->
  let rows := before ++ r :: after in
  let others := before ++ after in
  wins (stats rows player) = S (wins (stats others player)) /\
  losses (stats rows player) = S (losses (stats others player)) /\
  total (stats rows player) = (2 + total (stats others player))%nat /\
  filtered rows player =
    filtered before player ++
    {| View.row := r; View.result := W; View.opponent := losingPlayer r |}
      :: filtered after player /\
  normalize (losingPlayer r) = normalize player.
Proof.
  intros Hw Hl rows others. subst rows others.
  assert (Hwins : wins (stats [r] player) = 1%nat)
    by (unfold stats; simpl; rewrite Hw, String.eqb_refl; reflexivity).
  assert (Hlosses : losses (stats [r] player) = 1%nat)
    by (unfold stats; simpl; rewrite Hl, String.eqb_refl; reflexivity).
  change (r :: after) with ([r] ++ after).
  repeat split.
  - rewrite !wins_app, Hwins. lia.
  - rewrite !losses_app, Hlosses. lia.
  - rewrite !total_wins_losses, !wins_app, !losses_app, Hwins, Hlosses. lia.
  - rewrite !filtered_app. f_equal.
    assert (Hview : filtered [r] player =
                    [{| View.row := r; View.result := W; View.opponent := losingPlayer r |}]).
    { unfold filtered. cbn [filter].
      rewrite Hw, String.eqb_refl. cbn [orb map].
      rewrite Hw, String.eqb_refl. reflexivity. }
    rewrite Hview. reflexivity.
  - assumption.
Qed.

Lemma self_match_counted_twice_witness :
  let r := {| blockNumber := 7; txHash := "0x01"; gameNumber := 1; gameId := "g";
              startedAt := ""; winningPlayer := "Alice"; winningClasses := "";
              losingPlayer := " alice"; losingClasses := ""; gameLength := "";
              endReason := "" |} in
  wins (stats [r] "ALICE ") = 1%nat /\
  losses (stats [r] "ALICE ") = 1%nat /\
  total (stats [r] "ALICE ") = 2%nat /\
  filtered [r] "ALICE " =
    [{| View.row := r; View.result := W; View.opponent := " alice" |}] /\
  normalize " alice" = normalize "ALICE ".
Proof.
  intros r.
  apply (@self_match_counted_twice [] [] r "ALICE "); reflexivity.
Defined.

(** ** Resolution sends no log query *)

Lemma no_logs_fetched_refl tr : no_logs_fetched tr tr.
Proof. exists []. rewrite app_nil_r. auto. Qed.

Lemma no_logs_fetched_trans tr1 tr2 tr3 :
  no_logs_fetched tr1 tr2 -> no_logs_fetched tr2 tr3 -> no_logs_fetched tr1 tr3.
Proof.
  intros (e1 & -> & H1) (e2 & -> & H2). exists (e1 ++ e2).
  rewrite app_assoc, filter_app, H1, H2. auto.
Qed.

Lemma no_logs_fetched_filter tr tr' :
  no_logs_fetched tr tr' -> filter fetchesLogs tr' = filter fetchesLogs tr.
Proof. intros (evs & -> & H). rewrite filter_app, H, app_nil_r. reflexivity. Qed.

Lemma quiet_ret (A : Type) (a : A) : quiet (ret a).
Proof. intros tr c tr' [= <- <-]. apply no_logs_fetched_refl. Qed.

Lemma quiet_throw (A : Type) (e : Error) : quiet (@throw A e).
Proof. intros tr c tr' [= <- <-]. apply no_logs_fetched_refl. Qed.

Lemma quiet_bind (A B : Type) (m : M A) (k : A -> M B) :
  quiet m -> (forall a, quiet (k a)) -> quiet (bind m k).
Proof.
  intros Hm Hk tr c tr'. unfold bind.
  destruct (m tr) as [[a | e] tr1] eqn:E; intros Hrun.
  - eapply no_logs_fetched_trans; [eapply Hm; exact E | eapply Hk; exact Hrun].
  - injection Hrun as <- <-. eapply Hm; exact E.
Qed.

Lemma quiet_tryCatch (A : Type) (m : M A) (h : Error -> M A) :
  quiet m -> (forall e, quiet (h e)) -> quiet (tryCatch m h).
Proof.
  intros Hm Hh tr c tr'. unfold tryCatch.
  destruct (m tr) as [[a | e] tr1] eqn:E; intros Hrun.
  - injection Hrun as <- <-. eapply Hm; exact E.
  - eapply no_logs_fetched_trans; [eapply Hm; exact E | eapply Hh; exact Hrun].
Qed.

Lemma quiet_emit (ev : Event) : fetchesLogs ev = false -> quiet (emit ev).
Proof.
  intros Hev tr c tr' [= <- <-]. exists [ev]. split; [reflexivity |].
  simpl. rewrite Hev. reflexivity.
Qed.

#[local] Hint Resolve quiet_ret quiet_throw quiet_bind quiet_tryCatch quiet_emit : trace.

Section QuietResolution.

Variable net : Network.

Lemma rpc_loop_quiet (P : Type) (answer : nat -> HttpRequest -> FetchOutcome P)
      (endpoint : string) (payload : RequestBody) :
  fetchesLogs (Fetched {| url := endpoint; body := payload |}) = false ->
  forall remaining i lastErr, quiet (rpc_loop answer endpoint payload remaining i lastErr).
Proof.
  intros Hreq. induction remaining as [| n IH]; intros i lastErr; simpl.
  - apply quiet_throw.
  - apply quiet_tryCatch.
    + unfold rpc_attempt. apply quiet_bind.
      * intros tr c tr' [= <- <-]. eexists. split; [reflexivity |].
        cbn [filter]. rewrite Hreq. reflexivity.
      * intros [reason | status [[j | items] |]]; auto with trace;
          repeat match goal with
                 | |- quiet (if ?b then _ else _) => destruct b
                 | |- quiet (match ?o with Some _ => _ | None => _ end) => destruct o
                 end; auto with trace.
    + intros e. apply quiet_bind; [apply quiet_emit; reflexivity | intros _; apply IH].
Qed.

Lemma getBlockByTag_quiet endpoint tag : quiet (getBlockByTag net endpoint tag).
Proof.
  unfold getBlockByTag. apply quiet_bind.
  - apply rpc_loop_quiet. reflexivity.
  - intros [r | rs]; [destruct (result r) |]; auto with trace.
Qed.

Lemma findBlockAtOrAfter_loop_quiet endpoint targetTs : forall (n : nat) b,
  (width b <= n)%nat -> quiet (findBlockAtOrAfter_loop net endpoint targetTs b).
Proof.
  induction n as [| n IH]; intros b Hn tr c tr';
    rewrite findBlockAtOrAfter_loop_while;
    destruct (Z.ltb_spec (lo b) (hi b)) as [Hlt | Hge];
    try (intros [= <- <-]; apply no_logs_fetched_refl).
  - unfold width in Hn. lia.
  - destruct (getBlockByNumber net endpoint (lower_mid (lo b) (hi b)) tr)
      as [[blk | e] tr1] eqn:E; apply getBlockByTag_quiet in E; intros Hrun.
    + eapply no_logs_fetched_trans; [exact E |].
      eapply IH; [| exact Hrun].
      destruct (@narrow_after_shrinks targetTs (ts blk) b Hlt) as [Hw _]. lia.
    + injection Hrun as <- <-. exact E.
Qed.

Lemma findBlockAtOrBefore_loop_quiet endpoint targetTs : forall (n : nat) b,
  (width b <= n)%nat -> quiet (findBlockAtOrBefore_loop net endpoint targetTs b).
Proof.
  induction n as [| n IH]; intros b Hn tr c tr';
    rewrite findBlockAtOrBefore_loop_while;
    destruct (Z.ltb_spec (lo b) (hi b)) as [Hlt | Hge];
    try (intros [= <- <-]; apply no_logs_fetched_refl).
  - unfold width in Hn. lia.
  - destruct (getBlockByNumber net endpoint (upper_mid (lo b) (hi b)) tr)
      as [[blk | e] tr1] eqn:E; apply getBlockByTag_quiet in E; intros Hrun.
    + eapply no_logs_fetched_trans; [exact E |].
      eapply IH; [| exact Hrun].
      destruct (@narrow_before_shrinks targetTs (ts blk) b Hlt) as [Hw _]. lia.
    + injection Hrun as <- <-. exact E.
Qed.

Lemma findBlockAtOrAfter_quiet endpoint targetTs :
  quiet (findBlockAtOrAfter net endpoint targetTs).
Proof.
  unfold findBlockAtOrAfter, getEarliest, getLatest.
  apply quiet_bind; [apply getBlockByTag_quiet | intros first].
  apply quiet_bind; [apply getBlockByTag_quiet | intros final].
  destruct (targetTs <=? ts first); [auto with trace |].
  destruct (targetTs >? ts final); [auto with trace |].
  apply quiet_bind; [| auto with trace].
  eapply findBlockAtOrAfter_loop_quiet. apply le_n.
Qed.

Lemma findBlockAtOrBefore_quiet endpoint targetTs :
  quiet (findBlockAtOrBefore net endpoint targetTs).
Proof.
  unfold findBlockAtOrBefore, getEarliest, getLatest.
  apply quiet_bind; [apply getBlockByTag_quiet | intros first].
  apply quiet_bind; [apply getBlockByTag_quiet | intros final].
  destruct (targetTs <? ts first); [auto with trace |].
  destruct (targetTs >=? ts final); [auto with trace |].
  apply quiet_bind; [| auto with trace].
  eapply findBlockAtOrBefore_loop_quiet. apply le_n.
Qed.

Lemma Api_resolveRange_quiet endpoint req : quiet (Api.resolveRange net endpoint req).
Proof.
  unfold Api.resolveRange, getEarliest, getLatest.
  apply quiet_bind; [apply getBlockByTag_quiet | intros first].
  apply quiet_bind; [apply getBlockByTag_quiet | intros final].
  apply quiet_bind.
  { destruct (Api.startTs req) as [t |]; [destruct (t >? 0) |];
      auto using findBlockAtOrAfter_quiet with trace. }
  intros fromBlock. apply quiet_bind; [| auto with trace].
  destruct (Api.endTs req) as [t |]; [destruct (t >? 0) |];
    auto using findBlockAtOrBefore_quiet with trace.
Qed.

Lemma App_resolveRange_quiet inp : quiet (App.resolveRange net inp).
Proof.
  unfold App.resolveRange, getEarliest, getLatest.
  apply quiet_bind; [apply getBlockByTag_quiet | intros first].
  apply quiet_bind; [apply getBlockByTag_quiet | intros final].
  apply quiet_bind.
  { destruct (App.startTs inp) as [t |]; [destruct (t =? 0) |];
      auto using findBlockAtOrAfter_quiet with trace. }
  intros fromBlock. apply quiet_bind; [| auto with trace].
  destruct (App.endTs inp) as [t |]; [destruct (t =? 0) |];
    auto using findBlockAtOrBefore_quiet with trace.
Qed.

End QuietResolution.

(** ** An empty block range *)

(** C8.  Whenever the resolution of the dates yields [toBlock < fromBlock],
    the run ends there with an empty result and no error: the handler
    answers [{ ok: true, rows: [] }], the application sets no rows and no
    error, and in both no [eth_getLogs] query has been sent. *)
Theorem empty_range_yields_no_rows
        (net : Network) (parseLog : list string -> string -> ParseOutcome) :
  (forall req tr fromBlock toBlock tr',
     Api.resolveRange net (or_default (Api.rpcIn req) DEFAULT_RPC) req tr =
       (Ok (fromBlock, toBlock), tr') ->
     toBlock < fromBlock ->
     Api.handler net parseLog req tr = (Ok (Api.Rows []), tr') /\
     filter fetchesLogs tr' = filter fetchesLogs tr) /\
  (forall inp tr fromBlock toBlock tr',
     App.resolveRange net inp (tr ++ [Progress 0 0]) = (Ok (fromBlock, toBlock), tr') ->
     toBlock < fromBlock ->
     App.handleRun net parseLog inp tr =
       (Ok {| App.rows := []; App.error := None; App.loading := false |},
        tr' ++ [Progress 1 1]) /\
     filter fetchesLogs (tr' ++ [Progress 1 1]) = filter fetchesLogs tr).
Proof.
  split.
  - intros req tr fromBlock toBlock tr' Hrange Hlt. split.
    + unfold Api.handler, Api.run, tryCatch, bind. rewrite Hrange.
      destruct (Z.ltb_spec toBlock fromBlock); [reflexivity | lia].
    + apply no_logs_fetched_filter. eapply Api_resolveRange_quiet. exact Hrange.
  - intros inp tr fromBlock toBlock tr' Hrange Hlt. split.
    + unfold App.handleRun, App.run, tryCatch, bind, emit. rewrite Hrange.
      destruct (Z.ltb_spec toBlock fromBlock); [reflexivity | lia].
    + apply App_resolveRange_quiet in Hrange.
      apply no_logs_fetched_filter in Hrange.
      rewrite filter_app, Hrange, filter_app. simpl. rewrite !app_nil_r. reflexivity.
Qed.

(** On the four-block chain, a start after the end: the range resolves to
    blocks 3 and 1. *)
Lemma empty_range_yields_no_rows_witness :
  let net := throttled Example.shortChain Example.noLogs in
  let req := {| Api.rpcIn := None; Api.addrIn := None;
                Api.startTs := Some 26; Api.endTs := Some 24 |} in
  let resolved := snd (Api.resolveRange net DEFAULT_RPC req []) in
  Api.handler net Example.aliceBeatsBob req [] = (Ok (Api.Rows []), resolved) /\
  filter fetchesLogs resolved = filter fetchesLogs [].
Proof.
  intros net req resolved.
  destruct (empty_range_yields_no_rows net Example.aliceBeatsBob) as [Hapi _].
  apply (Hapi req [] 3 1 resolved); [vm_compute; reflexivity | lia].
Defined.

(** ** Order of the rows *)

Section SortFacts.

Lemma sort_insert_at_block (n : Z) (x : Row) (sorted : list Row) :
  at_block n (sort_insert byBlockNumber x sorted) = at_block n (x :: sorted).
Proof.
  unfold at_block. induction sorted as [| y rest IH]; simpl; [reflexivity |].
  unfold byBlockNumber at 1.
  destruct (Z.leb_spec (blockNumber x - blockNumber y) 0) as [Hle | Hgt];
    [reflexivity |].
  simpl. simpl in IH. rewrite IH.
  destruct (Z.eqb_spec (blockNumber x) n), (Z.eqb_spec (blockNumber y) n);
    try reflexivity; lia.
Qed.

Lemma sort_insert_In (x y : Row) (sorted : list Row) :
  In y (sort_insert byBlockNumber x sorted) <-> y = x \/ In y sorted.
Proof.
  induction sorted as [| z rest IH]; simpl; [intuition congruence |].
  destruct (byBlockNumber x z <=? 0); simpl; [intuition congruence |].
  rewrite IH. intuition congruence.
Qed.

Lemma sort_insert_ascending (x : Row) (sorted : list Row) :
  ascending sorted -> ascending (sort_insert byBlockNumber x sorted).
Proof.
  induction sorted as [| y rest IH]; simpl; [auto |].
  intros [Hy Hrest]. unfold byBlockNumber at 1.
  destruct (Z.leb_spec (blockNumber x - blockNumber y) 0) as [Hle | Hgt]; simpl.
  - repeat split; try assumption. constructor; [lia |].
    eapply Forall_impl; [| exact Hy]. simpl. intros; lia.
  - split; [| auto]. apply Forall_forall. intros z Hz.
    apply sort_insert_In in Hz as [-> | Hz]; [lia |].
    rewrite Forall_forall in Hy. auto.
Qed.

Lemma sort_insert_length (x : Row) (sorted : list Row) :
  List.length (sort_insert byBlockNumber x sorted) = S (List.length sorted).
Proof.
  induction sorted as [| y rest IH]; simpl; [reflexivity |].
  destruct (byBlockNumber x y <=? 0); simpl; [reflexivity | rewrite IH; reflexivity].
Qed.

(** [decoded.sort(...)] puts the rows in ascending order of block and, the
    sort being stable, leaves the rows of each block in their order. *)
Lemma Array_sort_by_block (decoded : list Row) :
  ascending (Array_sort byBlockNumber decoded) /\
  (forall n, at_block n (Array_sort byBlockNumber decoded) = at_block n decoded) /\
  (forall r, In r (Array_sort byBlockNumber decoded) <-> In r decoded) /\
  List.length (Array_sort byBlockNumber decoded) = List.length decoded.
Proof.
  induction decoded as [| x rest (Hasc & Hstable & Hin & Hlen)]; simpl.
  - repeat split; auto.
  - split; [apply sort_insert_ascending; assumption |].
    split; [| split].
    + intros n. rewrite sort_insert_at_block. unfold at_block in *. simpl.
      rewrite Hstable. reflexivity.
    + intros r. rewrite sort_insert_In, Hin. intuition congruence.
    + rewrite sort_insert_length, Hlen. reflexivity.
Qed.

End SortFacts.

(** The stand-alone application presents its rows in ascending order of
    block, rows of one block in the order in which they were fetched. *)
Theorem handleRun_rows_sorted
        (net : Network) (parseLog : list string -> string -> ParseOutcome)
        (inp : App.Inputs) (tr : Trace) :
  exists state tr',
    App.handleRun net parseLog inp tr = (Ok state, tr') /\
    ascending (App.rows state) /\
    (App.error state = None ->
     forall fromBlock toBlock tr1 logs tr2,
       App.resolveRange net inp (tr ++ [Progress 0 0]) = (Ok (fromBlock, toBlock), tr1) ->
       App.fetchLogsBatched net (App.rpcUrl inp) (App.address inp) TOPIC0 fromBlock toBlock
                            (App.clampBatch (App.batchSize inp))
                            (App.clampDelay (App.delayMs inp)) tr1 = (Ok logs, tr2) ->
       fromBlock <= toBlock ->
       forall n, at_block n (App.rows state) = at_block n (decodeAll parseLog logs)).
Proof.
  unfold App.handleRun, App.run, tryCatch, bind, emit.
  destruct (App.resolveRange net inp (tr ++ [Progress 0 0]))
    as [[[fromBlock toBlock] | e] tr1] eqn:Hrange.
  - destruct (Z.ltb_spec toBlock fromBlock) as [Hlt | Hge].
    + do 2 eexists. split; [reflexivity |]. split; [exact I |].
      intros _ f t tr1' logs tr2 [= <- <- <-] _ Hle. lia.
    + destruct (App.fetchLogsBatched net _ _ _ fromBlock toBlock _ _ tr1)
        as [[logs | e] tr2] eqn:Hfetch.
      * do 2 eexists. split; [reflexivity |]. simpl.
        split; [apply Array_sort_by_block |].
        intros _ f t tr1' logs' tr2' [= <- <- <-] Hfetch' _ n.
        rewrite Hfetch in Hfetch'. injection Hfetch' as <- <-.
        apply Array_sort_by_block.
      * do 2 eexists. split; [reflexivity |]. split; [exact I | discriminate].
  - do 2 eexists. split; [reflexivity |]. split; [exact I | discriminate].
Qed.

(** C6, on the serverless handler: an endpoint that answers a batch with the
    replies in the other order makes the handler return a row of block
    120000 before a row of block 5.  The same endpoint, in the stand-alone
    application, gives the rows in ascending order. *)
Theorem handler_rows_out_of_order :
  let net := reliable Example.longChain Example.swappedReplies in
  let everything := {| Api.rpcIn := None; Api.addrIn := None;
                       Api.startTs := None; Api.endTs := None |} in
  fst (Api.handler net Example.aliceBeatsBob everything []) =
    Ok (Api.Rows [Example.rowAt "0xbb" 120000; Example.rowAt "0xaa" 5]) /\
  ~ ascending [Example.rowAt "0xbb" 120000; Example.rowAt "0xaa" 5] /\
  fst (App.handleRun net Example.aliceBeatsBob
         {| App.rpcUrl := DEFAULT_RPC; App.address := DEFAULT_CONTRACT;
            App.startTs := None; App.endTs := None;
            App.batchSize := 2; App.delayMs := 400 |} []) =
    Ok {| App.rows := [Example.rowAt "0xaa" 5; Example.rowAt "0xbb" 120000];
          App.error := None; App.loading := false |}.
Proof.
  split; [vm_compute; reflexivity |]. split; [| vm_compute; reflexivity].
  simpl. intros [H _]. inversion H; subst. simpl in *. lia.
Qed.

(** ** The number of spans *)

Section RangeCount.

Variable toBlock : Z.

Lemma buildRanges_length s :
  List.length (buildRanges s toBlock) = Z.to_nat ((toBlock - s + MAX_SPAN) / MAX_SPAN).
Proof.
  apply (@buildRanges_ind toBlock (fun s l =>
    List.length l = Z.to_nat ((toBlock - s + MAX_SPAN) / MAX_SPAN))).
  - intros s0 Hlt. simpl. unfold MAX_SPAN. Z.div_mod_to_equations. lia.
  - intros s0 Hle e IH. cbn [List.length]. rewrite IH. subst e.
    unfold MAX_SPAN. Z.div_mod_to_equations. lia.
Qed.

Lemma buildRanges_full s :
  forall i a, nth_error (buildRanges s toBlock) i = Some a ->
              (S i < List.length (buildRanges s toBlock))%nat ->
              to a = from a + MAX_SPAN - 1.
Proof.
  apply (@buildRanges_ind toBlock (fun s l =>
    forall i a, nth_error l i = Some a -> (S i < List.length l)%nat ->
                to a = from a + MAX_SPAN - 1)).
  - intros s0 _ i a Ha. destruct i; discriminate.
  - intros s0 Hle e IH i a Ha Hi. destruct i as [| i].
    + simpl in Ha. injection Ha as <-. simpl.
      destruct (Z_le_gt_dec (e + 1) toBlock) as [Hle' | Hgt'].
      * subst e. lia.
      * rewrite buildRanges_done in Hi by lia. simpl in Hi. lia.
    + simpl in Ha, Hi. apply (IH i); [assumption | lia].
Qed.

End RangeCount.


(** ** The cost of a search *)

Section SearchCost.

Variable net : Network.
Variable endpoint : string.
Variable targetTs : Z.

(** Each turn leaves at most half of the interval. *)
Lemma narrow_after_halves midTs b :
  lo b < hi b ->
  let b' := narrow_after targetTs midTs b in
  hi b' - lo b' <= (hi b - lo b) / 2.
Proof.
  intros Hlt. unfold narrow_after, lower_mid.
  destruct (midTs >=? targetTs); simpl; Z.div_mod_to_equations; lia.
Qed.

Lemma narrow_before_halves midTs b :
  lo b < hi b ->
  let b' := narrow_before targetTs midTs b in
  hi b' - lo b' <= (hi b - lo b) / 2.
Proof.
  intros Hlt. unfold narrow_before, upper_mid.
  destruct (midTs <=? targetTs); simpl; Z.div_mod_to_equations; lia.
Qed.

Lemma half_below_power (w : Z) (k : nat) :
  w < 2 ^ Z.of_nat (S k) -> w / 2 < 2 ^ Z.of_nat k.
Proof.
  rewrite Nat2Z.inj_succ, Z.pow_succ_r by lia. intros H.
  Z.div_mod_to_equations. lia.
Qed.

Lemma findBlockAtOrAfter_loop_cost : forall (k : nat) b tr,
  hi b - lo b < 2 ^ Z.of_nat k ->
  exists c tr',
    findBlockAtOrAfter_loop net endpoint targetTs b tr = (c, tr') /\
    (fetchCount tr' <= fetchCount tr + DEFAULT_ATTEMPTS * k)%nat.
Proof.
  induction k as [| k IH]; intros b tr Hk;
    rewrite findBlockAtOrAfter_loop_while;
    destruct (Z.ltb_spec (lo b) (hi b)) as [Hlt | Hge];
    try (do 2 eexists; split; [reflexivity | lia]).
  - simpl in Hk. lia.
  - destruct (getBlockByNumber net endpoint (lower_mid (lo b) (hi b)) tr)
      as [[blk | e] tr1] eqn:Elook;
      apply getBlockByTag_fetches in Elook as [Hcount1 _].
    + pose proof (@narrow_after_halves (ts blk) b Hlt) as Hhalf.
      pose proof (half_below_power _ Hk) as Hpow.
      destruct (IH (narrow_after targetTs (ts blk) b) tr1) as (c & tr' & -> & Hcount);
        [cbv zeta in Hhalf; lia |].
      exists c, tr'. split; [reflexivity | lia].
    + do 2 eexists. split; [reflexivity | lia].
Qed.

Lemma findBlockAtOrBefore_loop_cost : forall (k : nat) b tr,
  hi b - lo b < 2 ^ Z.of_nat k ->
  exists c tr',
    findBlockAtOrBefore_loop net endpoint targetTs b tr = (c, tr') /\
    (fetchCount tr' <= fetchCount tr + DEFAULT_ATTEMPTS * k)%nat.
Proof.
  induction k as [| k IH]; intros b tr Hk;
    rewrite findBlockAtOrBefore_loop_while;
    destruct (Z.ltb_spec (lo b) (hi b)) as [Hlt | Hge];
    try (do 2 eexists; split; [reflexivity | lia]).
  - simpl in Hk. lia.
  - destruct (getBlockByNumber net endpoint (upper_mid (lo b) (hi b)) tr)
      as [[blk | e] tr1] eqn:Elook;
      apply getBlockByTag_fetches in Elook as [Hcount1 _].
    + pose proof (@narrow_before_halves (ts blk) b Hlt) as Hhalf.
      pose proof (half_below_power _ Hk) as Hpow.
      destruct (IH (narrow_before targetTs (ts blk) b) tr1) as (c & tr' & -> & Hcount);
        [cbv zeta in Hhalf; lia |].
      exists c, tr'. split; [reflexivity | lia].
    + do 2 eexists. split; [reflexivity | lia].
Qed.

End SearchCost.

(** The number of turns that halving allows on an interval of [w + 1]
    blocks. *)
Lemma below_power_log2_up (w : Z) : w < 2 ^ Z.of_nat (Z.to_nat (Z.log2_up (w + 1))).
Proof.
  rewrite Z2Nat.id by apply Z.log2_up_nonneg.
  destruct (Z_le_gt_dec w 0) as [Hle | Hgt].
  - assert (0 < 2 ^ Z.log2_up (w + 1)) by (apply Z.pow_pos_nonneg; [lia | apply Z.log2_up_nonneg]).
    lia.
  - pose proof (Z.log2_up_spec (w + 1)) as H. lia.
Qed.


(** ** Resolution of a period *)

Section Resolution.

Variable net : Network.
Variable endpoint : string.
Variable c : Chain.
Hypothesis Hne : earliest c <= latest c.
Hypothesis Hmono : monotonic c.
Hypothesis Hserves : serves net endpoint c.

Lemma findBlockAtOrAfter_clamps targetTs tr :
  stamp c (latest c) < targetTs ->
  exists tr', findBlockAtOrAfter net endpoint targetTs tr = (Ok (latest c), tr').
Proof.
  intros Hlate. destruct (Hserves) as (Hfirst & Hfinal & _).
  unfold findBlockAtOrAfter, bind.
  destruct (Hfirst tr) as (tr1 & ->). destruct (Hfinal tr1) as (tr2 & ->).
  cbn [blockOf ts num].
  assert (stamp c (earliest c) <= stamp c (latest c)) by (apply Hmono; lia).
  destruct (Z.leb_spec targetTs (stamp c (earliest c))); [lia |].
  destruct (Z.gtb_spec targetTs (stamp c (latest c))); [| lia].
  eexists; reflexivity.
Qed.

Lemma findBlockAtOrBefore_clamps targetTs tr :
  targetTs < stamp c (earliest c) ->
  exists tr', findBlockAtOrBefore net endpoint targetTs tr = (Ok (earliest c), tr').
Proof.
  intros Hearly. destruct (Hserves) as (Hfirst & Hfinal & _).
  unfold findBlockAtOrBefore, bind.
  destruct (Hfirst tr) as (tr1 & ->). destruct (Hfinal tr1) as (tr2 & ->).
  cbn [blockOf ts num].
  destruct (Z.ltb_spec targetTs (stamp c (earliest c))); [| lia].
  eexists; reflexivity.
Qed.

(** The blocks from the one found on are those at or after the
    timestamp. *)
Lemma findBlockAtOrAfter_splits targetTs tr :
  targetTs <= stamp c (latest c) ->
  exists r tr',
    findBlockAtOrAfter net endpoint targetTs tr = (Ok r, tr') /\
    earliest c <= r <= latest c /\
    forall n, earliest c <= n <= latest c -> (r <= n <-> targetTs <= stamp c n).
Proof.
  intros Hin. destruct (Hserves) as (Hfirst & Hfinal & _).
  unfold findBlockAtOrAfter, bind.
  destruct (Hfirst tr) as (tr1 & ->). destruct (Hfinal tr1) as (tr2 & ->).
  cbn [blockOf ts num].
  destruct (Z.leb_spec targetTs (stamp c (earliest c))) as [Hearly | Hearly].
  - exists (earliest c), tr2. split; [reflexivity |]. split; [lia |].
    intros n Hn. split; [| lia]. intros _.
    assert (stamp c (earliest c) <= stamp c n) by (apply Hmono; lia). lia.
  - destruct (Z.gtb_spec targetTs (stamp c (latest c))) as [Hlate | _]; [lia |].
    destruct (@findBlockAtOrAfter_loop_least net endpoint c Hserves Hmono targetTs
                (width {| lo := earliest c; hi := latest c |})
                {| lo := earliest c; hi := latest c |} tr2)
      as (b' & tr' & -> & Heq & Hrange & Hat & Hbefore); simpl; try lia.
    simpl in Hrange. exists (lo b'), tr'. split; [reflexivity |]. split; [lia |].
    intros n Hn. split.
    + intros Hle. assert (stamp c (lo b') <= stamp c n) by (apply Hmono; lia). lia.
    + intros Hts. destruct (Z_lt_dec n (lo b')) as [Hlt | Hge]; [| lia].
      specialize (Hbefore n). lia.
Qed.

(** The blocks up to the one found are those at or before the timestamp. *)
Lemma findBlockAtOrBefore_splits targetTs tr :
  stamp c (earliest c) <= targetTs ->
  exists r tr',
    findBlockAtOrBefore net endpoint targetTs tr = (Ok r, tr') /\
    earliest c <= r <= latest c /\
    forall n, earliest c <= n <= latest c -> (n <= r <-> stamp c n <= targetTs).
Proof.
  intros Hin. destruct (Hserves) as (Hfirst & Hfinal & _).
  unfold findBlockAtOrBefore, bind.
  destruct (Hfirst tr) as (tr1 & ->). destruct (Hfinal tr1) as (tr2 & ->).
  cbn [blockOf ts num].
  destruct (Z.ltb_spec targetTs (stamp c (earliest c))) as [Hearly | _]; [lia |].
  destruct (Z.geb_spec targetTs (stamp c (latest c))) as [Hlate | Hlate].
  - exists (latest c), tr2. split; [reflexivity |]. split; [lia |].
    intros n Hn. split; [| lia]. intros _.
    assert (stamp c n <= stamp c (latest c)) by (apply Hmono; lia). lia.
  - destruct (@findBlockAtOrBefore_loop_greatest net endpoint c Hserves Hmono targetTs
                (width {| lo := earliest c; hi := latest c |})
                {| lo := earliest c; hi := latest c |} tr2)
      as (b' & tr' & -> & Heq & Hrange & Hat & Hafter); simpl; try lia.
    simpl in Hrange. exists (lo b'), tr'. split; [reflexivity |]. split; [lia |].
    intros n Hn. split.
    + intros Hle. assert (stamp c n <= stamp c (lo b')) by (apply Hmono; lia). lia.
    + intros Hts. destruct (Z_lt_dec (lo b') n) as [Hlt | Hge]; [| lia].
      specialize (Hafter n). lia.
Qed.

(** The two ends of the range, for a start and an end that count. *)
Lemma resolve_start (start : option Z) tr :
  (forall s, start = Some s -> s <= stamp c (latest c)) ->
  exists r tr',
    match start with
    | Some t => findBlockAtOrAfter net endpoint t
    | None => ret (earliest c)
    end tr = (Ok r, tr') /\
    earliest c <= r <= latest c /\
    forall n, earliest c <= n <= latest c -> (r <= n <-> notBefore start (stamp c n) = true).
Proof.
  intros Hin. destruct start as [s |]; simpl.
  - destruct (@findBlockAtOrAfter_splits s tr (Hin s eq_refl)) as (r & tr' & E & Hr & Hiff).
    exists r, tr'. split; [exact E |]. split; [exact Hr |].
    intros n Hn. rewrite Z.leb_le. apply Hiff. exact Hn.
  - exists (earliest c), tr. split; [reflexivity |]. split; [lia |].
    intros n Hn. split; [reflexivity | lia].
Qed.

Lemma resolve_stop (stop : option Z) tr :
  (forall e, stop = Some e -> stamp c (earliest c) <= e) ->
  exists r tr',
    match stop with
    | Some t => findBlockAtOrBefore net endpoint t
    | None => ret (latest c)
    end tr = (Ok r, tr') /\
    earliest c <= r <= latest c /\
    forall n, earliest c <= n <= latest c -> (n <= r <-> notAfter stop (stamp c n) = true).
Proof.
  intros Hin. destruct stop as [e |]; simpl.
  - destruct (@findBlockAtOrBefore_splits e tr (Hin e eq_refl)) as (r & tr' & E & Hr & Hiff).
    exists r, tr'. split; [exact E |]. split; [exact Hr |].
    intros n Hn. rewrite Z.leb_le. apply Hiff. exact Hn.
  - exists (latest c), tr. split; [reflexivity |]. split; [lia |].
    intros n Hn. split; [reflexivity | lia].
Qed.

Lemma Api_resolveRange_exact (req : Api.Request) tr :
  meets c (Api.startTs req) (Api.endTs req) ->
  exists fromBlock toBlock tr',
    Api.resolveRange net endpoint req tr = (Ok (fromBlock, toBlock), tr') /\
    earliest c <= fromBlock <= latest c /\ earliest c <= toBlock <= latest c /\
    forall n, earliest c <= n <= latest c ->
      (fromBlock <= n <= toBlock <->
       notBefore (Api.startTs req) (stamp c n) && notAfter (Api.endTs req) (stamp c n) = true).
Proof.
  intros [Hstart Hstop]. destruct (Hserves) as (Hfirst & Hfinal & _).
  unfold Api.resolveRange, bind.
  destruct (Hfirst tr) as (tr1 & ->). destruct (Hfinal tr1) as (tr2 & ->).
  cbn [blockOf num].
  destruct (@resolve_start (Api.startTs req) tr2) as (f & tr3 & Ef & Hf & Hfiff).
  { intros s Hs. apply Hstart in Hs. lia. }
  destruct (@resolve_stop (Api.endTs req) tr3) as (t & tr4 & Et & Ht & Htiff).
  { intros e He. apply Hstop in He. lia. }
  exists f, t, tr4. split.
  - destruct (Api.startTs req) as [s |] eqn:Es.
    + destruct (Z.gtb_spec s 0) as [_ | Hs]; [| specialize (Hstart s eq_refl); lia].
      rewrite Ef. destruct (Api.endTs req) as [e |] eqn:Ee.
      * destruct (Z.gtb_spec e 0) as [_ | He]; [| specialize (Hstop e eq_refl); lia].
        rewrite Et. reflexivity.
      * rewrite Et. reflexivity.
    + rewrite Ef. destruct (Api.endTs req) as [e |] eqn:Ee.
      * destruct (Z.gtb_spec e 0) as [_ | He]; [| specialize (Hstop e eq_refl); lia].
        rewrite Et. reflexivity.
      * rewrite Et. reflexivity.
  - split; [exact Hf |]. split; [exact Ht |].
    intros n Hn. rewrite andb_true_iff, <- (Hfiff n Hn), <- (Htiff n Hn). tauto.
Qed.

Lemma App_resolveRange_exact (inp : App.Inputs) tr :
  App.rpcUrl inp = endpoint ->
  meets c (App.startTs inp) (App.endTs inp) ->
  exists fromBlock toBlock tr',
    App.resolveRange net inp tr = (Ok (fromBlock, toBlock), tr') /\
    earliest c <= fromBlock <= latest c /\ earliest c <= toBlock <= latest c /\
    forall n, earliest c <= n <= latest c ->
      (fromBlock <= n <= toBlock <->
       notBefore (App.startTs inp) (stamp c n) && notAfter (App.endTs inp) (stamp c n) = true).
Proof.
  intros Hurl [Hstart Hstop]. destruct (Hserves) as (Hfirst & Hfinal & _).
  unfold App.resolveRange, bind. rewrite Hurl.
  destruct (Hfirst tr) as (tr1 & ->). destruct (Hfinal tr1) as (tr2 & ->).
  cbn [blockOf num].
  destruct (@resolve_start (App.startTs inp) tr2) as (f & tr3 & Ef & Hf & Hfiff).
  { intros s Hs. apply Hstart in Hs. lia. }
  destruct (@resolve_stop (App.endTs inp) tr3) as (t & tr4 & Et & Ht & Htiff).
  { intros e He. apply Hstop in He. lia. }
  exists f, t, tr4. split.
  - destruct (App.startTs inp) as [s |] eqn:Es.
    + destruct (Z.eqb_spec s 0) as [Hs | _]; [specialize (Hstart s eq_refl); lia |].
      rewrite Ef. destruct (App.endTs inp) as [e |] eqn:Ee.
      * destruct (Z.eqb_spec e 0) as [He | _]; [specialize (Hstop e eq_refl); lia |].
        rewrite Et. reflexivity.
      * rewrite Et. reflexivity.
    + rewrite Ef. destruct (App.endTs inp) as [e |] eqn:Ee.
      * destruct (Z.eqb_spec e 0) as [He | _]; [specialize (Hstop e eq_refl); lia |].
        rewrite Et. reflexivity.
      * rewrite Et. reflexivity.
  - split; [exact Hf |]. split; [exact Ht |].
    intros n Hn. rewrite andb_true_iff, <- (Hfiff n Hn), <- (Htiff n Hn). tauto.
Qed.

End Resolution.



(** A start after the last block of the chain is resolved to the last
    block, an end before the first block to the first: the range then
    holds one block outside the period. *)
Theorem period_outside_chain_selects_a_block (net : Network) (endpoint : string) (c : Chain)
        (t : Z) (tr : Trace) :
  earliest c <= latest c ->
  monotonic c ->
  serves net endpoint c ->
  0 < t ->
  (stamp c (latest c) < t ->
   (exists tr',
      Api.resolveRange net endpoint
        {| Api.rpcIn := None; Api.addrIn := None;
           Api.startTs := Some t; Api.endTs := None |} tr =
      (Ok (latest c, latest c), tr')) /\
   (forall inp, App.rpcUrl inp = endpoint ->
      App.startTs inp = Some t -> App.endTs inp = None ->
      exists tr', App.resolveRange net inp tr = (Ok (latest c, latest c), tr'))) /\
  (t < stamp c (earliest c) ->
   (exists tr',
      Api.resolveRange net endpoint
        {| Api.rpcIn := None; Api.addrIn := None;
           Api.startTs := None; Api.endTs := Some t |} tr =
      (Ok (earliest c, earliest c), tr')) /\
   (forall inp, App.rpcUrl inp = endpoint ->
      App.startTs inp = None -> App.endTs inp = Some t ->
      exists tr', App.resolveRange net inp tr = (Ok (earliest c, earliest c), tr'))).
Proof.
  intros Hne Hmono Hserves Hpos. destruct (Hserves) as (Hfirst & Hfinal & _).
  split; intros Hout; split.
  - unfold Api.resolveRange, bind. cbn [Api.startTs Api.endTs].
    destruct (Hfirst tr) as (tr1 & ->). destruct (Hfinal tr1) as (tr2 & ->).
    destruct (Z.gtb_spec t 0); [| lia].
    destruct (@findBlockAtOrAfter_clamps net endpoint c Hne Hmono Hserves t tr2 Hout)
      as (tr3 & ->).
    eexists; reflexivity.
  - intros inp Hurl Hs He. unfold App.resolveRange, bind. rewrite Hurl, Hs, He.
    destruct (Hfirst tr) as (tr1 & ->). destruct (Hfinal tr1) as (tr2 & ->).
    destruct (Z.eqb_spec t 0); [lia |].
    destruct (@findBlockAtOrAfter_clamps net endpoint c Hne Hmono Hserves t tr2 Hout)
      as (tr3 & ->).
    eexists; reflexivity.
  - unfold Api.resolveRange, bind. cbn [Api.startTs Api.endTs].
    destruct (Hfirst tr) as (tr1 & ->). destruct (Hfinal tr1) as (tr2 & ->).
    destruct (Z.gtb_spec t 0); [| lia]. unfold ret at 1. lazy beta iota.
    destruct (@findBlockAtOrBefore_clamps net endpoint c Hserves t tr2 Hout)
      as (tr3 & ->).
    eexists; reflexivity.
  - intros inp Hurl Hs He. unfold App.resolveRange, bind. rewrite Hurl, Hs, He.
    destruct (Hfirst tr) as (tr1 & ->). destruct (Hfinal tr1) as (tr2 & ->).
    destruct (Z.eqb_spec t 0); [lia |]. unfold ret at 1. lazy beta iota.
    destruct (@findBlockAtOrBefore_clamps net endpoint c Hserves t tr2 Hout)
      as (tr3 & ->).
    eexists; reflexivity.
Qed.

(** A start at second 1000 on the four-block chain, whose last block is of
    second 35. *)
Lemma period_outside_chain_selects_a_block_witness :
  let net := throttled Example.shortChain Example.noLogs in
  exists tr',
    Api.resolveRange net DEFAULT_RPC
      {| Api.rpcIn := None; Api.addrIn := None;
         Api.startTs := Some 1000; Api.endTs := None |} [] =
    (Ok (3, 3), tr').
Proof.
  intros net.
  destruct (@period_outside_chain_selects_a_block net DEFAULT_RPC Example.shortChain 1000 [])
    as [Hlate _].
  - cbn [Example.shortChain earliest latest]. lia.
  - unfold monotonic. cbn [Example.shortChain earliest latest stamp].
    intros m n Hm Hmn Hn. lia.
  - apply throttled_serves.
  - lia.
  - destruct Hlate as [Hapi _]; [vm_compute; reflexivity |]. exact Hapi.
Defined.

(** ** The two fetch loops in the form of the source's [for] *)

Lemma Api_fetchLogs_loop_while net rpcUrl address ranges i allLogs tr :
  Api.fetchLogs_loop net rpcUrl address ranges i allLogs tr =
  if (i <? List.length ranges)%nat then
    match rpc (answerLogs net) rpcUrl
              (BatchRequest (mapi (logsRequest address TOPIC0 i)
                                  (slice ranges i (i + Api.BATCH))))
              DEFAULT_ATTEMPTS tr with
    | (Ok (BatchReply resp), tr') =>
        Api.fetchLogs_loop net rpcUrl address ranges (i + Api.BATCH)%nat
                           (collect allLogs resp) tr'
    | (Ok (SingleReply _), tr') => (Throw NotIterable, tr')
    | (Throw e, tr') => (Throw e, tr')
    end
  else (Ok allLogs, tr).
Proof.
  rewrite Api.fetchLogs_loop_equation_1.
  destruct (lt_dec i (List.length ranges)); simpl;
    destruct (Nat.ltb_spec i (List.length ranges)); try lia; reflexivity.
Qed.

Lemma App_fetchLogsBatched_loop_while net rpcUrl address topic0 batchSize delayMs
      ranges i allLogs tr :
  App.fetchLogsBatched_loop net rpcUrl address topic0 batchSize delayMs ranges i allLogs tr =
  if (i <? List.length ranges)%nat then
    let size := Pos.to_nat batchSize in
    match rpcCallWithRetry (answerLogs net) rpcUrl
              (BatchRequest (mapi (logsRequest address topic0 i)
                                  (slice ranges i (i + size))))
              DEFAULT_ATTEMPTS tr with
    | (Ok (BatchReply j), tr1) =>
        let tr2 := tr1 ++ [Progress (Nat.min (i + size) (List.length ranges))
                                    (List.length ranges)] in
        let tr3 := if ((i + size <? List.length ranges)%nat && (delayMs >? 0))%bool
                   then tr2 ++ [Slept delayMs] else tr2 in
        App.fetchLogsBatched_loop net rpcUrl address topic0 batchSize delayMs ranges
                                  (i + size)%nat (collect allLogs j) tr3
    | (Ok (SingleReply _), tr1) => (Throw NotIterable, tr1)
    | (Throw e, tr1) => (Throw e, tr1)
    end
  else (Ok allLogs, tr).
Proof.
  rewrite App.fetchLogsBatched_loop_equation_1.
  destruct (lt_dec i (List.length ranges)); simpl;
    destruct (Nat.ltb_spec i (List.length ranges)); try lia; reflexivity.
Qed.

(** A chunk and what follows it make up what was left. *)
Lemma slice_skipn (A : Type) (arr : list A) (i size : nat) :
  slice arr i (i + size) ++ skipn (i + size) arr = skipn i arr.
Proof.
  unfold slice. replace (i + size - i)%nat with size by lia.
  rewrite (Nat.add_comm i size), <- skipn_skipn. apply firstn_skipn.
Qed.

Section Archive.

Variable events : string -> list string -> list RawLog.
Variable net : Network.
Hypothesis Hlogs : getsThrough (answerLogs net) (archive events).

(** The entries held for a span. *)
Local Abbreviation held address topic0 :=
  (fun sp : BlockSpan => filter (inRange (from sp) (to sp)) (events address [topic0])).

Lemma collect_archive address topic0 i : forall chunk idx allLogs,
  collect allLogs (map (archiveReply events)
                       (mapi_from (logsRequest address topic0 i) idx chunk)) =
  allLogs ++ flat_map (held address topic0) chunk.
Proof.
  unfold collect.
  induction chunk as [| sp chunk IH]; intros idx allLogs; simpl.
  - rewrite app_nil_r. reflexivity.
  - rewrite IH, app_assoc. reflexivity.
Qed.

(** The retries carry a batch through to the node's answer. *)
Lemma rpc_archive rpcUrl (rs : list RpcRequest) tr :
  exists tr',
    rpc (answerLogs net) rpcUrl (BatchRequest rs) DEFAULT_ATTEMPTS tr =
    (Ok (BatchReply (map (archiveReply events) rs)), tr').
Proof.
  destruct (Hlogs (fetchCount tr) {| url := rpcUrl; body := BatchRequest rs |})
    as (m & Hm & Hbefore & Hgood).
  unfold rpc. apply rpc_loop_accepts with (k := m); [exact Hm | exact Hbefore |].
  rewrite Hgood. exists 200. split; [reflexivity |].
  split; [lia |]. split; [lia |]. simpl.
  apply Forall_forall. intros r Hr. apply in_map_iff in Hr as (q & <- & _).
  unfold archiveReply. destruct (call q); reflexivity.
Qed.

Lemma Api_fetchLogs_loop_archive rpcUrl address ranges : forall (n : nat) i allLogs tr,
  (List.length ranges - i <= n)%nat ->
  exists tr',
    Api.fetchLogs_loop net rpcUrl address ranges i allLogs tr =
    (Ok (allLogs ++ flat_map (held address TOPIC0) (skipn i ranges)), tr').
Proof.
  induction n as [| n IH]; intros i allLogs tr Hn;
    rewrite Api_fetchLogs_loop_while;
    destruct (Nat.ltb_spec i (List.length ranges)) as [Hlt | Hge]; try lia.
  - rewrite skipn_all2 by lia. simpl. rewrite app_nil_r. eexists; reflexivity.
  - destruct (rpc_archive rpcUrl
                (mapi (logsRequest address TOPIC0 i) (slice ranges i (i + Api.BATCH))) tr)
      as (tr1 & ->).
    destruct (IH (i + Api.BATCH)%nat
                 (collect allLogs (map (archiveReply events)
                    (mapi (logsRequest address TOPIC0 i) (slice ranges i (i + Api.BATCH)))))
                 tr1)
      as (tr' & ->); [unfold Api.BATCH; lia |].
    exists tr'. unfold mapi. rewrite collect_archive, <- app_assoc, <- flat_map_app.
    rewrite slice_skipn. reflexivity.
  - rewrite skipn_all2 by lia. simpl. rewrite app_nil_r. eexists; reflexivity.
Qed.

Lemma App_fetchLogsBatched_loop_archive rpcUrl address topic0 batchSize delayMs ranges :
  forall (n : nat) i allLogs tr,
  (List.length ranges - i <= n)%nat ->
  exists tr',
    App.fetchLogsBatched_loop net rpcUrl address topic0 batchSize delayMs ranges
                              i allLogs tr =
    (Ok (allLogs ++ flat_map (held address topic0) (skipn i ranges)), tr').
Proof.
  induction n as [| n IH]; intros i allLogs tr Hn;
    rewrite App_fetchLogsBatched_loop_while;
    destruct (Nat.ltb_spec i (List.length ranges)) as [Hlt | Hge]; try lia.
  - rewrite skipn_all2 by lia. simpl. rewrite app_nil_r. eexists; reflexivity.
  - cbv zeta. unfold rpcCallWithRetry.
    destruct (rpc_archive rpcUrl
                (mapi (logsRequest address topic0 i)
                      (slice ranges i (i + Pos.to_nat batchSize))) tr)
      as (tr1 & ->).
    match goal with
    | |- exists tr', App.fetchLogsBatched_loop _ _ _ _ _ _ _ ?i' ?logs ?tr0 = _ =>
        destruct (IH i' logs tr0) as (tr' & ->); [lia |]
    end.
    exists tr'. unfold mapi. rewrite collect_archive, <- app_assoc, <- flat_map_app.
    rewrite slice_skipn. reflexivity.
  - rewrite skipn_all2 by lia. simpl. rewrite app_nil_r. eexists; reflexivity.
Qed.

End Archive.

(** ** Entries in block order *)

Section BlockOrder.

Variable ledger : list RawLog.

Lemma filter_inRange_empty (s t : Z) (logs : list RawLog) :
  t < s -> filter (inRange s t) logs = [].
Proof.
  intros Hlt. induction logs as [| x logs IH]; simpl; [reflexivity |].
  unfold inRange at 1.
  destruct (Z.leb_spec s (logBlockNumber x)), (Z.leb_spec (logBlockNumber x) t);
    simpl; try lia; exact IH.
Qed.

Lemma filter_inRange_above (s e : Z) (logs : list RawLog) :
  Forall (fun y => e < logBlockNumber y) logs -> filter (inRange s e) logs = [].
Proof.
  intros Hall. induction Hall as [| x logs Hx _ IH]; simpl; [reflexivity |].
  unfold inRange at 1.
  destruct (Z.leb_spec s (logBlockNumber x)), (Z.leb_spec (logBlockNumber x) e);
    simpl; try lia; exact IH.
Qed.

Lemma inRange_spec (s t : Z) (x : RawLog) :
  reflect (s <= logBlockNumber x <= t) (inRange s t x).
Proof.
  apply iff_reflect. unfold inRange. rewrite andb_true_iff, !Z.leb_le. tauto.
Qed.

(** Adjacent ranges of blocks hold adjacent parts of a log in block
    order. *)
Lemma filter_inRange_split (s e t : Z) (logs : list RawLog) :
  inBlockOrder logs -> s <= e + 1 -> e <= t ->
  filter (inRange s e) logs ++ filter (inRange (e + 1) t) logs = filter (inRange s t) logs.
Proof.
  intros Hord Hse Het. induction logs as [| x logs IH]; [reflexivity |].
  destruct Hord as [Hx Hord]. specialize (IH Hord). cbn [filter].
  destruct (inRange_spec s e x), (inRange_spec (e + 1) t x), (inRange_spec s t x);
    try lia; try exact IH.
  - cbn [app]. f_equal. exact IH.
  - assert (Hnone : filter (inRange s e) logs = []).
    { apply filter_inRange_above.
      eapply Forall_impl; [| exact Hx]. cbv beta. intros; lia. }
    rewrite Hnone in *. cbn [app] in *. f_equal. exact IH.
Qed.

Hypothesis Hord : inBlockOrder ledger.

(** Queried span by span, a log in block order comes back whole and in
    order. *)
Lemma spans_hold_range (toBlock s : Z) :
  flat_map (fun sp => filter (inRange (from sp) (to sp)) ledger) (buildRanges s toBlock) =
  filter (inRange s toBlock) ledger.
Proof.
  apply (@buildRanges_ind toBlock (fun s l =>
    flat_map (fun sp => filter (inRange (from sp) (to sp)) ledger) l =
    filter (inRange s toBlock) ledger)).
  - intros s0 Hlt. simpl. symmetry. apply filter_inRange_empty. assumption.
  - intros s0 Hle e IH. cbn [flat_map from to]. rewrite IH.
    apply filter_inRange_split; [assumption | |]; subst e; unfold MAX_SPAN; lia.
Qed.

End BlockOrder.

(** A selection of entries with distinct keys has distinct keys. *)
Lemma filter_keys_NoDup (keep : RawLog -> bool) (logs : list RawLog) :
  NoDup (map logKey logs) -> NoDup (map logKey (filter keep logs)).
Proof.
  induction logs as [| x logs IH]; simpl; [auto |].
  intros Hnd. inversion Hnd as [| ? ? Hnot Hnd']; subst.
  destruct (keep x); simpl; [| auto].
  constructor; [| auto]. intros Hin. apply Hnot.
  apply in_map_iff in Hin as (y & Hy & Hin). apply filter_In in Hin as [Hin _].
  rewrite <- Hy. apply in_map. assumption.
Qed.

(** Entries with distinct identities have distinct keys. *)
Lemma NoDup_logKey (logs : list RawLog) :
  NoDup (map logIdentity logs) -> NoDup (map logKey logs).
Proof.
  induction logs as [| x logs IH]; simpl; [intros; constructor |].
  intros Hnd. inversion Hnd as [| ? ? Hnot Hnd']; subst.
  constructor; [| auto]. intros Hin. apply Hnot.
  apply in_map_iff in Hin as (y & Hy & Hin). apply logKey_inj in Hy.
  rewrite <- Hy. apply in_map. assumption.
Qed.

Lemma inBlockOrder_filter (p : RawLog -> bool) (logs : list RawLog) :
  inBlockOrder logs -> inBlockOrder (filter p logs).
Proof.
  induction logs as [| x logs IH]; simpl; [auto |].
  intros [Hx Hord]. destruct (p x); simpl; [| auto].
  split; [| auto]. apply Forall_forall. intros y Hy.
  apply filter_In in Hy as [Hy _]. rewrite Forall_forall in Hx. auto.
Qed.

Lemma decodeAll_ascending parseLog (logs : list RawLog) :
  inBlockOrder logs -> ascending (decodeAll parseLog logs).
Proof.
  induction logs as [| x logs IH]; [simpl; auto |].
  intros [Hx Hord]. rewrite decodeAll_cons.
  destruct (decodeGameResult parseLog x) as [row |] eqn:E; [| auto].
  simpl. split; [| auto]. apply Forall_forall. intros r Hr.
  apply decodeAll_In in Hr as (entry & Hin & He).
  rewrite Forall_forall in Hx. specialize (Hx entry Hin).
  unfold decodeGameResult in E, He.
  destruct (parseLog (topics x) (data x)); try discriminate.
  destruct (parseLog (topics entry) (data entry)); try discriminate.
  injection E as <-. injection He as <-. simpl. exact Hx.
Qed.

(** Sorting rows that are in order leaves them as they are. *)
Lemma Array_sort_ascending (rows : list Row) :
  ascending rows -> Array_sort byBlockNumber rows = rows.
Proof.
  induction rows as [| x rows IH]; [reflexivity |].
  intros [Hx Hasc]. simpl. rewrite IH by assumption.
  destruct rows as [| y rows]; [reflexivity |]. simpl.
  inversion Hx; subst. unfold byBlockNumber.
  destruct (Z.leb_spec (blockNumber x - blockNumber y) 0); [reflexivity | lia].
Qed.

Section Pipeline.

Variable events : string -> list string -> list RawLog.
Variable net : Network.
Variable parseLog : list string -> string -> ParseOutcome.
Hypothesis Hlogs : getsThrough (answerLogs net) (archive events).

Lemma Api_handler_archive (req : Api.Request) tr fromBlock toBlock tr1 :
  let ledger := events (toLowerCase (or_default (Api.addrIn req) DEFAULT_CONTRACT))
                       [TOPIC0] in
  inBlockOrder ledger ->
  NoDup (map logIdentity ledger) ->
  Api.resolveRange net (or_default (Api.rpcIn req) DEFAULT_RPC) req tr =
    (Ok (fromBlock, toBlock), tr1) ->
  exists tr',
    Api.handler net parseLog req tr =
    (Ok (Api.Rows (decodeAll parseLog (filter (inRange fromBlock toBlock) ledger))), tr').
Proof.
  intros ledger Hord Hnd Hrange.
  unfold Api.handler, Api.run, tryCatch, bind. rewrite Hrange.
  destruct (Z.ltb_spec toBlock fromBlock) as [Hlt | Hge].
  - rewrite filter_inRange_empty by assumption. eexists; reflexivity.
  - destruct (@Api_fetchLogs_loop_archive events net Hlogs
                (or_default (Api.rpcIn req) DEFAULT_RPC)
                (toLowerCase (or_default (Api.addrIn req) DEFAULT_CONTRACT))
                (buildRanges fromBlock toBlock) _ 0%nat [] tr1 (le_n _)) as (tr' & ->).
    exists tr'. cbn [skipn app]. fold ledger.
    rewrite spans_hold_range by assumption.
    rewrite dedupe_fixpoint; [reflexivity |].
    apply filter_keys_NoDup, NoDup_logKey. assumption.
Qed.

Lemma App_handleRun_archive (inp : App.Inputs) tr fromBlock toBlock tr1 :
  let ledger := events (App.address inp) [TOPIC0] in
  inBlockOrder ledger ->
  NoDup (map logIdentity ledger) ->
  App.resolveRange net inp (tr ++ [Progress 0 0]) = (Ok (fromBlock, toBlock), tr1) ->
  exists tr',
    App.handleRun net parseLog inp tr =
    (Ok {| App.rows := decodeAll parseLog (filter (inRange fromBlock toBlock) ledger);
           App.error := None; App.loading := false |}, tr').
Proof.
  intros ledger Hord Hnd Hrange.
  unfold App.handleRun, App.run, tryCatch, bind, emit. rewrite Hrange.
  destruct (Z.ltb_spec toBlock fromBlock) as [Hlt | Hge].
  - rewrite filter_inRange_empty by assumption. eexists; reflexivity.
  - unfold App.fetchLogsBatched, bind.
    destruct (@App_fetchLogsBatched_loop_archive events net Hlogs
                (App.rpcUrl inp) (App.address inp) TOPIC0
                (App.clampBatch (App.batchSize inp)) (App.clampDelay (App.delayMs inp))
                (buildRanges fromBlock toBlock) _ 0%nat [] tr1 (le_n _)) as (tr' & ->).
    exists tr'. cbn [skipn app]. fold ledger.
    rewrite spans_hold_range by assumption.
    rewrite dedupe_fixpoint.
    + unfold ret. rewrite Array_sort_ascending; [reflexivity |].
      apply decodeAll_ascending, inBlockOrder_filter. assumption.
    + apply filter_keys_NoDup, NoDup_logKey. assumption.
Qed.

End Pipeline.

(** ** The events of a range and of a period *)


(** An endpoint that answers at once gets through, and so does one that
    rate-limits every other request. *)
Lemma archive_getsThrough (events : string -> list string -> list RawLog) :
  getsThrough (archive events) (archive events).
Proof.
  intros k req. exists 0%nat. split; [unfold DEFAULT_ATTEMPTS; lia |].
  split; [intros j Hj; lia | reflexivity].
Qed.

Lemma flaky_getsThrough : getsThrough Example.flaky (archive Example.gameLog).
Proof.
  intros k req. destruct (Nat.even k) eqn:E.
  - exists 1%nat. split; [unfold DEFAULT_ATTEMPTS; lia |]. split.
    + intros j Hj. replace (k + j)%nat with k by lia.
      unfold Example.flaky. rewrite E. apply transient_429.
    + unfold Example.flaky.
      replace (Nat.even (k + 1)) with false; [reflexivity |].
      rewrite Nat.add_1_r, Nat.even_succ, <- Nat.negb_even, E. reflexivity.
  - exists 0%nat. split; [unfold DEFAULT_ATTEMPTS; lia |]. split; [intros j Hj; lia |].
    rewrite Nat.add_0_r. unfold Example.flaky. rewrite E. reflexivity.
Qed.


Section Period.

Variable net : Network.
Variable c : Chain.
Variable events : string -> list string -> list RawLog.
Variable parseLog : list string -> string -> ParseOutcome.
Hypothesis Hne : earliest c <= latest c.
Hypothesis Hmono : monotonic c.
Hypothesis Hlogs : getsThrough (answerLogs net) (archive events).

Lemma filter_range_period (ledger : list RawLog) (start stop : option Z) (f t : Z) :
  Forall (fun log => earliest c <= logBlockNumber log <= latest c) ledger ->
  (forall n, earliest c <= n <= latest c ->
     (f <= n <= t <-> notBefore start (stamp c n) && notAfter stop (stamp c n) = true)) ->
  filter (inRange f t) ledger = filter (inPeriod c start stop) ledger.
Proof.
  intros Hin Hiff. apply filter_ext_in. intros log Hlog.
  rewrite Forall_forall in Hin. specialize (Hiff _ (Hin log Hlog)).
  unfold inPeriod. destruct (inRange_spec f t log) as [H | H].
  - symmetry. apply Hiff. exact H.
  - destruct (notBefore start _ && notAfter stop _); [| reflexivity].
    exfalso. apply H, Hiff. reflexivity.
Qed.

Lemma Api_handler_period (req : Api.Request) tr :
  let ledger := events (toLowerCase (or_default (Api.addrIn req) DEFAULT_CONTRACT))
                       [TOPIC0] in
  serves net (or_default (Api.rpcIn req) DEFAULT_RPC) c ->
  inBlockOrder ledger ->
  NoDup (map logIdentity ledger) ->
  Forall (fun log => earliest c <= logBlockNumber log <= latest c) ledger ->
  meets c (Api.startTs req) (Api.endTs req) ->
  exists tr',
    Api.handler net parseLog req tr =
    (Ok (Api.Rows (decodeAll parseLog
                     (filter (inPeriod c (Api.startTs req) (Api.endTs req)) ledger))), tr').
Proof.
  intros ledger Hserves Hord Hnd Hin Hmeets.
  destruct (@Api_resolveRange_exact net _ c Hne Hmono Hserves req tr Hmeets)
    as (f & t & tr1 & Hrange & _ & _ & Hiff).
  destruct (@Api_handler_archive events net parseLog Hlogs req tr f t tr1 Hord Hnd Hrange)
    as (tr' & ->).
  exists tr'. fold ledger. rewrite (filter_range_period _ _ Hin Hiff). reflexivity.
Qed.

Lemma App_handleRun_period (inp : App.Inputs) tr :
  let ledger := events (App.address inp) [TOPIC0] in
  serves net (App.rpcUrl inp) c ->
  inBlockOrder ledger ->
  NoDup (map logIdentity ledger) ->
  Forall (fun log => earliest c <= logBlockNumber log <= latest c) ledger ->
  meets c (App.startTs inp) (App.endTs inp) ->
  exists tr',
    App.handleRun net parseLog inp tr =
    (Ok {| App.rows := decodeAll parseLog
                         (filter (inPeriod c (App.startTs inp) (App.endTs inp)) ledger);
           App.error := None; App.loading := false |}, tr').
Proof.
  intros ledger Hserves Hord Hnd Hin Hmeets.
  destruct (@App_resolveRange_exact net _ c Hne Hmono Hserves inp (tr ++ [Progress 0 0])
              eq_refl Hmeets)
    as (f & t & tr1 & Hrange & _ & _ & Hiff).
  destruct (@App_handleRun_archive events net parseLog Hlogs inp tr f t tr1 Hord Hnd Hrange)
    as (tr' & ->).
  exists tr'. fold ledger. rewrite (filter_range_period _ _ Hin Hiff). reflexivity.
Qed.

End Period.



(** ** The requests of the log phase *)

(** What a call of [rpc] adds to the record: its request, once per attempt,
    and the back-offs. *)
Lemma rpc_loop_events (P : Type) (answer : nat -> HttpRequest -> FetchOutcome P)
      (endpoint : string) (payload : RequestBody) :
  forall remaining i lastErr tr c tr',
    rpc_loop answer endpoint payload remaining i lastErr tr = (c, tr') ->
    exists evs, tr' = tr ++ evs /\
      Forall (fun ev => ev = Fetched {| url := endpoint; body := payload |} \/
                        exists a, ev = Backoff a) evs.
Proof.
  induction remaining as [| n IH]; intros i lastErr tr c tr' Hrun.
  - simpl in Hrun. unfold throw in Hrun. injection Hrun as <- <-.
    exists []. rewrite app_nil_r. split; [reflexivity | constructor].
  - rewrite rpc_loop_step in Hrun.
    destruct (rpc_attempt_outcome answer endpoint payload tr) as (c0 & E & _).
    rewrite E in Hrun. destruct c0 as [j | e].
    + injection Hrun as <- <-. eexists. split; [reflexivity |].
      repeat constructor.
    + apply IH in Hrun as (evs & -> & Hall).
      exists (Fetched {| url := endpoint; body := payload |} :: Backoff i :: evs).
      split; [rewrite <- !app_assoc; reflexivity |].
      constructor; [left; reflexivity |]. constructor; [right; eexists; reflexivity |].
      exact Hall.
Qed.

Lemma mapi_from_length (A B : Type) (f : A -> nat -> B) (arr : list A) :
  forall idx, List.length (mapi_from f idx arr) = List.length arr.
Proof. induction arr as [| x arr IH]; intros idx; simpl; [| rewrite IH]; reflexivity. Qed.

Lemma slice_length (A : Type) (arr : list A) (i size : nat) :
  List.length (slice arr i (i + size)) = Nat.min size (List.length arr - i).
Proof.
  unfold slice. rewrite length_firstn, length_skipn.
  replace (i + size - i)%nat with size by lia. reflexivity.
Qed.

Lemma slice_In (A : Type) (arr : list A) (i j : nat) (x : A) :
  In x (slice arr i j) -> In x arr.
Proof.
  unfold slice. intros H.
  rewrite <- (firstn_skipn i arr). apply in_or_app. right.
  rewrite <- (firstn_skipn (j - i) (skipn i arr)). apply in_or_app. left. exact H.
Qed.

Section Batches.

Variables (address topic0 : string) (i : nat).

(** The ids of a batch are the positions of its spans, plus 100. *)
Lemma logsRequest_ids (chunk : list BlockSpan) : forall idx,
  map id (mapi_from (logsRequest address topic0 i) idx chunk) =
  map (fun k => Z.of_nat i + Z.of_nat k + 100) (seq idx (List.length chunk)).
Proof.
  induction chunk as [| sp chunk IH]; intros idx; simpl; [| rewrite IH]; reflexivity.
Qed.

Lemma logsRequest_ids_NoDup (chunk : list BlockSpan) :
  NoDup (map id (mapi (logsRequest address topic0 i) chunk)).
Proof.
  unfold mapi. rewrite logsRequest_ids.
  generalize (seq_NoDup (List.length chunk) 0). generalize (seq 0 (List.length chunk)).
  induction l as [| k l IH]; simpl; intros Hnd; [constructor |].
  inversion Hnd as [| ? ? Hnot Hnd']; subst. constructor; [| auto].
  intros Hin. apply in_map_iff in Hin as (k' & Hk & Hin).
  assert (k' = k) by lia. subst. contradiction.
Qed.

Lemma logsRequest_bounded (chunk : list BlockSpan) : forall idx,
  Forall (fun sp => 0 <= to sp - from sp < MAX_SPAN) chunk ->
  Forall (boundedQuery address topic0) (mapi_from (logsRequest address topic0 i) idx chunk).
Proof.
  induction chunk as [| sp chunk IH]; intros idx Hall; simpl; [constructor |].
  inversion Hall as [| ? ? Hsp Hrest]; subst. constructor; [| auto].
  eexists. split; [reflexivity |]. simpl. auto.
Qed.

End Batches.

(** A chunk of spans of at most [MAX_SPAN] blocks makes a batch. *)
Lemma chunk_logBatch (rpcUrl address topic0 : string) (ranges : list BlockSpan)
      (i size limit : nat) :
  Forall (fun sp => 0 <= to sp - from sp < MAX_SPAN) ranges ->
  (i < List.length ranges)%nat -> (1 <= size <= limit)%nat ->
  logBatch rpcUrl address topic0 limit
           (Fetched {| url := rpcUrl;
                       body := BatchRequest (mapi (logsRequest address topic0 i)
                                                  (slice ranges i (i + size))) |}).
Proof.
  intros Hall Hi Hsize. eexists. split; [reflexivity |]. split; [| split].
  - unfold mapi. rewrite mapi_from_length, slice_length. lia.
  - apply logsRequest_bounded. apply Forall_forall. intros sp Hsp.
    rewrite Forall_forall in Hall. apply Hall. eapply slice_In. exact Hsp.
  - apply logsRequest_ids_NoDup.
Qed.

Lemma onlyLogBatches_app rpcUrl address topic0 limit evs1 evs2 :
  onlyLogBatches rpcUrl address topic0 limit evs1 ->
  onlyLogBatches rpcUrl address topic0 limit evs2 ->
  onlyLogBatches rpcUrl address topic0 limit (evs1 ++ evs2).
Proof.
  intros H1 H2 ev Hin. apply in_app_or in Hin as [Hin | Hin]; auto.
Qed.

Lemma onlyLogBatches_quiet rpcUrl address topic0 limit tr tr' :
  no_logs_fetched tr tr' ->
  exists evs, tr' = tr ++ evs /\ onlyLogBatches rpcUrl address topic0 limit evs.
Proof.
  intros (evs & -> & Hnone). exists evs. split; [reflexivity |].
  intros ev Hin Hev.
  assert (Hin' : In ev (filter fetchesLogs evs)) by (apply filter_In; auto).
  rewrite Hnone in Hin'. destruct Hin'.
Qed.

Section LogPhase.

Variable net : Network.
Variables (rpcUrl address : string) (ranges : list BlockSpan).
Hypothesis Hspans : Forall (fun sp => 0 <= to sp - from sp < MAX_SPAN) ranges.

Lemma rpc_batch_events topic0 i size limit tr c tr' :
  (i < List.length ranges)%nat -> (1 <= size <= limit)%nat ->
  rpc (answerLogs net) rpcUrl
      (BatchRequest (mapi (logsRequest address topic0 i) (slice ranges i (i + size))))
      DEFAULT_ATTEMPTS tr = (c, tr') ->
  exists evs, tr' = tr ++ evs /\ onlyLogBatches rpcUrl address topic0 limit evs.
Proof.
  intros Hi Hsize Hrun. unfold rpc in Hrun.
  apply rpc_loop_events in Hrun as (evs & -> & Hall).
  exists evs. split; [reflexivity |]. intros ev Hin Hev.
  rewrite Forall_forall in Hall. destruct (Hall ev Hin) as [-> | [a ->]].
  - apply chunk_logBatch; assumption.
  - discriminate.
Qed.

Lemma Api_fetchLogs_loop_batches : forall (n : nat) i allLogs tr c tr',
  (List.length ranges - i <= n)%nat ->
  Api.fetchLogs_loop net rpcUrl address ranges i allLogs tr = (c, tr') ->
  exists evs, tr' = tr ++ evs /\ onlyLogBatches rpcUrl address TOPIC0 Api.BATCH evs.
Proof.
  induction n as [| n IH]; intros i allLogs tr c tr' Hn;
    rewrite Api_fetchLogs_loop_while;
    destruct (Nat.ltb_spec i (List.length ranges)) as [Hlt | Hge]; try lia;
    try (intros [= <- <-]; exists []; rewrite app_nil_r; split; [reflexivity |];
         intros ev []).
  destruct (rpc (answerLogs net) rpcUrl _ DEFAULT_ATTEMPTS tr) as [[[j | resp] | e] tr1] eqn:E;
    apply (@rpc_batch_events TOPIC0 i Api.BATCH Api.BATCH) in E as (evs1 & -> & H1);
    try assumption; try (unfold Api.BATCH; lia).
  - intros [= <- <-]. exists evs1. split; [reflexivity | assumption].
  - intros Hrun. apply IH in Hrun as (evs2 & -> & H2); [| unfold Api.BATCH; lia].
    exists (evs1 ++ evs2). split; [rewrite app_assoc; reflexivity |].
    apply onlyLogBatches_app; assumption.
  - intros [= <- <-]. exists evs1. split; [reflexivity | assumption].
Qed.

Lemma App_fetchLogsBatched_loop_batches topic0 batchSize delayMs :
  (Pos.to_nat batchSize <= 8)%nat ->
  forall (n : nat) i allLogs tr c tr',
  (List.length ranges - i <= n)%nat ->
  App.fetchLogsBatched_loop net rpcUrl address topic0 batchSize delayMs ranges
                            i allLogs tr = (c, tr') ->
  exists evs, tr' = tr ++ evs /\ onlyLogBatches rpcUrl address topic0 8 evs.
Proof.
  intros Hsize.
  induction n as [| n IH]; intros i allLogs tr c tr' Hn;
    rewrite App_fetchLogsBatched_loop_while;
    destruct (Nat.ltb_spec i (List.length ranges)) as [Hlt | Hge]; try lia;
    try (intros [= <- <-]; exists []; rewrite app_nil_r; split; [reflexivity |];
         intros ev []).
  cbv zeta. unfold rpcCallWithRetry.
  destruct (rpc (answerLogs net) rpcUrl _ DEFAULT_ATTEMPTS tr) as [[[j | resp] | e] tr1] eqn:E;
    apply (@rpc_batch_events topic0 i (Pos.to_nat batchSize) 8%nat) in E as (evs1 & -> & H1);
    try assumption; try lia.
  - intros [= <- <-]. exists evs1. split; [reflexivity | assumption].
  - intros Hrun. apply IH in Hrun as (evs2 & Htr & H2); [| lia].
    destruct ((i + Pos.to_nat batchSize <? List.length ranges)%nat && (delayMs >? 0))%bool.
    + exists (evs1 ++ [Progress (Nat.min (i + Pos.to_nat batchSize) (List.length ranges))
                                (List.length ranges); Slept delayMs] ++ evs2).
      split; [rewrite Htr, <- !app_assoc; reflexivity |].
      repeat apply onlyLogBatches_app; try assumption.
      intros ev [<- | [<- | []]]; discriminate.
    + exists (evs1 ++ [Progress (Nat.min (i + Pos.to_nat batchSize) (List.length ranges))
                                (List.length ranges)] ++ evs2).
      split; [rewrite Htr, <- !app_assoc; reflexivity |].
      repeat apply onlyLogBatches_app; try assumption.
      intros ev [<- | []]; discriminate.
  - intros [= <- <-]. exists evs1. split; [reflexivity | assumption].
Qed.

End LogPhase.

Lemma buildRanges_spans_short fromBlock toBlock :
  Forall (fun sp => 0 <= to sp - from sp < MAX_SPAN) (buildRanges fromBlock toBlock).
Proof.
  eapply Forall_impl; [| apply buildRanges_spans_bounded]. cbv beta. intros sp H. lia.
Qed.

(** [Math.max(1, Math.min(8, Number(batchSize) || 1))] lies between 1 and 8
    and leaves a size in that range alone. *)
Lemma clampBatch_bounds (batchSize : Z) :
  (1 <= Pos.to_nat (App.clampBatch batchSize) <= 8)%nat /\
  (1 <= batchSize <= 8 -> Z.pos (App.clampBatch batchSize) = batchSize).
Proof.
  unfold App.clampBatch. destruct (Z.eqb_spec batchSize 0) as [-> | Hne].
  - simpl. split; lia.
  - split; [| intros H; rewrite Z2Pos.id; lia].
    assert (1 <= Z.max 1 (Z.min 8 batchSize) <= 8) by lia.
    destruct (Z.max 1 (Z.min 8 batchSize)) as [| p | p]; simpl; lia.
Qed.


(** ** Progress reports and pauses *)

Lemma batchCount_spec (n size : nat) :
  (0 < size)%nat ->
  (n <= batchCount n size * size)%nat /\
  (batchCount n size = 0%nat \/ (batchCount n size - 1) * size < n)%nat.
Proof.
  intros Hpos. unfold batchCount.
  pose proof (Nat.div_mod_eq (n + size - 1) size) as Hdiv.
  pose proof (Nat.mod_upper_bound (n + size - 1) size) as Hmod.
  set (q := ((n + size - 1) / size)%nat) in *.
  set (r := ((n + size - 1) mod size)%nat) in *.
  split; [nia |]. destruct q as [| q]; [left; reflexivity | right; simpl; nia].
Qed.

Section Throttle.

Variable net : Network.
Variables (rpcUrl address topic0 : string) (batchSize : positive) (delayMs : Z).
Variable ranges : list BlockSpan.

Local Abbreviation size := (Pos.to_nat batchSize).
Local Abbreviation n := (List.length ranges).

Lemma rpc_reports_nothing (P : Type) (answer : nat -> HttpRequest -> FetchOutcome P)
      (payload : RequestBody) attempts tr c tr' :
  rpc answer rpcUrl payload attempts tr = (c, tr') ->
  exists evs, tr' = tr ++ evs /\ filter isProgress evs = [] /\ filter isSlept evs = [].
Proof.
  intros Hrun. unfold rpc in Hrun.
  apply rpc_loop_events in Hrun as (evs & -> & Hall).
  exists evs. split; [reflexivity |].
  induction Hall as [| ev evs [-> | [a ->]] _ [IH1 IH2]]; simpl; auto.
Qed.

Lemma fetchLogsBatched_loop_reports (b : nat) :
  (n <= b * size)%nat ->
  (b = 0%nat \/ (b - 1) * size < n)%nat ->
  forall (m k : nat) allLogs tr logs tr',
    (b - k <= m)%nat ->
    App.fetchLogsBatched_loop net rpcUrl address topic0 batchSize delayMs ranges
                              (k * size) allLogs tr = (Ok logs, tr') ->
    exists evs, tr' = tr ++ evs /\
      filter isProgress evs =
        map (fun j => Progress (Nat.min (j * size) n) n) (seq (S k) (b - k)) /\
      filter isSlept evs =
        if delayMs >? 0 then repeat (Slept delayMs) (b - k - 1) else [].
Proof.
  intros Hup Hlow.
  assert (Hsize : (0 < size)%nat) by lia.
  induction m as [| m IH]; intros k allLogs tr logs tr' Hm;
    rewrite App_fetchLogsBatched_loop_while;
    destruct (Nat.ltb_spec (k * size) n) as [Hlt | Hge]; try nia.
  - intros [= <- <-]. exists []. rewrite app_nil_r.
    replace (b - k)%nat with 0%nat by lia. simpl.
    split; [reflexivity |]. split; [reflexivity |]. destruct (delayMs >? 0); reflexivity.
  - cbv zeta. unfold rpcCallWithRetry.
    destruct (rpc (answerLogs net) rpcUrl _ DEFAULT_ATTEMPTS tr) as [[[j | resp] | e] tr1] eqn:E;
      try discriminate.
    apply rpc_reports_nothing in E as (evs1 & -> & Hp1 & Hs1).
    replace (k * size + size)%nat with (S k * size)%nat by lia.
    intros Hrun. apply IH in Hrun as (evs2 & -> & Hp2 & Hs2); [| lia].
    assert (Hk : (k < b)%nat) by nia.
    destruct (Nat.ltb_spec (S k * size) n) as [Hmore | Hlast].
    + assert (Hk' : (S k < b)%nat) by nia.
      destruct (Z.gtb_spec delayMs 0) as [Hd | Hd]; cbn [andb].
      * exists (evs1 ++ [Progress (Nat.min (S k * size) n) n; Slept delayMs] ++ evs2).
        split; [rewrite <- !app_assoc; reflexivity |].
        rewrite !filter_app, Hp1, Hs1, Hp2, Hs2. cbn [filter isProgress isSlept app].
        replace (b - k - 1)%nat with (S (b - S k - 1)) by lia.
        replace (b - k)%nat with (S (b - S k)) by lia.
        split; reflexivity.
      * exists (evs1 ++ [Progress (Nat.min (S k * size) n) n] ++ evs2).
        split; [rewrite <- !app_assoc; reflexivity |].
        rewrite !filter_app, Hp1, Hs1, Hp2, Hs2. cbn [filter isProgress isSlept app].
        replace (b - k)%nat with (S (b - S k)) by lia.
        split; reflexivity.
    + assert (Hb : b = S k) by nia. cbn [andb].
      exists (evs1 ++ [Progress (Nat.min (S k * size) n) n] ++ evs2).
      split; [rewrite <- !app_assoc; reflexivity |].
      rewrite !filter_app, Hp1, Hs1, Hp2, Hs2. cbn [filter isProgress isSlept app].
      replace (b - k - 1)%nat with (b - S k - 1)%nat by lia.
      replace (b - k)%nat with (S (b - S k)) by lia.
      split; reflexivity.
  - intros [= <- <-]. exists []. rewrite app_nil_r.
    assert (Hb : (b <= k)%nat) by (destruct Hlow; nia).
    replace (b - k)%nat with 0%nat by lia. simpl.
    split; [reflexivity |]. split; [reflexivity |]. destruct (delayMs >? 0); reflexivity.
Qed.

End Throttle.

(** A successful [fetchLogsBatched] over [n] spans in batches of [size]
    reports progress once per batch, [min (j * size) n] of [n] after the
    [j]-th, so that the last report is [n] of [n]; with a positive delay it
    pauses for [delayMs] between two batches and not after the last one,
    and without one it never pauses. *)
Theorem fetchLogsBatched_reports_and_pauses
        (net : Network) (rpcUrl address topic0 : string) (fromBlock toBlock : Z)
        (batchSize : positive) (delayMs : Z) (tr : Trace) (logs : list RawLog) (tr' : Trace) :
  App.fetchLogsBatched net rpcUrl address topic0 fromBlock toBlock batchSize delayMs tr =
    (Ok logs, tr') ->
  let n := List.length (buildRanges fromBlock toBlock) in
  let size := Pos.to_nat batchSize in
  let b := batchCount n size in
  (n <= b * size)%nat /\ (b = 0%nat \/ (b - 1) * size < n)%nat /\
  exists evs, tr' = tr ++ evs /\
    filter isProgress evs = map (fun j => Progress (Nat.min (j * size) n) n) (seq 1 b) /\
    filter isSlept evs = if delayMs >? 0 then repeat (Slept delayMs) (b - 1) else [].
Proof.
  intros Hrun n size b.
  destruct (@batchCount_spec n size) as [Hup Hlow]; [subst size; lia |].
  split; [exact Hup |]. split; [exact Hlow |].
  unfold App.fetchLogsBatched, bind in Hrun.
  destruct (App.fetchLogsBatched_loop net rpcUrl address topic0 batchSize delayMs
              (buildRanges fromBlock toBlock) 0 [] tr) as [[allLogs | e] tr1] eqn:Hloop;
    [| discriminate].
  injection Hrun as _ <-.
  destruct (@fetchLogsBatched_loop_reports net rpcUrl address topic0 batchSize delayMs
              (buildRanges fromBlock toBlock) b Hup Hlow b 0%nat [] tr allLogs tr1)
    as (evs & -> & Hp & Hs); [lia | exact Hloop |].
  exists evs. rewrite Nat.sub_0_r in Hp, Hs. auto.
Qed.

(** Three spans in batches of two, with a pause of 400 ms. *)
Lemma fetchLogsBatched_reports_and_pauses_witness :
  let net := reliable Example.longChain (archive Example.gameLog) in
  let tr' := snd (App.fetchLogsBatched net DEFAULT_RPC DEFAULT_CONTRACT TOPIC0 0 250000 2 400 []) in
  exists evs, tr' = [] ++ evs /\
    filter isProgress evs = [Progress 2 3; Progress 3 3] /\
    filter isSlept evs = [Slept 400].
Proof.
  intros net tr'.
  apply (@fetchLogsBatched_reports_and_pauses net DEFAULT_RPC DEFAULT_CONTRACT TOPIC0
           0 250000 2 400 []
           [Example.logAt "0xaa" 1; Example.logAt "0xbb" 2; Example.logAt "0xcc" 3] tr').
  vm_compute. reflexivity.
Defined.

(** ** The match view and the counters *)

(** The match view and the counters agree: the view lists the records that
    involve the player, in their order; its [W] entries are as many as
    [wins], and its [L] entries as many as [losses] less the records in
    which the player is on both sides, so that the view is shorter than
    [total] by exactly those records.  A [W] entry names the loser as
    opponent, an [L] entry the winner. *)
Theorem filtered_agrees_with_stats (rows : list Row) (player : string) :
  let views := filtered rows player in
  let s := stats rows player in
  let self := List.length (filter (selfMatch player) rows) in
  List.length (filter isWin views) = wins s /\
  (List.length (filter (fun v => negb (isWin v)) views) + self)%nat = losses s /\
  (List.length views + self)%nat = total s /\
  Forall (fun v =>
            if isWin v
            then normalize (winningPlayer (View.row v)) = normalize player /\
                 View.opponent v = losingPlayer (View.row v)
            else normalize (losingPlayer (View.row v)) = normalize player /\
                 normalize (winningPlayer (View.row v)) <> normalize player /\
                 View.opponent v = winningPlayer (View.row v)) views /\
  map View.row views =
    filter (fun r => String.eqb (normalize (winningPlayer r)) (normalize player) ||
                     String.eqb (normalize (losingPlayer r)) (normalize player)) rows.
Proof.
  cbv zeta. unfold filtered, stats, selfMatch. cbn [wins losses total].
  induction rows as [| r rows (IHw & IHl & IHt & IHv & IHr)]; [repeat split; constructor |].
  cbn [filter].
  destruct (String.eqb_spec (normalize (winningPlayer r)) (normalize player)) as [Hw | Hw];
    destruct (String.eqb_spec (normalize (losingPlayer r)) (normalize player)) as [Hl | Hl];
    cbn [orb andb map filter isWin View.result negb List.length];
    rewrite ?String.eqb_refl;
    try (destruct (String.eqb_spec (normalize (winningPlayer r)) (normalize player));
         [| contradiction]);
    try (destruct (String.eqb_spec (normalize (winningPlayer r)) (normalize player));
         [contradiction |]);
    cbn [isWin View.result negb filter List.length];
    repeat split; try lia; try (constructor; [cbn; auto | assumption]);
    try (cbn [View.row]; f_equal; assumption); try assumption.
Qed.

(** ** Normalisation of names *)

Lemma isWhiteSpace_lowerChar (c : ascii) : isWhiteSpace (lowerChar c) = isWhiteSpace c.
Proof. destruct c as [[] [] [] [] [] [] [] []]; reflexivity. Qed.

Lemma lowerChar_idempotent (c : ascii) : lowerChar (lowerChar c) = lowerChar c.
Proof. destruct c as [[] [] [] [] [] [] [] []]; reflexivity. Qed.

Lemma toLowerCase_idempotent (s : string) : toLowerCase (toLowerCase s) = toLowerCase s.
Proof.
  induction s as [| c s IH]; simpl; [| rewrite lowerChar_idempotent, IH]; reflexivity.
Qed.

Lemma trimStart_toLowerCase (s : string) :
  trimStart (toLowerCase s) = toLowerCase (trimStart s).
Proof.
  induction s as [| c s IH]; simpl; [reflexivity |].
  rewrite isWhiteSpace_lowerChar. destruct (isWhiteSpace c); [exact IH | reflexivity].
Qed.

Lemma trimEnd_toLowerCase (s : string) :
  trimEnd (toLowerCase s) = toLowerCase (trimEnd s).
Proof.
  induction s as [| c s IH]; simpl; [reflexivity |].
  rewrite IH, isWhiteSpace_lowerChar.
  destruct (trimEnd s); simpl; [destruct (isWhiteSpace c) |]; reflexivity.
Qed.

Lemma trim_toLowerCase (s : string) : trim (toLowerCase s) = toLowerCase (trim s).
Proof. unfold trim. rewrite trimStart_toLowerCase, trimEnd_toLowerCase. reflexivity. Qed.

Lemma trimStart_blank (pad s : string) :
  blank pad = true -> trimStart (pad ++ s) = trimStart s.
Proof.
  induction pad as [| c pad IH]; simpl; [reflexivity |].
  intros H. apply andb_prop in H as [-> H]. auto.
Qed.

Lemma trimEnd_blank_only (pad : string) : blank pad = true -> trimEnd pad = "".
Proof.
  induction pad as [| c pad IH]; simpl; [reflexivity |].
  intros H. apply andb_prop in H as [-> H]. rewrite IH by assumption. reflexivity.
Qed.

Lemma trimEnd_blank (s pad : string) :
  blank pad = true -> trimEnd (s ++ pad) = trimEnd s.
Proof.
  intros H. induction s as [| c s IH]; simpl.
  - apply trimEnd_blank_only. assumption.
  - rewrite IH. reflexivity.
Qed.

Lemma trimStart_blank_only (pad : string) : blank pad = true -> trimStart pad = "".
Proof.
  induction pad as [| c pad IH]; simpl; [reflexivity |].
  intros H. apply andb_prop in H as [-> H]. auto.
Qed.

(** What [trimStart] leaves is empty or starts with a character that is no
    white space. *)
Lemma trimStart_cases (s : string) :
  (blank s = true /\ trimStart s = "") \/
  (exists c t, trimStart s = String c t /\ isWhiteSpace c = false).
Proof.
  induction s as [| c s IH]; simpl; [left; auto |].
  destruct (isWhiteSpace c) eqn:E; simpl; [exact IH |].
  right. exists c, s. auto.
Qed.

Lemma trimStart_app (s pad : string) :
  blank pad = true -> trimEnd (trimStart (s ++ pad)) = trimEnd (trimStart s).
Proof.
  intros H. induction s as [| c s IH]; simpl.
  - rewrite trimStart_blank_only by assumption. reflexivity.
  - destruct (isWhiteSpace c); [exact IH |].
    change (String c (s ++ pad)) with (String c s ++ pad)%string.
    apply trimEnd_blank. assumption.
Qed.

Lemma trim_blank (pad1 s pad2 : string) :
  blank pad1 = true -> blank pad2 = true -> trim (pad1 ++ s ++ pad2) = trim s.
Proof.
  intros H1 H2. unfold trim. rewrite trimStart_blank by assumption.
  apply trimStart_app. assumption.
Qed.

(** [trimEnd] keeps a first character that is no white space. *)
Lemma trimEnd_head (c : ascii) (t : string) :
  isWhiteSpace c = false -> exists t', trimEnd (String c t) = String c t'.
Proof.
  intros Hc. simpl. destruct (trimEnd t); [rewrite Hc |]; eexists; reflexivity.
Qed.

Lemma trimEnd_cons (c : ascii) (s : string) :
  trimEnd (String c s) =
  match trimEnd s with
  | EmptyString => if isWhiteSpace c then EmptyString else String c EmptyString
  | t => String c t
  end.
Proof. reflexivity. Qed.

Lemma trimEnd_idempotent (s : string) : trimEnd (trimEnd s) = trimEnd s.
Proof.
  induction s as [| c s IH]; [reflexivity |].
  rewrite trimEnd_cons. destruct (trimEnd s) as [| c' t] eqn:E.
  - destruct (isWhiteSpace c) eqn:Ec; [reflexivity |].
    rewrite trimEnd_cons. simpl. rewrite Ec. reflexivity.
  - rewrite trimEnd_cons, IH. reflexivity.
Qed.

Lemma trim_idempotent (s : string) : trim (trim s) = trim s.
Proof.
  unfold trim. destruct (trimStart_cases s) as [[_ ->] | (c & t & -> & Hc)];
    [reflexivity |].
  destruct (@trimEnd_head c t Hc) as (t' & E). rewrite E at 1. simpl trimStart.
  rewrite Hc, <- E. apply trimEnd_idempotent.
Qed.

Lemma normalize_idempotent (s : string) : normalize (normalize s) = normalize s.
Proof.
  unfold normalize. rewrite trim_toLowerCase, toLowerCase_idempotent, trim_idempotent.
  reflexivity.
Qed.

Lemma normalize_toLowerCase (s : string) : normalize (toLowerCase s) = normalize s.
Proof. unfold normalize. rewrite trim_toLowerCase. apply toLowerCase_idempotent. Qed.

Lemma normalize_blank (pad1 s pad2 : string) :
  blank pad1 = true -> blank pad2 = true -> normalize (pad1 ++ s ++ pad2) = normalize s.
Proof. intros H1 H2. unfold normalize. rewrite trim_blank by assumption. reflexivity. Qed.

Lemma stats_normalize (rows : list Row) (p q : string) :
  normalize p = normalize q -> stats rows p = stats rows q /\ filtered rows p = filtered rows q.
Proof. intros H. unfold stats, filtered. rewrite H. split; reflexivity. Qed.



(** ** The order of the deduplicated entries *)

Lemma firstOccurrences_ext (keys : list string) : forall seen1 seen2,
  (forall k, In k seen1 <-> In k seen2) ->
  firstOccurrences seen1 keys = firstOccurrences seen2 keys.
Proof.
  induction keys as [| k keys IH]; intros seen1 seen2 Hsame; simpl; [reflexivity |].
  assert (Hex : existsb (String.eqb k) seen1 = existsb (String.eqb k) seen2).
  { apply eq_true_iff_eq. rewrite !existsb_exists. split; intros (x & Hin & Hx);
      exists x; (split; [apply Hsame; assumption | assumption]). }
  rewrite Hex. destruct (existsb (String.eqb k) seen2).
  - apply IH. assumption.
  - f_equal. apply IH. intros k'. simpl. rewrite Hsame. tauto.
Qed.

Lemma existsb_eqb_In (k : string) (seen : list string) :
  existsb (String.eqb k) seen = true <-> In k seen.
Proof.
  rewrite existsb_exists. split.
  - intros (x & Hin & Hx). apply String.eqb_eq in Hx. subst. assumption.
  - intros Hin. exists k. split; [assumption | apply String.eqb_refl].
Qed.

Lemma collectUnique_keys (logs : list RawLog) : forall uniq,
  map_keys (collectUnique uniq logs) =
  map_keys uniq ++ firstOccurrences (map_keys uniq) (map logKey logs).
Proof.
  induction logs as [| x logs IH]; intros uniq; simpl.
  - rewrite app_nil_r. reflexivity.
  - unfold collectUnique in *. simpl. rewrite IH.
    destruct (existsb (String.eqb (logKey x)) (map_keys uniq)) eqn:E.
    + apply existsb_eqb_In in E. rewrite map_set_keys_present by assumption. reflexivity.
    + assert (Hnot : ~ In (logKey x) (map_keys uniq)).
      { intros Hin. apply existsb_eqb_In in Hin. congruence. }
      rewrite map_set_new, map_keys_app by assumption. simpl.
      rewrite <- app_assoc. simpl. do 2 f_equal.
      apply firstOccurrences_ext. intros k. rewrite in_app_iff. simpl. tauto.
Qed.

Lemma firstOccurrences_length (keys : list string) : forall seen,
  (List.length (firstOccurrences seen keys) <= List.length keys)%nat.
Proof.
  induction keys as [| k keys IH]; intros seen; simpl; [lia |].
  destruct (existsb (String.eqb k) seen); simpl.
  - specialize (IH seen). lia.
  - specialize (IH (k :: seen)). lia.
Qed.

(** Deduplication keeps the order of first occurrence: the keys of the
    result are the distinct keys of the input, each at the place of its
    first occurrence.  The result is never longer than the input, and an
    entry whose key has not occurred before it is represented right after
    the entries that represent what precedes it. *)
Theorem dedupe_keeps_first_positions (allLogs : list RawLog) :
  map logKey (dedupe allLogs) = firstOccurrences [] (map logKey allLogs) /\
  (List.length (dedupe allLogs) <= List.length allLogs)%nat /\
  (forall before log after,
     allLogs = before ++ log :: after ->
     (forall other, In other before -> logKey other <> logKey log) ->
     exists kept, nth_error (dedupe allLogs) (List.length (dedupe before)) = Some kept /\
                  logKey kept = logKey log).
Proof.
  split; [| split].
  - rewrite dedupe_keys, collectUnique_keys. reflexivity.
  - rewrite <- (length_map logKey (dedupe allLogs)), dedupe_keys, collectUnique_keys.
    simpl. rewrite <- (length_map logKey allLogs). apply firstOccurrences_length.
  - intros before log after -> Hfresh.
    assert (Hkeys : map logKey (dedupe (before ++ log :: after)) =
                    map logKey (dedupe before) ++ logKey log ::
                    firstOccurrences (logKey log :: map logKey (dedupe before))
                                     (map logKey after)).
    { rewrite !dedupe_keys. unfold collectUnique. rewrite fold_left_app.
      fold (collectUnique [] before).
      fold (collectUnique (collectUnique [] before) (log :: after)).
      rewrite collectUnique_keys. f_equal. simpl.
      destruct (existsb (String.eqb (logKey log)) (map_keys (collectUnique [] before))) eqn:E;
        [| reflexivity].
      exfalso. apply existsb_eqb_In in E. rewrite <- dedupe_keys in E.
      apply in_map_iff in E as (other & Hk & Hin).
      apply dedupe_In in Hin. apply last_where_some in Hin as [Hin _].
      apply (Hfresh other Hin). assumption. }
    assert (Hnth : nth_error (map logKey (dedupe (before ++ log :: after)))
                             (List.length (dedupe before)) = Some (logKey log)).
    { rewrite Hkeys, nth_error_app2 by (rewrite length_map; lia).
      rewrite length_map, Nat.sub_diag. reflexivity. }
    rewrite nth_error_map in Hnth.
    destruct (nth_error (dedupe (before ++ log :: after)) (List.length (dedupe before)))
      as [kept |]; [| discriminate].
    exists kept. split; [reflexivity |]. simpl in Hnth. congruence.
Qed.

(** ** Errors *)

Lemma raises_ret (A : Type) (a : A) : raises (ret a).
Proof. intros tr e tr' H. discriminate. Qed.

Lemma raises_throw (A : Type) (e : Error) : raisable e -> raises (@throw A e).
Proof. intros He tr e' tr' [= <- <-]. exact He. Qed.

Lemma raises_bind (A B : Type) (m : M A) (k : A -> M B) :
  raises m -> (forall a, raises (k a)) -> raises (bind m k).
Proof.
  intros Hm Hk tr e tr'. unfold bind.
  destruct (m tr) as [[a | e0] tr1] eqn:E; intros Hrun.
  - eapply Hk; exact Hrun.
  - injection Hrun as <- <-. eapply Hm; exact E.
Qed.

Lemma raises_emit (ev : Event) : raises (emit ev).
Proof. intros tr e tr' H. discriminate. Qed.

#[local] Hint Resolve raises_ret raises_throw raises_bind raises_emit : trace.

Lemma error_message_nonempty (P : Type) (x : RpcReply P) (fallback : string) :
  fallback <> "" -> error_message x fallback <> "".
Proof.
  intros Hf. unfold error_message. destruct (error x) as [e |]; [| assumption].
  destruct (String.eqb_spec (errorMessage e) ""); assumption.
Qed.

Section Raises.

Variable net : Network.

Lemma rpc_attempt_raises (P : Type) (answer : nat -> HttpRequest -> FetchOutcome P)
      (endpoint : string) (payload : RequestBody) :
  raises (rpc_attempt answer endpoint payload).
Proof.
  unfold rpc_attempt. apply raises_bind; [intros tr e tr' H; discriminate |].
  intros [reason | status json]; [apply raises_throw; exact I |].
  destruct (negb (ok_status status) &&
            ((status =? 429) || ((500 <=? status) && (status <? 600)))) eqn:Est.
  - apply raises_throw. simpl.
    apply andb_prop in Est as [_ Est]. apply orb_prop in Est as [E | E].
    + apply Z.eqb_eq in E. auto.
    + apply andb_prop in E as [E1 E2]. right. lia.
  - destruct json as [[j | items] |].
    + destruct (has_error j); [| apply raises_ret].
      apply raises_throw. simpl. apply error_message_nonempty. discriminate.
    + destruct (find (@has_error P) items); [| apply raises_ret].
      apply raises_throw. simpl. apply error_message_nonempty. discriminate.
    + apply raises_throw. exact I.
Qed.

Lemma rpc_loop_raises (P : Type) (answer : nat -> HttpRequest -> FetchOutcome P)
      (endpoint : string) (payload : RequestBody) :
  forall remaining i lastErr,
    match lastErr with Some e => raisable e | None => remaining <> 0%nat end ->
    raises (rpc_loop answer endpoint payload remaining i lastErr).
Proof.
  induction remaining as [| n IH]; intros i lastErr Hlast tr e tr' Hrun.
  - simpl in Hrun. unfold throw in Hrun. injection Hrun as <- <-.
    destruct lastErr; [assumption | contradiction].
  - rewrite rpc_loop_step in Hrun.
    destruct (rpc_attempt answer endpoint payload tr) as [[j | e0] tr1] eqn:E;
      [discriminate |].
    apply rpc_attempt_raises in E. eapply IH; [| exact Hrun]. exact E.
Qed.

Lemma rpc_raises (P : Type) (answer : nat -> HttpRequest -> FetchOutcome P)
      (endpoint : string) (payload : RequestBody) :
  raises (rpc answer endpoint payload DEFAULT_ATTEMPTS).
Proof. apply rpc_loop_raises. discriminate. Qed.

Lemma getBlockByTag_raises endpoint tag : raises (getBlockByTag net endpoint tag).
Proof.
  unfold getBlockByTag. apply raises_bind; [apply rpc_raises |].
  intros [r | rs]; [destruct (result r) |]; auto with trace;
    apply raises_throw; exact I.
Qed.

Lemma findBlockAtOrAfter_loop_raises endpoint targetTs : forall (n : nat) b,
  (width b <= n)%nat -> raises (findBlockAtOrAfter_loop net endpoint targetTs b).
Proof.
  induction n as [| n IH]; intros b Hn tr e tr';
    rewrite findBlockAtOrAfter_loop_while;
    destruct (Z.ltb_spec (lo b) (hi b)) as [Hlt | Hge]; try discriminate.
  - unfold width in Hn. lia.
  - destruct (getBlockByNumber net endpoint (lower_mid (lo b) (hi b)) tr)
      as [[blk | e0] tr1] eqn:E; intros Hrun.
    + eapply IH; [| exact Hrun].
      destruct (@narrow_after_shrinks targetTs (ts blk) b Hlt) as [Hw _]. lia.
    + injection Hrun as <- <-. eapply getBlockByTag_raises. exact E.
Qed.

Lemma findBlockAtOrBefore_loop_raises endpoint targetTs : forall (n : nat) b,
  (width b <= n)%nat -> raises (findBlockAtOrBefore_loop net endpoint targetTs b).
Proof.
  induction n as [| n IH]; intros b Hn tr e tr';
    rewrite findBlockAtOrBefore_loop_while;
    destruct (Z.ltb_spec (lo b) (hi b)) as [Hlt | Hge]; try discriminate.
  - unfold width in Hn. lia.
  - destruct (getBlockByNumber net endpoint (upper_mid (lo b) (hi b)) tr)
      as [[blk | e0] tr1] eqn:E; intros Hrun.
    + eapply IH; [| exact Hrun].
      destruct (@narrow_before_shrinks targetTs (ts blk) b Hlt) as [Hw _]. lia.
    + injection Hrun as <- <-. eapply getBlockByTag_raises. exact E.
Qed.

Lemma findBlockAtOrAfter_raises endpoint targetTs :
  raises (findBlockAtOrAfter net endpoint targetTs).
Proof.
  unfold findBlockAtOrAfter, getEarliest, getLatest.
  apply raises_bind; [apply getBlockByTag_raises | intros first].
  apply raises_bind; [apply getBlockByTag_raises | intros final].
  destruct (targetTs <=? ts first); [auto with trace |].
  destruct (targetTs >? ts final); [auto with trace |].
  apply raises_bind; [| auto with trace].
  eapply findBlockAtOrAfter_loop_raises. apply le_n.
Qed.

Lemma findBlockAtOrBefore_raises endpoint targetTs :
  raises (findBlockAtOrBefore net endpoint targetTs).
Proof.
  unfold findBlockAtOrBefore, getEarliest, getLatest.
  apply raises_bind; [apply getBlockByTag_raises | intros first].
  apply raises_bind; [apply getBlockByTag_raises | intros final].
  destruct (targetTs <? ts first); [auto with trace |].
  destruct (targetTs >=? ts final); [auto with trace |].
  apply raises_bind; [| auto with trace].
  eapply findBlockAtOrBefore_loop_raises. apply le_n.
Qed.

Lemma Api_resolveRange_raises endpoint req : raises (Api.resolveRange net endpoint req).
Proof.
  unfold Api.resolveRange, getEarliest, getLatest.
  apply raises_bind; [apply getBlockByTag_raises | intros first].
  apply raises_bind; [apply getBlockByTag_raises | intros final].
  apply raises_bind.
  { destruct (Api.startTs req) as [t |]; [destruct (t >? 0) |];
      auto using findBlockAtOrAfter_raises with trace. }
  intros fromBlock. apply raises_bind; [| auto with trace].
  destruct (Api.endTs req) as [t |]; [destruct (t >? 0) |];
    auto using findBlockAtOrBefore_raises with trace.
Qed.

Lemma App_resolveRange_raises inp : raises (App.resolveRange net inp).
Proof.
  unfold App.resolveRange, getEarliest, getLatest.
  apply raises_bind; [apply getBlockByTag_raises | intros first].
  apply raises_bind; [apply getBlockByTag_raises | intros final].
  apply raises_bind.
  { destruct (App.startTs inp) as [t |]; [destruct (t =? 0) |];
      auto using findBlockAtOrAfter_raises with trace. }
  intros fromBlock. apply raises_bind; [| auto with trace].
  destruct (App.endTs inp) as [t |]; [destruct (t =? 0) |];
    auto using findBlockAtOrBefore_raises with trace.
Qed.

Lemma Api_fetchLogs_loop_raises rpcUrl address ranges : forall (n : nat) i allLogs,
  (List.length ranges - i <= n)%nat ->
  raises (Api.fetchLogs_loop net rpcUrl address ranges i allLogs).
Proof.
  induction n as [| n IH]; intros i allLogs Hn tr e tr';
    rewrite Api_fetchLogs_loop_while;
    destruct (Nat.ltb_spec i (List.length ranges)) as [Hlt | Hge]; try lia;
    try discriminate.
  destruct (rpc (answerLogs net) rpcUrl _ DEFAULT_ATTEMPTS tr) as [[[j | resp] | e0] tr1] eqn:E.
  - intros [= <- <-]. exact I.
  - apply IH. unfold Api.BATCH. lia.
  - intros [= <- <-]. eapply rpc_raises. exact E.
Qed.

Lemma App_fetchLogsBatched_loop_raises rpcUrl address topic0 batchSize delayMs ranges :
  forall (n : nat) i allLogs,
  (List.length ranges - i <= n)%nat ->
  raises (App.fetchLogsBatched_loop net rpcUrl address topic0 batchSize delayMs ranges
                                    i allLogs).
Proof.
  induction n as [| n IH]; intros i allLogs Hn tr e tr';
    rewrite App_fetchLogsBatched_loop_while;
    destruct (Nat.ltb_spec i (List.length ranges)) as [Hlt | Hge]; try lia;
    try discriminate.
  cbv zeta. unfold rpcCallWithRetry.
  destruct (rpc (answerLogs net) rpcUrl _ DEFAULT_ATTEMPTS tr) as [[[j | resp] | e0] tr1] eqn:E.
  - intros [= <- <-]. exact I.
  - apply IH. lia.
  - intros [= <- <-]. eapply rpc_raises. exact E.
Qed.

Variable parseLog : list string -> string -> ParseOutcome.

Lemma Api_run_raises req : raises (Api.run net parseLog req).
Proof.
  unfold Api.run. apply raises_bind; [apply Api_resolveRange_raises |].
  intros [fromBlock toBlock]. destruct (toBlock <? fromBlock); [auto with trace |].
  apply raises_bind; [| auto with trace].
  eapply Api_fetchLogs_loop_raises. apply le_n.
Qed.

Lemma App_run_raises inp : raises (App.run net parseLog inp).
Proof.
  unfold App.run. apply raises_bind; [apply App_resolveRange_raises |].
  intros [fromBlock toBlock]. destruct (toBlock <? fromBlock); [auto with trace |].
  apply raises_bind; [| auto with trace].
  unfold App.fetchLogsBatched. apply raises_bind; [| auto with trace].
  eapply App_fetchLogsBatched_loop_raises. apply le_n.
Qed.

End Raises.

Lemma raisable_message (e : Error) :
  raisable e -> Api.message e <> "" /\ App.message e <> "".
Proof.
  destruct e as [reason | | status | m | m | | tag |]; simpl; intros H;
    try (split; discriminate); try (split; assumption); try contradiction.
  - destruct (String.eqb_spec reason ""); split; try discriminate; assumption.
  - destruct tag; split; discriminate.
Qed.

Lemma Api_run_never_fails_quietly net parseLog req tr text tr' :
  Api.run net parseLog req tr <> (Ok (Api.Failure text), tr').
Proof.
  unfold Api.run, bind.
  destruct (Api.resolveRange net _ req tr) as [[[f t] | e] tr2]; [| discriminate].
  destruct (t <? f); [discriminate |].
  destruct (Api.fetchLogs_loop net _ _ _ 0 [] tr2) as [[allLogs | e] tr3]; discriminate.
Qed.


(** ** A missing block *)

Lemma getBlockByTag_missing (net : Network) (endpoint : string) (tag : BlockTag)
      (tr : Trace) (status : Z) :
  answerBlock net (fetchCount tr) (lookup endpoint tag) =
    HttpResponse status (Some noResult) ->
  status <> 429 -> ~ (500 <= status < 600) ->
  getBlockByTag net endpoint tag tr =
  (Throw (BlockNotFound tag), tr ++ [Fetched (lookup endpoint tag)]).
Proof.
  intros Hanswer H429 H5xx. unfold getBlockByTag, bind, rpc, DEFAULT_ATTEMPTS.
  rewrite (@rpc_loop_returns _ (answerBlock net) endpoint _ 4 0 None tr noResult).
  - reflexivity.
  - exists status. split; [exact Hanswer |]. repeat split; try assumption.
Qed.

(** A block the node does not have is not asked for again: when the lookup
    of the earliest block is answered, with a status that is neither 429
    nor 5xx, by a reply without [result] and without [error], the run ends
    after that one request; the handler answers
    [{ ok: false, error: "Block not found" }] and the stand-alone
    application shows "Block not found for earliest". *)
Theorem missing_block_is_reported_at_once
        (net : Network) (parseLog : list string -> string -> ParseOutcome)
        (endpoint : string) (tr : Trace) (status : Z) :
  answerBlock net (fetchCount tr) (lookup endpoint Earliest) =
    HttpResponse status (Some noResult) ->
  status <> 429 -> ~ (500 <= status < 600) ->
  getBlockByTag net endpoint Earliest tr =
    (Throw (BlockNotFound Earliest), tr ++ [Fetched (lookup endpoint Earliest)]) /\
  (forall req, or_default (Api.rpcIn req) DEFAULT_RPC = endpoint ->
     Api.handler net parseLog req tr =
     (Ok (Api.Failure "Block not found"), tr ++ [Fetched (lookup endpoint Earliest)])) /\
  (forall inp, App.rpcUrl inp = endpoint ->
     App.handleRun net parseLog inp tr =
     (Ok {| App.rows := []; App.error := Some "Block not found for earliest";
            App.loading := false |},
      tr ++ [Progress 0 0; Fetched (lookup endpoint Earliest)])).
Proof.
  intros Hanswer H429 H5xx.
  pose proof (getBlockByTag_missing net endpoint Earliest tr Hanswer H429 H5xx) as Hfirst.
  split; [exact Hfirst |]. split.
  - intros req Hurl. unfold Api.handler, Api.run, Api.resolveRange, tryCatch, bind, getEarliest.
    rewrite Hurl, Hfirst. reflexivity.
  - intros inp Hurl.
    unfold App.handleRun, App.run, App.resolveRange, tryCatch, bind, emit, getEarliest.
    rewrite Hurl, getBlockByTag_missing with (status := status); try assumption.
    + rewrite <- app_assoc. reflexivity.
    + rewrite fetchCount_app. cbn [fetchCount filter isFetched List.length].
      rewrite Nat.add_0_r. exact Hanswer.
Qed.

(** A node that answers every lookup with [result: null]. *)
Lemma missing_block_is_reported_at_once_witness :
  let net := {| answerBlock := Example.pruned; answerLogs := Example.noLogs |} in
  Api.handler net Example.aliceBeatsBob
    {| Api.rpcIn := None; Api.addrIn := None; Api.startTs := None; Api.endTs := None |} [] =
  (Ok (Api.Failure "Block not found"), [] ++ [Fetched (lookup DEFAULT_RPC Earliest)]).
Proof.
  intros net.
  destruct (@missing_block_is_reported_at_once net Example.aliceBeatsBob DEFAULT_RPC [] 200)
    as (_ & Hapi & _).
  - reflexivity.
  - lia.
  - lia.
  - apply Hapi. reflexivity.
Defined.

(** ** Hex quantities *)

Lemma digits_acc (d : Hexadecimal.uint) : forall acc : positive,
  Wire.digits (HexadecimalString.NilEmpty.string_of_uint d) (Some (N.pos acc)) =
  Some (N.pos (Pos.of_hex_uint_acc d acc)).
Proof.
  induction d; intros acc; simpl; try reflexivity;
    rewrite <- IHd; do 2 f_equal; lia.
Qed.

Lemma digits_zero (d : Hexadecimal.uint) :
  Wire.digits (HexadecimalString.NilEmpty.string_of_uint d) (Some 0%N) =
  Some (Pos.of_hex_uint d).
Proof.
  induction d; simpl; try reflexivity; try exact IHd; apply digits_acc.
Qed.

Lemma digits_start (d : Hexadecimal.uint) :
  d <> Hexadecimal.Nil ->
  Wire.digits (HexadecimalString.NilEmpty.string_of_uint d) None =
  Wire.digits (HexadecimalString.NilEmpty.string_of_uint d) (Some 0%N).
Proof. destruct d; intros H; [contradiction | reflexivity ..]. Qed.

Lemma to_hex_uint_nonnil (n : N) : N.to_hex_uint n <> Hexadecimal.Nil.
Proof.
  destruct n as [| p]; simpl; [discriminate | apply HexadecimalPos.Unsigned.to_uint_nonnil].
Qed.

Lemma digits_hexadecimal (n : N) : Wire.digits (hexadecimal n) None = Some n.
Proof.
  unfold hexadecimal. rewrite digits_start by apply to_hex_uint_nonnil.
  rewrite digits_zero. f_equal. apply HexadecimalN.Unsigned.of_to.
Qed.

(** [n.toString(16)] has no leading zero: it starts with ["0"] for zero
    only. *)
Lemma hexadecimal_compact (n : N) (rest : string) :
  hexadecimal n = String "0" rest -> n = 0%N /\ rest = "".
Proof.
  unfold hexadecimal. intros H.
  assert (Hnorm : N.to_hex_uint n = Hexadecimal.unorm (N.to_hex_uint n)).
  { rewrite <- HexadecimalN.Unsigned.to_of, HexadecimalN.Unsigned.of_to. reflexivity. }
  destruct (N.to_hex_uint n) as [| d | | | | | | | | | | | | | | |] eqn:E;
    simpl in H; try discriminate.
  injection H as H.
  assert (Hd : d = Hexadecimal.Nil).
  { unfold Hexadecimal.unorm in Hnorm. rewrite HexadecimalFacts.nzhead_D0 in Hnorm.
    destruct (Hexadecimal.nzhead d) eqn:Ez; try discriminate;
      try (injection Hnorm as <-; reflexivity).
    exfalso. apply (HexadecimalFacts.nzhead_nonzero d d). rewrite Ez. congruence. }
  subst d. simpl in H. split; [| congruence].
  rewrite <- (HexadecimalN.Unsigned.of_to n), E. reflexivity.
Qed.

(** What [toHex] writes, [parseInt(_, 16)] reads back: the two are inverse
    on the non-negative integers, so that distinct numbers have distinct
    encodings; and the encoding has no leading zero, as a JSON-RPC quantity
    must not. *)
Theorem toHex_parseInt_round_trip (n : N) :
  Wire.parseInt16 (Wire.toHex n) = Some (Z.of_N n) /\
  (forall m, Wire.toHex n = Wire.toHex m -> n = m) /\
  (forall rest, Wire.toHex n = ("0x0" ++ rest)%string -> n = 0%N /\ rest = "").
Proof.
  assert (H : Wire.parseInt16 (Wire.toHex n) = Some (Z.of_N n)).
  { unfold Wire.parseInt16, Wire.toHex. simpl. rewrite digits_hexadecimal. reflexivity. }
  split; [exact H |]. split.
  - intros m Hm. unfold Wire.toHex in Hm. injection Hm as Hm.
    pose proof (digits_hexadecimal n) as Hn. rewrite Hm, digits_hexadecimal in Hn.
    congruence.
  - intros rest Hrest. unfold Wire.toHex in Hrest. injection Hrest as Hrest.
    apply hexadecimal_compact. exact Hrest.
Qed.

(** ** Unanswered queries *)

Section Unanswered.

Variable net : Network.
Hypothesis Hsilent : unanswering (answerLogs net).

Lemma collect_nothing (items : list (RpcReply (list RawLog))) : forall allLogs,
  Forall (fun r => error r = None /\ result r = None) items ->
  collect allLogs items = allLogs.
Proof.
  unfold collect. induction items as [| r items IH]; intros allLogs Hall; [reflexivity |].
  inversion Hall as [| ? ? [_ Hr] Hrest]; subst. simpl. rewrite Hr. apply IH. assumption.
Qed.

Lemma rpc_unanswered rpcUrl (rs : list RpcRequest) tr :
  exists items,
    rpc (answerLogs net) rpcUrl (BatchRequest rs) DEFAULT_ATTEMPTS tr =
    (Ok (BatchReply items), tr ++ [Fetched {| url := rpcUrl; body := BatchRequest rs |}]) /\
    Forall (fun r => error r = None /\ result r = None) items.
Proof.
  destruct (Hsilent (fetchCount tr) {| url := rpcUrl; body := BatchRequest rs |})
    as (status & items & Hanswer & H429 & H5xx & Hall).
  exists items. split; [| exact Hall].
  unfold rpc, DEFAULT_ATTEMPTS. apply rpc_loop_returns.
  exists status. split; [exact Hanswer |]. split; [exact H429 |]. split; [exact H5xx |].
  simpl. eapply Forall_impl; [| exact Hall]. cbv beta. tauto.
Qed.

Lemma Api_fetchLogs_loop_unanswered rpcUrl address ranges : forall (n : nat) i allLogs tr,
  (List.length ranges - i <= n)%nat ->
  exists tr',
    Api.fetchLogs_loop net rpcUrl address ranges i allLogs tr = (Ok allLogs, tr').
Proof.
  induction n as [| n IH]; intros i allLogs tr Hn;
    rewrite Api_fetchLogs_loop_while;
    destruct (Nat.ltb_spec i (List.length ranges)) as [Hlt | Hge]; try lia;
    try (eexists; reflexivity).
  destruct (rpc_unanswered rpcUrl
              (mapi (logsRequest address TOPIC0 i) (slice ranges i (i + Api.BATCH))) tr)
    as (items & -> & Hall).
  rewrite (collect_nothing _ Hall). apply IH. unfold Api.BATCH. lia.
Qed.

Lemma App_fetchLogsBatched_loop_unanswered rpcUrl address topic0 batchSize delayMs ranges :
  forall (n : nat) i allLogs tr,
  (List.length ranges - i <= n)%nat ->
  exists tr',
    App.fetchLogsBatched_loop net rpcUrl address topic0 batchSize delayMs ranges
                              i allLogs tr = (Ok allLogs, tr').
Proof.
  induction n as [| n IH]; intros i allLogs tr Hn;
    rewrite App_fetchLogsBatched_loop_while;
    destruct (Nat.ltb_spec i (List.length ranges)) as [Hlt | Hge]; try lia;
    try (eexists; reflexivity).
  cbv zeta. unfold rpcCallWithRetry.
  destruct (rpc_unanswered rpcUrl
              (mapi (logsRequest address topic0 i)
                    (slice ranges i (i + Pos.to_nat batchSize))) tr)
    as (items & -> & Hall).
  rewrite (collect_nothing _ Hall). apply IH. lia.
Qed.

End Unanswered.

(** The replies of a batch are not matched against its queries.  Against
    an endpoint whose replies carry no [result] (an empty array for a
    batch, or replies with [result: null]), the handler answers
    [{ ok: true, rows: [] }] and the application shows no rows and no
    error, whatever the range holds. *)
Theorem unanswered_queries_go_unnoticed
        (net : Network) (parseLog : list string -> string -> ParseOutcome) :
  unanswering (answerLogs net) ->
  (forall req tr fromBlock toBlock tr1,
     Api.resolveRange net (or_default (Api.rpcIn req) DEFAULT_RPC) req tr =
       (Ok (fromBlock, toBlock), tr1) ->
     exists tr', Api.handler net parseLog req tr = (Ok (Api.Rows []), tr')) /\
  (forall inp tr fromBlock toBlock tr1,
     App.resolveRange net inp (tr ++ [Progress 0 0]) = (Ok (fromBlock, toBlock), tr1) ->
     exists tr',
       App.handleRun net parseLog inp tr =
       (Ok {| App.rows := []; App.error := None; App.loading := false |}, tr')).
Proof.
  intros Hsilent. split.
  - intros req tr f t tr1 Hrange.
    unfold Api.handler, Api.run, tryCatch, bind. rewrite Hrange.
    destruct (t <? f); [eexists; reflexivity |].
    destruct (@Api_fetchLogs_loop_unanswered net Hsilent
                (or_default (Api.rpcIn req) DEFAULT_RPC)
                (toLowerCase (or_default (Api.addrIn req) DEFAULT_CONTRACT))
                (buildRanges f t) _ 0%nat [] tr1 (le_n _)) as (tr' & ->).
    eexists; reflexivity.
  - intros inp tr f t tr1 Hrange.
    unfold App.handleRun, App.run, tryCatch, bind, emit. rewrite Hrange.
    destruct (t <? f); [eexists; reflexivity |].
    unfold App.fetchLogsBatched, bind.
    destruct (@App_fetchLogsBatched_loop_unanswered net Hsilent
                (App.rpcUrl inp) (App.address inp) TOPIC0
                (App.clampBatch (App.batchSize inp)) (App.clampDelay (App.delayMs inp))
                (buildRanges f t) _ 0%nat [] tr1 (le_n _)) as (tr' & ->).
    eexists; reflexivity.
Qed.

(** The chain of 150001 blocks behind an endpoint that answers every batch
    with an empty array. *)
Lemma unanswered_queries_go_unnoticed_witness :
  let net := reliable Example.longChain (fun _ _ => HttpResponse 200 (Some (BatchReply []))) in
  let everything := {| Api.rpcIn := None; Api.addrIn := None;
                       Api.startTs := None; Api.endTs := None |} in
  exists tr', Api.handler net Example.aliceBeatsBob everything [] = (Ok (Api.Rows []), tr').
Proof.
  intros net everything.
  destruct (@unanswered_queries_go_unnoticed net Example.aliceBeatsBob) as [Hapi _].
  - intros k req. exists 200, []. repeat split; try lia. constructor.
  - apply (Hapi everything [] 0 150000
             (snd (Api.resolveRange net DEFAULT_RPC everything []))).
    vm_compute. reflexivity.
Defined.

(** ** Lookups by tag *)

Lemma tagLookups_app (evs1 evs2 : list Event) :
  tagLookups (evs1 ++ evs2) = tagLookups evs1 ++ tagLookups evs2.
Proof. unfold tagLookups. rewrite map_app. apply filterBoolean_app. Qed.

Section TagLookups.

Variable c : Chain.
Variable logs : nat -> HttpRequest -> FetchOutcome (list RawLog).
Variable endpoint : string.

Local Abbreviation net := (reliable c logs).

Lemma getBlockByTag_reliable (tag : BlockTag) tr :
  getBlockByTag net endpoint tag tr =
  (Ok (blockOf c match tag with
                 | Earliest => earliest c
                 | Latest => latest c
                 | BlockHex n => n
                 end), tr ++ [Fetched (lookup endpoint tag)]).
Proof.
  unfold getBlockByTag, bind, rpc, DEFAULT_ATTEMPTS.
  rewrite (@rpc_loop_returns _ (answerBlock (reliable c logs)) endpoint _ 4 0 None tr
             (SingleReply
                {| error := None;
                   result := Some {| number := match tag with
                                               | Earliest => earliest c
                                               | Latest => latest c
                                               | BlockHex n => n
                                               end;
                                     timestamp := stamp c match tag with
                                                          | Earliest => earliest c
                                                          | Latest => latest c
                                                          | BlockHex n => n
                                                          end |} |})).
  - reflexivity.
  - exists 200. split; [reflexivity |]. repeat split; try lia.
Qed.

Lemma findBlockAtOrAfter_loop_lookups targetTs : forall (n : nat) b tr,
  (width b <= n)%nat ->
  exists b' evs,
    findBlockAtOrAfter_loop net endpoint targetTs b tr = (Ok b', tr ++ evs) /\
    tagLookups evs = [].
Proof.
  induction n as [| n IH]; intros b tr Hn;
    rewrite findBlockAtOrAfter_loop_while;
    destruct (Z.ltb_spec (lo b) (hi b)) as [Hlt | Hge];
    try (exists b, []; rewrite app_nil_r; split; reflexivity).
  - unfold width in Hn. lia.
  - unfold getBlockByNumber, toHex. rewrite getBlockByTag_reliable.
    destruct (@narrow_after_shrinks targetTs
                (ts (blockOf c (lower_mid (lo b) (hi b)))) b Hlt) as [Hw _].
    destruct (IH (narrow_after targetTs (ts (blockOf c (lower_mid (lo b) (hi b)))) b)
                 (tr ++ [Fetched (lookup endpoint (BlockHex (lower_mid (lo b) (hi b))))]))
      as (b' & evs & -> & Hevs); [lia |].
    exists b', (Fetched (lookup endpoint (BlockHex (lower_mid (lo b) (hi b)))) :: evs).
    split; [rewrite <- app_assoc; reflexivity | exact Hevs].
Qed.

Lemma findBlockAtOrBefore_loop_lookups targetTs : forall (n : nat) b tr,
  (width b <= n)%nat ->
  exists b' evs,
    findBlockAtOrBefore_loop net endpoint targetTs b tr = (Ok b', tr ++ evs) /\
    tagLookups evs = [].
Proof.
  induction n as [| n IH]; intros b tr Hn;
    rewrite findBlockAtOrBefore_loop_while;
    destruct (Z.ltb_spec (lo b) (hi b)) as [Hlt | Hge];
    try (exists b, []; rewrite app_nil_r; split; reflexivity).
  - unfold width in Hn. lia.
  - unfold getBlockByNumber, toHex. rewrite getBlockByTag_reliable.
    destruct (@narrow_before_shrinks targetTs
                (ts (blockOf c (upper_mid (lo b) (hi b)))) b Hlt) as [Hw _].
    destruct (IH (narrow_before targetTs (ts (blockOf c (upper_mid (lo b) (hi b)))) b)
                 (tr ++ [Fetched (lookup endpoint (BlockHex (upper_mid (lo b) (hi b))))]))
      as (b' & evs & -> & Hevs); [lia |].
    exists b', (Fetched (lookup endpoint (BlockHex (upper_mid (lo b) (hi b)))) :: evs).
    split; [rewrite <- app_assoc; reflexivity | exact Hevs].
Qed.

Lemma findBlockAtOrAfter_lookups targetTs tr :
  exists r evs,
    findBlockAtOrAfter net endpoint targetTs tr = (Ok r, tr ++ evs) /\
    tagLookups evs = [Earliest; Latest].
Proof.
  unfold findBlockAtOrAfter, bind, getEarliest, getLatest.
  rewrite !getBlockByTag_reliable. cbn [blockOf ts num].
  destruct (targetTs <=? stamp c (earliest c)).
  { exists (earliest c), [Fetched (lookup endpoint Earliest); Fetched (lookup endpoint Latest)].
    rewrite <- app_assoc. split; reflexivity. }
  destruct (targetTs >? stamp c (latest c)).
  { exists (latest c), [Fetched (lookup endpoint Earliest); Fetched (lookup endpoint Latest)].
    rewrite <- app_assoc. split; reflexivity. }
  destruct (@findBlockAtOrAfter_loop_lookups targetTs _
              {| lo := earliest c; hi := latest c |}
              ((tr ++ [Fetched (lookup endpoint Earliest)]) ++
               [Fetched (lookup endpoint Latest)]) (le_n _))
    as (b' & evs & -> & Hevs).
  exists (lo b'),
    ([Fetched (lookup endpoint Earliest); Fetched (lookup endpoint Latest)] ++ evs).
  split; [rewrite <- !app_assoc; reflexivity |].
  rewrite tagLookups_app, Hevs. reflexivity.
Qed.

Lemma findBlockAtOrBefore_lookups targetTs tr :
  exists r evs,
    findBlockAtOrBefore net endpoint targetTs tr = (Ok r, tr ++ evs) /\
    tagLookups evs = [Earliest; Latest].
Proof.
  unfold findBlockAtOrBefore, bind, getEarliest, getLatest.
  rewrite !getBlockByTag_reliable. cbn [blockOf ts num].
  destruct (targetTs <? stamp c (earliest c)).
  { exists (earliest c), [Fetched (lookup endpoint Earliest); Fetched (lookup endpoint Latest)].
    rewrite <- app_assoc. split; reflexivity. }
  destruct (targetTs >=? stamp c (latest c)).
  { exists (latest c), [Fetched (lookup endpoint Earliest); Fetched (lookup endpoint Latest)].
    rewrite <- app_assoc. split; reflexivity. }
  destruct (@findBlockAtOrBefore_loop_lookups targetTs _
              {| lo := earliest c; hi := latest c |}
              ((tr ++ [Fetched (lookup endpoint Earliest)]) ++
               [Fetched (lookup endpoint Latest)]) (le_n _))
    as (b' & evs & -> & Hevs).
  exists (lo b'),
    ([Fetched (lookup endpoint Earliest); Fetched (lookup endpoint Latest)] ++ evs).
  split; [rewrite <- !app_assoc; reflexivity |].
  rewrite tagLookups_app, Hevs. reflexivity.
Qed.

(** One end of the range: a search when the date is given, nothing
    otherwise. *)
Lemma resolve_end_lookups (given : bool) (search : M Z) (otherwise : Z) tr :
  (forall tr0, exists r evs, search tr0 = (Ok r, tr0 ++ evs) /\
                             tagLookups evs = [Earliest; Latest]) ->
  exists r evs,
    (if given then search else ret otherwise) tr = (Ok r, tr ++ evs) /\
    tagLookups evs = if given then [Earliest; Latest] else [].
Proof.
  intros Hsearch. destruct given; [apply Hsearch |].
  exists otherwise, []. rewrite app_nil_r. split; reflexivity.
Qed.

End TagLookups.

(** Resolving a period asks again what it already knows: on an endpoint
    that answers every lookup at once, the earliest and the latest block
    are looked up once by the resolution itself and once more by each of
    the two searches that takes place, three times each when both dates
    are given; the searches themselves look blocks up by number only. *)
Theorem resolution_repeats_lookups
        (c : Chain) (logs : nat -> HttpRequest -> FetchOutcome (list RawLog)) :
  (forall endpoint req tr, exists range evs,
     Api.resolveRange (reliable c logs) endpoint req tr = (Ok range, tr ++ evs) /\
     tagLookups evs =
       [Earliest; Latest] ++
       (if givenToApi (Api.startTs req) then [Earliest; Latest] else []) ++
       (if givenToApi (Api.endTs req) then [Earliest; Latest] else [])) /\
  (forall inp tr, exists range evs,
     App.resolveRange (reliable c logs) inp tr = (Ok range, tr ++ evs) /\
     tagLookups evs =
       [Earliest; Latest] ++
       (if givenToApp (App.startTs inp) then [Earliest; Latest] else []) ++
       (if givenToApp (App.endTs inp) then [Earliest; Latest] else [])).
Proof.
  split.
  - intros endpoint req tr. unfold Api.resolveRange, bind, getEarliest, getLatest.
    rewrite !getBlockByTag_reliable. cbn [blockOf num].
    set (tr2 := (tr ++ [Fetched (lookup endpoint Earliest)]) ++
                [Fetched (lookup endpoint Latest)]).
    destruct (@resolve_end_lookups (givenToApi (Api.startTs req))
                (findBlockAtOrAfter (reliable c logs) endpoint
                   match Api.startTs req with Some t => t | None => 0 end)
                (earliest c) tr2) as (f & evs1 & Hf & H1).
    { intros tr0. apply findBlockAtOrAfter_lookups. }
    destruct (@resolve_end_lookups (givenToApi (Api.endTs req))
                (findBlockAtOrBefore (reliable c logs) endpoint
                   match Api.endTs req with Some t => t | None => 0 end)
                (latest c) (tr2 ++ evs1)) as (t & evs2 & Ht & H2).
    { intros tr0. apply findBlockAtOrBefore_lookups. }
    exists (f, t),
      ([Fetched (lookup endpoint Earliest); Fetched (lookup endpoint Latest)] ++ evs1 ++ evs2).
    split.
    + replace (tr ++ [Fetched (lookup endpoint Earliest); Fetched (lookup endpoint Latest)]
                  ++ evs1 ++ evs2) with ((tr2 ++ evs1) ++ evs2)
        by (subst tr2; rewrite <- !app_assoc; reflexivity).
      unfold givenToApi in Hf, Ht.
      destruct (Api.startTs req) as [s |]; [destruct (s >? 0) |];
        rewrite Hf;
        (destruct (Api.endTs req) as [e |]; [destruct (e >? 0) |]);
        rewrite Ht; reflexivity.
    + rewrite !tagLookups_app, H1, H2. reflexivity.
  - intros inp tr. unfold App.resolveRange, bind, getEarliest, getLatest.
    rewrite !getBlockByTag_reliable. cbn [blockOf num].
    set (endpoint := App.rpcUrl inp).
    set (tr2 := (tr ++ [Fetched (lookup endpoint Earliest)]) ++
                [Fetched (lookup endpoint Latest)]).
    destruct (@resolve_end_lookups (givenToApp (App.startTs inp))
                (findBlockAtOrAfter (reliable c logs) endpoint
                   match App.startTs inp with Some t => t | None => 0 end)
                (earliest c) tr2) as (f & evs1 & Hf & H1).
    { intros tr0. apply findBlockAtOrAfter_lookups. }
    destruct (@resolve_end_lookups (givenToApp (App.endTs inp))
                (findBlockAtOrBefore (reliable c logs) endpoint
                   match App.endTs inp with Some t => t | None => 0 end)
                (latest c) (tr2 ++ evs1)) as (t & evs2 & Ht & H2).
    { intros tr0. apply findBlockAtOrBefore_lookups. }
    exists (f, t),
      ([Fetched (lookup endpoint Earliest); Fetched (lookup endpoint Latest)] ++ evs1 ++ evs2).
    split.
    + replace (tr ++ [Fetched (lookup endpoint Earliest); Fetched (lookup endpoint Latest)]
                  ++ evs1 ++ evs2) with ((tr2 ++ evs1) ++ evs2)
        by (subst tr2; rewrite <- !app_assoc; reflexivity).
      unfold givenToApp in Hf, Ht.
      destruct (App.startTs inp) as [s |]; [destruct (s =? 0) |];
        cbn [negb] in Hf; rewrite Hf;
        (destruct (App.endTs inp) as [e |]; [destruct (e =? 0) |]);
        cbn [negb] in Ht; rewrite Ht; reflexivity.
    + rewrite !tagLookups_app, H1, H2. reflexivity.
Qed.
